(** * TerraFirma world-file decoder: a shallow embedding of [world.cpp]

    The development follows [src/src/world.cpp]: the binary reader
    ([Handle]), the tile record codec ([Tile::load]), the section decoders
    of [World] and the player-map overlay ([World::loadPlayer]).

    Conventions.
    - C++ [int] values are kept as [Z]: the overflow of a signed [int] is
      undefined in C++, and the counts and offsets at hand stay far from
      [2^31]. Every fixed-width unsigned value ([quint8], [quint16],
      [quint32]) is reduced explicitly where the source truncates it.
    - Bytes of a file are [Byte.byte]; [b2z] gives their value in [0, 256).
    - The decoders run in a state-and-failure monad [M S]: the state
      survives a failure, as the members of a C++ object survive an
      exception thrown in the middle of a method.
    - An unchecked container access outside its range ([tiles[offset]],
      [extra[type]], [sections[i]]) is undefined behaviour in C++; the model
      stops there with [Fail (IndexOutOfRange c i)], which is not an error
      the program reports but the mark of an access it never checked. *)

From Stdlib Require Import ZArith Lia Bool.
From Stdlib Require Import Strings.Byte Strings.Ascii.
From stdpp Require Import base option list gmap strings pretty.

Local Open Scope Z_scope.

(** ** Results and the state-and-failure monad *)

(** The containers the source indexes without a range check. *)
Inductive Container : Type :=
  | Ctiles | Cextra | Csections | CtilePresent | CwallPresent.

(** [UnexpectedEof], [InvalidUtf8] and [InvalidLength] are the reader's
    errors (specification, section 4.1). [CorruptTileStream] and
    [UnknownEntityKind] are the errors the specification asks of the tiles
    and of the entities section; no code of [world.cpp] raises them, they
    are here to state what the specification says. [BadArrayLength] is
    [new Tile[n]] with a negative [n]; [IndexOutOfRange] marks an unchecked
    access; [OutOfFuel] belongs to the model alone (a loop that ran out of
    its iteration bound). *)
Inductive Err : Type :=
  | UnexpectedEof
  | InvalidUtf8
  | InvalidLength
  | CorruptTileStream
  | UnknownEntityKind (kind : Z)
  | BadArrayLength
  | IndexOutOfRange (c : Container) (i : Z)
  | OutOfFuel.

Inductive Res (A : Type) : Type :=
  | Ok (a : A)
  | Fail (e : Err).
Arguments Ok {A} a.
Arguments Fail {A} e.

Definition M (S A : Type) : Type := S → Res A * S.

#[global] Instance M_ret {S} : MRet (M S) := λ A a s, (Ok a, s).

#[global] Instance M_bind {S} : MBind (M S) :=
  λ A B k m s, match m s with
               | (Ok a, s') => k a s'
               | (Fail e, s') => (Fail e, s')
               end.

Definition fail {S A} (e : Err) : M S A := λ s, (Fail e, s).
Definition gets {S A} (f : S → A) : M S A := λ s, (Ok (f s), s).
Definition modify {S} (f : S → S) : M S unit := λ s, (Ok tt, f s).

(** [zoom] runs a computation on a component of the state. *)
Definition zoom {S T A} (proj : S → T) (upd : T → S → S) (m : M T A) : M S A :=
  λ s, let '(r, t) := m (proj s) in (r, upd t s).

Definition when {S} (b : bool) (m : M S unit) : M S unit :=
  if b then m else mret tt.

(** [for (int i = start; i < start + k; i++) body(i)] *)
Fixpoint for_loop {S} (k : nat) (i : Z) (body : Z → M S unit) : M S unit :=
  match k with
  | O => mret tt
  | S k' => body i ;; for_loop k' (i + 1) body
  end.

(** [for (int i = 0; i < n; i++) body(i)] *)
Definition for_range {S} (n : Z) (body : Z → M S unit) : M S unit :=
  for_loop (Z.to_nat n) 0 body.

(** A counted loop that carries a value from turn to turn. *)
Fixpoint for_fold {S A} (k : nat) (i : Z) (acc : A) (body : Z → A → M S A)
  : M S A :=
  match k with
  | O => mret acc
  | S k' => acc ← body i acc; for_fold k' (i + 1) acc body
  end.

(** ** Bytes and fixed-width integers *)

Definition b2z (b : byte) : Z := Z.of_N (Byte.to_N b).

(** Little-endian value of a byte string. *)
Fixpoint le_unsigned (bs : list byte) : Z :=
  match bs with
  | [] => 0
  | b :: bs' => b2z b + 256 * le_unsigned bs'
  end.

(** Two's-complement reading of a [w]-bit pattern. *)
Definition to_signed (w : Z) (v : Z) : Z :=
  if v <? 2 ^ (w - 1) then v else v - 2 ^ w.

(** The product of two [int]s, kept on 32 bits in two's complement. *)
Definition int_mul (a b : Z) : Z := to_signed 32 ((a * b) mod 2 ^ 32).

(** C++ truth value of an integer. *)
Definition truthy (v : Z) : bool := negb (v =? 0).

(** ** Handle: the binary reader *)

(** Modelled from the spec: the [Handle] class (handle.cpp) is not among the
    sources; section 4.1 of the specification gives its operations: a byte
    string with a cursor, little-endian fixed-width reads ([r8] unsigned,
    [r16] and [r32] two's complement), [UnexpectedEof] on any read past the
    end, [seek] and [skip] moving the cursor without reading. A cursor that
    is negative lies outside the bytes, so every read there is past the
    end. *)
Record Handle : Type := mkHandle { bytes : list byte; pos : Z }.

Definition Handle_length (h : Handle) : Z := Z.of_nat (length (bytes h)).

Definition readBytes (n : nat) : M Handle (list byte) :=
  λ h, if (0 <=? pos h) && (pos h + Z.of_nat n <=? Handle_length h)
       then (Ok (take n (drop (Z.to_nat (pos h)) (bytes h))),
             mkHandle (bytes h) (pos h + Z.of_nat n))
       else (Fail UnexpectedEof, h).

Definition r8 : M Handle Z := bs ← readBytes 1; mret (le_unsigned bs).
Definition r16 : M Handle Z :=
  bs ← readBytes 2; mret (to_signed 16 (le_unsigned bs)).
Definition r32 : M Handle Z :=
  bs ← readBytes 4; mret (to_signed 32 (le_unsigned bs)).
(** A float is kept as its 32-bit pattern. *)
Definition rf : M Handle Z := bs ← readBytes 4; mret (le_unsigned bs).

Definition skip (n : Z) : M Handle unit :=
  modify (λ h, mkHandle (bytes h) (pos h + n)).
Definition seek (off : Z) : M Handle unit :=
  modify (λ h, mkHandle (bytes h) off).
Definition tell : M Handle Z := gets pos.

(** ** Bit-packed bitmaps

    The loop of [World::run] (lines 80-91) that reads the extra-data bitmap;
    [World::loadPlayer2] repeats it verbatim for the tile and wall presence
    bitmaps (lines 535-545 and 548-558). [mask] is a [quint8], so the shift
    is reduced to eight bits. *)
Fixpoint readBits_loop (k : nat) (mask bits : Z) (extra : list bool)
  : M Handle (list bool) :=
  match k with
  | O => mret extra
  | S k' =>
      '(mask, bits) ← (if mask =? 0x80
                       then b ← r8; mret (1, b)
                       else mret (Z.land (Z.shiftl mask 1) 0xFF, bits));
      readBits_loop k' mask bits (extra ++ [truthy (Z.land bits mask)])
  end.

Definition readBits (n : Z) : M Handle (list bool) :=
  readBits_loop (Z.to_nat n) 0x80 0 [].

(** [l[i]] on a [QList] without a range check. *)
Definition index {S A} (c : Container) (l : list A) (i : Z) : M S A :=
  if 0 <=? i then
    match l !! Z.to_nat i with
    | Some a => mret a
    | None => fail (IndexOutOfRange c i)
    end
  else fail (IndexOutOfRange c i).

(** ** Tile *)

Module Tile.

(** The fields of [Tile] that [world.cpp] assigns. [flags] holds the
    named bits: active 1, lava 2, honey 4, red wire 8, blue wire 0x10,
    green wire 0x20, half 0x40, actuator 0x80, inactive 0x100, seen 0x200,
    yellow wire 0x400, shimmer 0x800. *)
Record t : Type := mk {
  type : Z; wall : Z; u : Z; v : Z; wallu : Z; wallv : Z;
  color : Z; wallColor : Z; liquid : Z; slope : Z; flags : Z }.

Definition set_type (x : Z) (a : t) : t :=
  mk x (wall a) (u a) (v a) (wallu a) (wallv a) (color a) (wallColor a)
     (liquid a) (slope a) (flags a).
Definition set_wall (x : Z) (a : t) : t :=
  mk (type a) x (u a) (v a) (wallu a) (wallv a) (color a) (wallColor a)
     (liquid a) (slope a) (flags a).
Definition set_u (x : Z) (a : t) : t :=
  mk (type a) (wall a) x (v a) (wallu a) (wallv a) (color a) (wallColor a)
     (liquid a) (slope a) (flags a).
Definition set_v (x : Z) (a : t) : t :=
  mk (type a) (wall a) (u a) x (wallu a) (wallv a) (color a) (wallColor a)
     (liquid a) (slope a) (flags a).
Definition set_wallu (x : Z) (a : t) : t :=
  mk (type a) (wall a) (u a) (v a) x (wallv a) (color a) (wallColor a)
     (liquid a) (slope a) (flags a).
Definition set_wallv (x : Z) (a : t) : t :=
  mk (type a) (wall a) (u a) (v a) (wallu a) x (color a) (wallColor a)
     (liquid a) (slope a) (flags a).
Definition set_color (x : Z) (a : t) : t :=
  mk (type a) (wall a) (u a) (v a) (wallu a) (wallv a) x (wallColor a)
     (liquid a) (slope a) (flags a).
Definition set_wallColor (x : Z) (a : t) : t :=
  mk (type a) (wall a) (u a) (v a) (wallu a) (wallv a) (color a) x
     (liquid a) (slope a) (flags a).
Definition set_liquid (x : Z) (a : t) : t :=
  mk (type a) (wall a) (u a) (v a) (wallu a) (wallv a) (color a) (wallColor a)
     x (slope a) (flags a).
Definition set_slope (x : Z) (a : t) : t :=
  mk (type a) (wall a) (u a) (v a) (wallu a) (wallv a) (color a) (wallColor a)
     (liquid a) x (flags a).
Definition set_flags (x : Z) (a : t) : t :=
  mk (type a) (wall a) (u a) (v a) (wallu a) (wallv a) (color a) (wallColor a)
     (liquid a) (slope a) x.

(** [flags |= bit] *)
Definition or_flags (bit : Z) (a : t) : t := set_flags (Z.lor (flags a) bit) a.

(** Accessors (lines 715-768). *)
Definition active (a : t) : bool := truthy (Z.land (flags a) 1).
Definition lava (a : t) : bool := truthy (Z.land (flags a) 2).
Definition honey (a : t) : bool := truthy (Z.land (flags a) 4).
Definition shimmer (a : t) : bool := truthy (Z.land (flags a) 0x800).
Definition redWire (a : t) : bool := truthy (Z.land (flags a) 8).
Definition blueWire (a : t) : bool := truthy (Z.land (flags a) 0x10).
Definition greenWire (a : t) : bool := truthy (Z.land (flags a) 0x20).
Definition half (a : t) : bool := truthy (Z.land (flags a) 0x40).
Definition actuator (a : t) : bool := truthy (Z.land (flags a) 0x80).
Definition inactive (a : t) : bool := truthy (Z.land (flags a) 0x100).
Definition seen (a : t) : bool := truthy (Z.land (flags a) 0x200).
Definition yellowWire (a : t) : bool := truthy (Z.land (flags a) 0x400).

(** [Tile::setSeen] (lines 759-764). *)
Definition setSeen (seen : bool) (a : t) : t :=
  if seen then set_flags (Z.lor (flags a) 0x200) a
  else set_flags (Z.land (flags a) (Z.lnot 0x200)) a.

(** [Tile::load] runs on the handle and on the tile it is called on. *)
Definition St : Type := Handle * t.

Definition rd {A} (m : M Handle A) : M St A :=
  zoom fst (λ h s, (h, s.2)) m.
Definition assign (f : t → t) : M St unit :=
  modify (λ s, (s.1, f s.2)).
Definition this {A} (f : t → A) : M St A := gets (λ s, f s.2).

(** Lines 640-644: the second and third flag bytes. *)
Definition load_flags23 (flags1 : Z) : M St (Z * Z) :=
  if truthy (Z.land flags1 1) then
    flags2 ← rd r8;
    if truthy (Z.land flags2 1) then
      flags3 ← rd r8;
      mret (flags2, flags3)
    else mret (flags2, 0)
  else mret (0, 0).

(** Lines 645-661: the active flag, the type and its texture offsets. *)
Definition load_type (extra : list bool) (flags1 flags3 : Z) : M St unit :=
  let active := truthy (Z.land flags1 2) in
  assign (set_flags (if active then 1 else 0));;
  if active then
    ty ← rd r8;
    assign (set_type ty);;
    when (truthy (Z.land flags1 0x20))
      (hi ← rd r8; assign (λ a, set_type (Z.lor (type a) (Z.shiftl hi 8)) a));;
    ty ← this type;
    ex ← index Cextra extra ty;
    (if ex : bool then
       x ← rd r16; assign (set_u x);;
       x ← rd r16; assign (set_v x)
     else
       assign (set_v (-1));; assign (λ a, set_u (v a) a));;
    when (truthy (Z.land flags3 0x8)) (c ← rd r8; assign (set_color c))
  else assign (set_type 0).

(** Lines 662-669: the wall. *)
Definition load_wall (flags1 flags3 : Z) : M St unit :=
  if truthy (Z.land flags1 4) then
    w ← rd r8;
    assign (set_wall w);;
    when (truthy (Z.land flags3 0x10)) (c ← rd r8; assign (set_wallColor c));;
    assign (set_wallv (-1));; assign (λ a, set_wallu (wallv a) a)
  else assign (set_wall 0).

(** Lines 670-681: the liquid and its kind. *)
Definition load_liquid (flags1 flags3 : Z) : M St unit :=
  if truthy (Z.land flags1 0x18) then
    l ← rd r8;
    assign (set_liquid l);;
    when (Z.land flags1 0x18 =? 0x10) (assign (or_flags 2));;
    when (Z.land flags1 0x18 =? 0x18) (assign (or_flags 4));;
    when (truthy (Z.land flags3 0x80)) (assign (or_flags 0x800))
  else assign (set_liquid 0).

(** Lines 682-700: wires, slope, actuator and the high byte of the wall. *)
Definition load_wires (flags2 flags3 : Z) : M St unit :=
  when (truthy (Z.land flags2 2)) (assign (or_flags 8));;
  when (truthy (Z.land flags2 4)) (assign (or_flags 0x10));;
  when (truthy (Z.land flags2 8)) (assign (or_flags 0x20));;
  let slop := Z.land (Z.shiftr flags2 4) 7 in
  when (slop =? 1) (assign (or_flags 0x40));;
  assign (set_slope (if 1 <? slop then slop - 1 else 0));;
  when (truthy (Z.land flags3 2)) (assign (or_flags 0x80));;
  when (truthy (Z.land flags3 4)) (assign (or_flags 0x100));;
  when (truthy (Z.land flags3 32)) (assign (or_flags 0x400));;
  when (truthy (Z.land flags3 64))
    (hi ← rd r8; assign (λ a, set_wall (Z.lor (wall a) (Z.shiftl hi 8)) a)).

(** Lines 702-711: the run length. *)
Definition load_rle (flags1 : Z) : M St Z :=
  match Z.shiftr flags1 6 with
  | 1 => rd r8
  | 2 => rd r16
  | _ => mret 0
  end.

(** Lines 640-712: the record after its first flag byte. *)
Definition load_rest (extra : list bool) (flags1 : Z) : M St Z :=
  '(flags2, flags3) ← load_flags23 flags1;
  load_type extra flags1 flags3;;
  load_wall flags1 flags3;;
  load_liquid flags1 flags3;;
  load_wires flags2 flags3;;
  load_rle flags1.

(** [Tile::load] (lines 638-712); the format version is not used. *)
Definition load (extra : list bool) : M St Z :=
  flags1 ← rd r8;
  load_rest extra flags1.

End Tile.

(** ** The data model of [World] *)

Record Item : Type := mkItem {
  item_stack : Z; item_name : string; item_prefix : string }.

Record Chest : Type := mkChest {
  chest_x : Z; chest_y : Z; chest_name : string; chest_items : list Item }.

Record Sign : Type := mkSign { sign_x : Z; sign_y : Z; sign_text : string }.

Record NPC : Type := mkNPC {
  npc_title : string; npc_name : string; npc_x : Z; npc_y : Z;
  npc_homeless : bool; npc_sprite : Z; npc_head : Z;
  npc_homeX : Z; npc_homeY : Z; npc_townVariation : Z }.

Inductive Entity : Type :=
  | TrainingDummy (id x y npc : Z)
  | ItemFrame (id x y itemid prefix stack : Z)
  | LogicSensor (id x y type : Z) (on : bool).

(** Modelled from the spec: [WorldInfo] (worldinfo.h) is not among the
    sources. Section 6 of the specification describes it as a read-only
    registry: item and prefix names by id, NPC records by id and by name.
    The name lookups are total, as [info.items[id]] is in the source. *)
Record NPCInfo : Type := mkNPCInfo { ni_head : Z; ni_title : string; ni_id : Z }.

Record WorldInfo : Type := mkWorldInfo {
  items : Z → string;
  prefixes : Z → string;
  npcsById : gmap Z NPCInfo;
  npcsByName : gmap string NPCInfo }.

(** Modelled from the spec: [WorldHeader] (worldheader.h) is not among the
    sources. Section 4.3 of the specification lists the keys the decoder
    reads from it: [tilesWide], [tilesHigh], [groundLevel], [worldID], and
    the optional [guid], a list of 16 bytes ([has("guid")] is
    [is_Some (hdr_guid _)]). *)
Record Header : Type := mkHeader {
  hdr_tilesWide : Z; hdr_tilesHigh : Z; hdr_groundLevel : Z; hdr_worldID : Z;
  hdr_guid : option (list byte) }.

(** [g->at(i)->toInt()] *)
Definition guid_at (g : list byte) (i : nat) : Z := from_option b2z 0 (g !! i).

Record World : Type := mkWorld {
  filename : string; player : string; info : WorldInfo; header : Header;
  tilesWide : Z; tilesHigh : Z; tiles : list Tile.t;
  chests : list Chest; signs : list Sign; npcs : list NPC;
  entities : list Entity; kills : gmap string Z;
  seen : list string; chats : list string; shimmered : gmap Z bool }.

Definition set_filename (x : string) (w : World) : World :=
  mkWorld x (player w) (info w) (header w) (tilesWide w) (tilesHigh w)
    (tiles w) (chests w) (signs w) (npcs w) (entities w) (kills w) (seen w)
    (chats w) (shimmered w).
Definition set_player (x : string) (w : World) : World :=
  mkWorld (filename w) x (info w) (header w) (tilesWide w) (tilesHigh w)
    (tiles w) (chests w) (signs w) (npcs w) (entities w) (kills w) (seen w)
    (chats w) (shimmered w).
Definition set_header (x : Header) (w : World) : World :=
  mkWorld (filename w) (player w) (info w) x (tilesWide w) (tilesHigh w)
    (tiles w) (chests w) (signs w) (npcs w) (entities w) (kills w) (seen w)
    (chats w) (shimmered w).
Definition set_tilesWide (x : Z) (w : World) : World :=
  mkWorld (filename w) (player w) (info w) (header w) x (tilesHigh w)
    (tiles w) (chests w) (signs w) (npcs w) (entities w) (kills w) (seen w)
    (chats w) (shimmered w).
Definition set_tilesHigh (x : Z) (w : World) : World :=
  mkWorld (filename w) (player w) (info w) (header w) (tilesWide w) x
    (tiles w) (chests w) (signs w) (npcs w) (entities w) (kills w) (seen w)
    (chats w) (shimmered w).
Definition set_tiles (x : list Tile.t) (w : World) : World :=
  mkWorld (filename w) (player w) (info w) (header w) (tilesWide w)
    (tilesHigh w) x (chests w) (signs w) (npcs w) (entities w) (kills w)
    (seen w) (chats w) (shimmered w).
Definition set_chests (x : list Chest) (w : World) : World :=
  mkWorld (filename w) (player w) (info w) (header w) (tilesWide w)
    (tilesHigh w) (tiles w) x (signs w) (npcs w) (entities w) (kills w)
    (seen w) (chats w) (shimmered w).
Definition set_signs (x : list Sign) (w : World) : World :=
  mkWorld (filename w) (player w) (info w) (header w) (tilesWide w)
    (tilesHigh w) (tiles w) (chests w) x (npcs w) (entities w) (kills w)
    (seen w) (chats w) (shimmered w).
Definition set_npcs (x : list NPC) (w : World) : World :=
  mkWorld (filename w) (player w) (info w) (header w) (tilesWide w)
    (tilesHigh w) (tiles w) (chests w) (signs w) x (entities w) (kills w)
    (seen w) (chats w) (shimmered w).
Definition set_entities (x : list Entity) (w : World) : World :=
  mkWorld (filename w) (player w) (info w) (header w) (tilesWide w)
    (tilesHigh w) (tiles w) (chests w) (signs w) (npcs w) x (kills w)
    (seen w) (chats w) (shimmered w).
Definition set_kills (x : gmap string Z) (w : World) : World :=
  mkWorld (filename w) (player w) (info w) (header w) (tilesWide w)
    (tilesHigh w) (tiles w) (chests w) (signs w) (npcs w) (entities w) x
    (seen w) (chats w) (shimmered w).
Definition set_seen (x : list string) (w : World) : World :=
  mkWorld (filename w) (player w) (info w) (header w) (tilesWide w)
    (tilesHigh w) (tiles w) (chests w) (signs w) (npcs w) (entities w)
    (kills w) x (chats w) (shimmered w).
Definition set_chats (x : list string) (w : World) : World :=
  mkWorld (filename w) (player w) (info w) (header w) (tilesWide w)
    (tilesHigh w) (tiles w) (chests w) (signs w) (npcs w) (entities w)
    (kills w) (seen w) x (shimmered w).
Definition set_shimmered (x : gmap Z bool) (w : World) : World :=
  mkWorld (filename w) (player w) (info w) (header w) (tilesWide w)
    (tilesHigh w) (tiles w) (chests w) (signs w) (npcs w) (entities w)
    (kills w) (seen w) (chats w) x.

(** The signals of [World]. *)
Inductive Event : Type :=
  | status (msg : string)
  | loadError (msg : string)
  | loaded (ok : bool).

(** What [world.cpp] takes from outside itself: the constants of world.h,
    the operating system, zlib, and the declarations that are not among the
    sources. *)
Record Env : Type := mkEnv {
  (** world.h *)
  HighestVersion : Z;
  MinimumVersion : Z;
  (** [Tile]'s and [NPC]'s default constructors (world.h) *)
  Tile_new : Tile.t;
  NPC_new : NPC;
  (** [WorldHeader::load] *)
  header_load : Z → M Handle Header;
  (** whether a byte string is valid UTF-8 ([Handle::rs]) *)
  utf8_valid : list byte → bool;
  (** [inflateInit2(-15)] and the [inflate] loop of [loadPlayer2] *)
  inflate_raw : list byte → list byte;
  (** [QDir::exists] and the bytes a [Handle] opened on a path holds *)
  dir_exists : string → bool;
  file_bytes : string → list byte;
  (** [QDir::toNativeSeparators] *)
  toNativeSeparators : string → string;
  (** [static_cast<int>(x * 100.0f / tilesWide)], a [float] computation *)
  column_percent : Z → Z → Z }.

(** The state a decoder runs on: the handle it reads, the members of the
    [World] and the signals emitted so far. *)
Record St : Type := mkSt { cur : Handle; world : World; emitted : list Event }.

Definition set_cur (h : Handle) (s : St) : St := mkSt h (world s) (emitted s).
Definition set_world (w : World) (s : St) : St := mkSt (cur s) w (emitted s).

Definition rd {A} (m : M Handle A) : M St A := zoom cur set_cur m.
Definition emit (e : Event) : M St unit :=
  modify (λ s, mkSt (cur s) (world s) (emitted s ++ [e])).
Definition upd (f : World → World) : M St unit :=
  modify (λ s, set_world (f (world s)) s).
Definition the {A} (f : World → A) : M St A := gets (λ s, f (world s)).

(** A method that opens a [Handle] of its own: the handle of the caller is
    the current one again when the method is left. *)
Definition with_handle {A} (h : Handle) (m : M St A) : M St A :=
  λ s, let '(r, s') := m (set_cur h s) in (r, set_cur (cur s) s').

(** [tiles[offset]], read and written without a range check. *)
Definition tile_get (offset : Z) : M St Tile.t :=
  ts ← the tiles; index Ctiles ts offset.
Definition tile_put (offset : Z) (a : Tile.t) : M St unit :=
  tile_get offset;;
  upd (λ w, set_tiles (<[Z.to_nat offset := a]> (tiles w)) w).

(** [tiles[offset].m(handle, ...)]: a method of [Tile] run on the cell at
    [offset] and on the current handle. *)
Definition with_tile {A} (offset : Z) (a : Tile.t) (m : M Tile.St A) : M St A :=
  λ s, let '(r, (h, a')) := m (cur s, a) in
       (r, mkSt h (set_tiles (<[Z.to_nat offset := a']> (tiles (world s)))
                     (world s)) (emitted s)).
Definition at_tile {A} (offset : Z) (m : M Tile.St A) : M St A :=
  a ← tile_get offset; with_tile offset a m.

(** [tiles[offset].setSeen(b)] *)
Definition tile_setSeen (offset : Z) (b : bool) : M St unit :=
  a ← tile_get offset; tile_put offset (Tile.setSeen b a).

(** ** The decoders of [World] *)

Section World.

Variable env : Env.

(** Modelled from the spec: [Handle::rs] and [Handle::read] (section
    4.1). The length prefix has seven bits a byte, low group first, at
    most five bytes and a value below [2^31]; the text is kept as its
    UTF-8 bytes. *)
Fixpoint rs_length (fuel : nat) (shift acc : Z) : M Handle Z :=
  match fuel with
  | O => fail InvalidLength
  | S fuel' =>
      b ← r8;
      let acc := Z.lor acc (Z.shiftl (Z.land b 0x7F) shift) in
      if truthy (Z.land b 0x80) then rs_length fuel' (shift + 7) acc
      else mret acc
  end.

Definition rs : M Handle string :=
  n ← rs_length 5 0 0;
  if 2 ^ 31 <=? n then fail InvalidLength
  else
    bs ← readBytes (Z.to_nat n);
    if utf8_valid env bs then mret (String.string_of_list_byte bs)
    else fail InvalidUtf8.

Definition read (n : nat) : M Handle string :=
  bs ← readBytes n; mret (String.string_of_list_byte bs).

(** [World::loadHeader] (lines 134-141). The length of the array is the
    product of two [int]s, hence an [int]: [int_mul] is the product as 32
    bits hold it. *)
Definition loadHeader (version : Z) : M St unit :=
  hd ← rd (header_load env version);
  upd (set_header hd);;
  upd (set_tilesHigh (hdr_tilesHigh hd));;
  upd (set_tilesWide (hdr_tilesWide hd));;
  w ← the tilesWide;
  h ← the tilesHigh;
  let n := int_mul w h in
  if n <? 0 then fail BadArrayLength
  else upd (set_tiles (replicate (Z.to_nat n) (Tile_new env))).

(** Lines 152-154: the run copied below the decoded tile; the result is
    [destOffset] after the loop. *)
Fixpoint copy_run (k : nat) (offset destOffset : Z) : M St Z :=
  match k with
  | O => mret destOffset
  | S k' =>
      a ← tile_get offset;
      tile_put destOffset a;;
      w ← the tilesWide;
      copy_run k' offset (destOffset + w)
  end.

(** Lines 149-157: the inner loop over [y]. Every turn reads at least one
    byte, so [fuel] above the number of bytes is never used up. *)
Fixpoint loadTiles_column (fuel : nat) (extra : list bool) (y offset : Z)
  : M St unit :=
  match fuel with
  | O => fail OutOfFuel
  | S fuel' =>
      h ← the tilesHigh;
      if y <? h then
        rle ← at_tile offset (Tile.load extra);
        w ← the tilesWide;
        destOffset ← copy_run (Z.to_nat rle) offset (offset + w);
        loadTiles_column fuel' extra (y + rle + 1) destOffset
      else mret tt
  end.

Definition percent_message (what : string) (p : Z) : string :=
  what +:+ pretty p +:+ "%".

(** [World::loadTiles] (lines 143-159). *)
Definition loadTiles (extra : list bool) : M St unit :=
  w ← the tilesWide;
  for_range w (λ x,
    w ← the tilesWide;
    emit (status (percent_message "Reading tiles: " (column_percent env x w)));;
    fuel ← gets (λ s, S (length (bytes (cur s))));
    loadTiles_column fuel extra 0 x).

(** Lines 171-180: the item slots of one chest. *)
Fixpoint loadChest_items (inf : WorldInfo) (k : nat) (acc : list Item)
  : M Handle (list Item) :=
  match k with
  | O => mret acc
  | S k' =>
      stack ← r16;
      acc ← (if 0 <? stack then
               id ← r32;
               pfx ← r8;
               mret (acc ++ [mkItem stack (items inf id) (prefixes inf pfx)])
             else mret acc);
      loadChest_items inf k' acc
  end.

(** Lines 167-180: one chest. *)
Definition loadChest (inf : WorldInfo) (itemsPerChest : Z) : M Handle Chest :=
  x ← r32;
  y ← r32;
  name ← rs;
  its ← loadChest_items inf (Z.to_nat itemsPerChest) [];
  mret (mkChest x y name its).

(** Lines 167-181: one turn of the loop of [loadChests]. *)
Definition loadChests_turn (itemsPerChest : Z) : M St unit :=
  inf ← the info;
  chest ← rd (loadChest inf itemsPerChest);
  upd (λ w, set_chests (chests w ++ [chest]) w).

(** [World::loadChests] (lines 161-183). *)
Definition loadChests : M St unit :=
  upd (set_chests []);;
  emit (status "Loading Chests...");;
  numChests ← rd r16;
  itemsPerChest ← rd r16;
  for_range numChests (λ _, loadChests_turn itemsPerChest).

(** [World::loadSigns] (lines 185-196). *)
Definition loadSigns : M St unit :=
  upd (set_signs []);;
  emit (status "Loading Signs...");;
  numSigns ← rd r16;
  for_range numSigns (λ _,
    text ← rd rs;
    x ← rd r32;
    y ← rd r32;
    upd (λ w, set_signs (signs w ++ [mkSign x y text]) w)).

Definition npc_set_title (x : string) (n : NPC) : NPC :=
  mkNPC x (npc_name n) (npc_x n) (npc_y n) (npc_homeless n) (npc_sprite n)
    (npc_head n) (npc_homeX n) (npc_homeY n) (npc_townVariation n).
Definition npc_set_sprite (x : Z) (n : NPC) : NPC :=
  mkNPC (npc_title n) (npc_name n) (npc_x n) (npc_y n) (npc_homeless n) x
    (npc_head n) (npc_homeX n) (npc_homeY n) (npc_townVariation n).
Definition npc_set_head (x : Z) (n : NPC) : NPC :=
  mkNPC (npc_title n) (npc_name n) (npc_x n) (npc_y n) (npc_homeless n)
    (npc_sprite n) x (npc_homeX n) (npc_homeY n) (npc_townVariation n).

(** Lines 208-235: one homed NPC. *)
Definition loadNPC_homed (inf : WorldInfo) (version : Z) : M Handle NPC :=
  let npc := npc_set_sprite 0 (npc_set_head 0 (NPC_new env)) in
  npc ← (if 190 <=? version then
           sprite ← r32;
           let npc := npc_set_sprite sprite npc in
           mret (match npcsById inf !! sprite with
                 | Some theNPC =>
                     npc_set_title (ni_title theNPC)
                       (npc_set_head (ni_head theNPC) npc)
                 | None => npc
                 end)
         else
           title ← rs;
           let npc := npc_set_title title npc in
           mret (match npcsByName inf !! title with
                 | Some theNPC =>
                     npc_set_sprite (ni_id theNPC)
                       (npc_set_head (ni_head theNPC) npc)
                 | None => npc
                 end));
  name ← rs;
  x ← rf;
  y ← rf;
  homeless ← r8;
  homeX ← r32;
  homeY ← r32;
  variation ← (if 213 <=? version then
                 has ← r8;
                 if truthy has then r32 else mret (npc_townVariation npc)
               else mret (npc_townVariation npc));
  mret (mkNPC (npc_title npc) name x y (truthy homeless) (npc_sprite npc)
          (npc_head npc) homeX homeY variation).

(** Lines 239-257: one homeless NPC. *)
Definition loadNPC_homeless (inf : WorldInfo) (version : Z) : M Handle NPC :=
  let npc := NPC_new env in
  npc ← (if 190 <=? version then
           sprite ← r32;
           let npc := npc_set_sprite sprite npc in
           mret (match npcsById inf !! sprite with
                 | Some theNPC => npc_set_title (ni_title theNPC) npc
                 | None => npc
                 end)
         else
           title ← rs;
           let npc := npc_set_title title npc in
           mret (match npcsByName inf !! title with
                 | Some theNPC => npc_set_sprite (ni_id theNPC) npc
                 | None => npc
                 end));
  x ← rf;
  y ← rf;
  mret (mkNPC (npc_title npc) "" x y true (npc_sprite npc) (npc_head npc)
          (npc_homeX npc) (npc_homeY npc) (npc_townVariation npc)).

(** [while (handle->r8()) { ...; npcs.append(npc); }]: every turn reads a
    byte, so [fuel] above the number of bytes is never used up. *)
Fixpoint loadNPCs_while (fuel : nat) (one : M Handle NPC) : M St unit :=
  match fuel with
  | O => fail OutOfFuel
  | S fuel' =>
      more ← rd r8;
      if truthy more then
        npc ← rd one;
        upd (λ w, set_npcs (npcs w ++ [npc]) w);;
        loadNPCs_while fuel' one
      else mret tt
  end.

(** [World::loadNPCs] (lines 198-260). *)
Definition loadNPCs (version : Z) : M St unit :=
  upd (set_npcs []);;
  emit (status "Loading NPCs...");;
  when (268 <=? version)
    (num ← rd r32;
     for_range num (λ _,
       id ← rd r32;
       upd (λ w, set_shimmered (<[id := true]> (shimmered w)) w)));;
  inf ← the info;
  fuel ← gets (λ s, S (length (bytes (cur s))));
  loadNPCs_while fuel (loadNPC_homed inf version);;
  when (140 <=? version)
    (fuel ← gets (λ s, S (length (bytes (cur s))));
     loadNPCs_while fuel (loadNPC_homeless inf version)).

(** [World::loadDummies] (lines 262-270). *)
Definition loadDummies : M St unit :=
  numDummies ← rd r32;
  for_range numDummies (λ _, rd r16;; rd r16;; mret tt).

(** Lines 276-307: one entity record; a kind other than 0, 1 and 2 falls
    through the [switch], which has no [default]. *)
Definition loadEntity : M Handle (option Entity) :=
  type ← r8;
  match type with
  | 0 =>
      id ← r32; x ← r16; y ← r16; npc ← r16;
      mret (Some (TrainingDummy id x y npc))
  | 1 =>
      id ← r32; x ← r16; y ← r16; itemid ← r16; prefix ← r8; stack ← r16;
      mret (Some (ItemFrame id x y itemid prefix stack))
  | 2 =>
      id ← r32; x ← r16; y ← r16; type ← r8; on ← r8;
      mret (Some (LogicSensor id x y type (truthy on)))
  | _ => mret None
  end.

(** Lines 276-307: one turn of the loop of [loadEntities]. *)
Definition loadEntities_turn : M St unit :=
  e ← rd loadEntity;
  match e with
  | Some e => upd (λ w, set_entities (entities w ++ [e]) w)
  | None => mret tt
  end.

(** [World::loadEntities] (lines 272-309). *)
Definition loadEntities : M St unit :=
  upd (set_entities []);;
  numEntities ← rd r32;
  for_range numEntities (λ _, loadEntities_turn).

(** [World::loadPressurePlates] (lines 311-317). *)
Definition loadPressurePlates : M St unit :=
  numPlates ← rd r32;
  for_range numPlates (λ _, rd r32;; rd r32;; mret tt).

(** [World::loadTownManager] (lines 319-328). *)
Definition loadTownManager : M St unit :=
  numRooms ← rd r32;
  for_range numRooms (λ _, rd r32;; rd r32;; rd r32;; mret tt).

(** [World::loadBestiary] (lines 330-344). *)
Definition loadBestiary : M St unit :=
  numKills ← rd r32;
  for_range numKills (λ _,
    npc ← rd rs;
    n ← rd r32;
    upd (λ w, set_kills (<[npc := n]> (kills w)) w));;
  numSights ← rd r32;
  for_range numSights (λ _,
    s ← rd rs; upd (λ w, set_seen (seen w ++ [s]) w));;
  numChat ← rd r32;
  for_range numChat (λ _,
    s ← rd rs; upd (λ w, set_chats (chats w ++ [s]) w)).

(** [World::loadCreativePowers] (lines 346-349). *)
Definition loadCreativePowers : M St unit := mret tt.

(** *** The player map *)

(** [QString::lastIndexOf(c)]: the index of the last [c], or -1. *)
Fixpoint lastIndexOf_from (c : Ascii.ascii) (s : string) (i found : Z) : Z :=
  match s with
  | EmptyString => found
  | String a s' =>
      lastIndexOf_from c s' (i + 1) (if Ascii.eqb a c then i else found)
  end.
Definition lastIndexOf (c : Ascii.ascii) (s : string) : Z :=
  lastIndexOf_from c s 0 (-1).

(** [QString::left(n)]: the whole string when [n] is negative or not
    below its size. *)
Definition left (n : Z) (s : string) : string :=
  if (n <? 0) || (Z.of_nat (String.length s) <=? n) then s
  else String.substring 0 (Z.to_nat n) s.

Definition hex_digit (d : Z) : Ascii.ascii :=
  if d <? 10 then Ascii.ascii_of_N (Z.to_N (48 + d))
  else Ascii.ascii_of_N (Z.to_N (87 + d)).

(** [.arg(v, width, 16, QChar('0'))] for a [v] below [16 ^ width]. *)
Fixpoint hex (width : nat) (v : Z) : string :=
  match width with
  | O => ""
  | S width' => hex width' (v / 16) +:+ String (hex_digit (v mod 16)) ""
  end.

(** Lines 422-447: the file name made of the GUID. *)
Definition guid_map_name (g : list byte) : string :=
  let u1 := Z.lor (Z.lor (Z.lor (guid_at g 0) (Z.shiftl (guid_at g 1) 8))
                     (Z.shiftl (guid_at g 2) 16))
              (Z.shiftl (guid_at g 3) 24) mod 2 ^ 32 in
  let u2 := Z.lor (guid_at g 4) (Z.shiftl (guid_at g 5) 8) mod 2 ^ 16 in
  let u3 := Z.lor (guid_at g 6) (Z.shiftl (guid_at g 7) 8) mod 2 ^ 16 in
  let u4 := Z.lor (Z.shiftl (guid_at g 8) 8) (guid_at g 9) mod 2 ^ 16 in
  let u5 := Z.lor (Z.shiftl (guid_at g 10) 8) (guid_at g 11) mod 2 ^ 16 in
  let u6 := Z.lor (Z.lor (Z.lor (Z.shiftl (guid_at g 12) 24)
                            (Z.shiftl (guid_at g 13) 16))
                     (Z.shiftl (guid_at g 14) 8))
              (guid_at g 15) mod 2 ^ 32 in
  "/" +:+ hex 8 u1 +:+ "-" +:+ hex 4 u2 +:+ "-" +:+ hex 4 u3 +:+ "-"
      +:+ hex 4 u4 +:+ "-" +:+ hex 4 u5 +:+ hex 8 u6 +:+ ".map".

(** Lines 419-454: the path of the companion map. *)
Definition player_dir (w : World) : string :=
  left (lastIndexOf "."%char (player w)) (player w).
Definition guid_map_path (w : World) (g : list byte) : string :=
  player_dir w +:+ toNativeSeparators env (guid_map_name g).
Definition worldID_map_path (w : World) : string :=
  player_dir w +:+
    toNativeSeparators env ("/" +:+ pretty (hdr_worldID (header w)) +:+ ".map").
Definition map_path (w : World) : string :=
  let path := match hdr_guid (header w) with
              | Some g => guid_map_path w g
              | None => player_dir w
              end in
  if negb (bool_decide (is_Some (hdr_guid (header w))))
     || negb (dir_exists env path)
  then worldID_map_path w
  else path.

(** Lines 457-462: every tile of the grid is marked seen. *)
Definition mark_all_seen : M St unit :=
  h ← the tilesHigh;
  for_fold (Z.to_nat h) 0 0 (λ _ offset,
    w ← the tilesWide;
    for_fold (Z.to_nat w) 0 offset (λ _ offset,
      tile_setSeen offset true;; mret (offset + 1)));;
  mret tt.

(** [while (rle-- > 0) { y++; offset += tilesWide;
    tiles[offset].setSeen(b); }] of [loadPlayer1]. *)
Fixpoint seen_run1 (k : nat) (b : bool) (y offset : Z) : M St (Z * Z) :=
  match k with
  | O => mret (y, offset)
  | S k' =>
      w ← the tilesWide;
      tile_setSeen (offset + w) b;;
      seen_run1 k' b (y + 1) (offset + w)
  end.

(** Lines 481-503: the inner loop of [loadPlayer1]. *)
Fixpoint loadPlayer1_column (fuel : nat) (version y offset : Z) : M St unit :=
  match fuel with
  | O => fail OutOfFuel
  | S fuel' =>
      h ← the tilesHigh;
      if y <? h then
        present ← rd r8;
        '(y, offset) ←
          (if truthy present then
             (if version <=? 77 then rd r8 else rd r16);;
             rd r8;;
             rd r8;;
             when (50 <=? version) (rd r8;; mret tt);;
             tile_setSeen offset true;;
             rle ← rd r16;
             seen_run1 (Z.to_nat rle) true y offset
           else
             rle ← rd r16;
             seen_run1 (Z.to_nat rle) false y offset);
        w ← the tilesWide;
        loadPlayer1_column fuel' version (y + 1) (offset + w)
      else mret tt
  end.

(** [World::loadPlayer1] (lines 474-505). *)
Definition loadPlayer1 (version : Z) : M St unit :=
  rd rs;;
  rd r32;;
  rd r32;;
  rd r32;;
  w ← the tilesWide;
  for_range w (λ x,
    fuel ← gets (λ s, S (length (bytes (cur s))));
    loadPlayer1_column fuel version 0 x).

(** [while (rle-- > 0) { x++; (handle->r8();) tiles[++offset].setSeen(b); }]
    of [loadPlayer2]; [light] tells whether a light byte is read. *)
Fixpoint seen_run2 (k : nat) (b light : bool) (x offset : Z) : M St (Z * Z) :=
  match k with
  | O => mret (x, offset)
  | S k' =>
      when light (rd r8;; mret tt);;
      tile_setSeen (offset + 1) b;;
      seen_run2 k' b light (x + 1) (offset + 1)
  end.

(** Lines 594-633: the inner loop of [loadPlayer2]; the result is
    [offset] after the row. *)
Fixpoint loadPlayer2_row (fuel : nat) (x offset : Z) : M St Z :=
  match fuel with
  | O => fail OutOfFuel
  | S fuel' =>
      w ← the tilesWide;
      if x <? w then
        flags ← rd r8;
        when (truthy (Z.land flags 1)) (rd r8;; mret tt);;
        let tile := Z.land (Z.shiftr flags 1) 7 in
        when ((tile =? 1) || (tile =? 2) || (tile =? 7))
          (if truthy (Z.land flags 16) then rd r16;; mret tt
           else rd r8;; mret tt);;
        light ← (if truthy (Z.land flags 32) then rd r8 else mret 255);
        rle ← match Z.land (Z.shiftr flags 6) 3 with
              | 1 => rd r8
              | 2 => rd r16
              | _ => mret 0
              end;
        '(x, offset) ←
          (if truthy tile then
             tile_setSeen offset true;;
             if light =? 255 then seen_run2 (Z.to_nat rle) true false x offset
             else seen_run2 (Z.to_nat rle) true true x offset
           else
             tile_setSeen offset false;;
             seen_run2 (Z.to_nat rle) false false x offset);
        loadPlayer2_row fuel' (x + 1) (offset + 1)
      else mret offset
  end.

(** Lines 522-634 of [loadPlayer2]: what follows the magic. *)
Definition loadPlayer2_body (version : Z) : M St unit :=
  rd rs;;
  rd r32;;
  rd r32;;
  rd r32;;
  numTiles ← rd r16;
  numWalls ← rd r16;
  rd r16;;
  rd r16;;
  rd r16;;
  rd r16;;
  tilePresent ← rd (readBits numTiles);
  wallPresent ← rd (readBits numWalls);
  for_range numTiles (λ i,
    p ← index CtilePresent tilePresent i;
    when (p : bool) (rd r8;; mret tt));;
  for_range numWalls (λ i,
    p ← index CwallPresent wallPresent i;
    when (p : bool) (rd r8;; mret tt));;
  when (93 <=? version)
    (len ← rd (gets Handle_length);
     at_ ← rd tell;
     input ← rd (readBytes (Z.to_nat (len - at_)));
     modify (set_cur (mkHandle (inflate_raw env input) 0)));;
  h ← the tilesHigh;
  for_fold (Z.to_nat h) 0 0 (λ _ offset,
    fuel ← gets (λ s, S (length (bytes (cur s))));
    loadPlayer2_row fuel 0 offset);;
  mret tt.

(** [World::loadPlayer2] (lines 507-635). *)
Definition loadPlayer2 (version : Z) : M St unit :=
  if 135 <=? version then
    magic ← rd (read 7);
    if negb (String.eqb magic "relogic") then
      emit (loadError "Not a relogic map file")
    else
      type ← rd r8;
      if negb (type =? 1) then emit (loadError "Not a player map file")
      else
        rd (skip (4 + 8));;
        loadPlayer2_body version
  else loadPlayer2_body version.

(** [World::loadPlayer] (lines 416-472). *)
Definition loadPlayer : M St unit :=
  w ← gets world;
  let path := map_path w in
  if negb (dir_exists env path) then mark_all_seen
  else
    with_handle (mkHandle (file_bytes env path) 0)
      (version ← rd r32;
       if version <=? 91 then loadPlayer1 version else loadPlayer2 version).

(** [World::setFilename] and [World::setPlayer] (lines 39-47). *)
Definition setFilename (name : string) : M St unit :=
  upd (set_filename name).
Definition setPlayer (name : string) : M St unit :=
  upd (set_player name);;
  fn ← the filename;
  when (negb (String.eqb fn "")) loadPlayer.

(** *** [World::run] *)

(** Lines 75-131 of [run]: the section table, the extra-data bitmap and
    the sections. *)
Definition run_sections (version : Z) : M St unit :=
  numSections ← rd r16;
  sections ← rd (for_fold (Z.to_nat numSections) 0 []
                   (λ _ sections, o ← r32; mret (sections ++ [o])));
  numTiles ← rd r16;
  extra ← rd (readBits numTiles);
  let seek_section (i : Z) : M St unit :=
    o ← index Csections sections i; rd (seek o) in
  seek_section 0;;
  loadHeader version;;
  seek_section 1;;
  loadTiles extra;;
  seek_section 2;;
  loadChests;;
  seek_section 3;;
  loadSigns;;
  seek_section 4;;
  loadNPCs version;;
  seek_section 5;;
  when (116 <=? version)
    (if version <? 122 then loadDummies else loadEntities);;
  when (170 <=? version) (seek_section 6;; loadPressurePlates);;
  when (189 <=? version) (seek_section 7;; loadTownManager);;
  when (210 <=? version) (seek_section 8;; loadBestiary);;
  when (220 <=? version) (seek_section 9;; loadCreativePowers);;
  pl ← the player;
  when (negb (String.eqb pl "")) loadPlayer;;
  emit (loaded true).

(** [World::run] (lines 49-132). *)
Definition run : M St unit :=
  fn ← the filename;
  modify (set_cur (mkHandle (file_bytes env fn) 0));;
  version ← rd r32;
  if HighestVersion env <? version then
    emit (loadError ("Unsupported map version: " +:+ pretty version))
  else if version <? MinimumVersion env then
    emit (loadError "We no longer support maps this old")
  else if 135 <=? version then
    magic ← rd (read 7);
    if negb (String.eqb magic "relogic") then
      emit (loadError "Not a relogic map file")
    else
      type ← rd r8;
      if negb (type =? 2) then emit (loadError "Not a map file")
      else
        rd (skip (4 + 8));;
        run_sections version
  else run_sections version.

End World.

(** ** Definitions used to state the properties *)

(** The value of the byte at position [p] of a byte string (0 outside). *)
Definition byte_at (d : list byte) (p : Z) : Z :=
  if 0 <=? p then from_option b2z 0 (d !! Z.to_nat p) else 0.

(** The bit that turn [i] of the loop of [readBits] appends when the loop is
    entered with mask [2 ^ m] on the byte [b] and the cursor at [p]. *)
Definition bit_from (d : list byte) (m b p : Z) (i : nat) : bool :=
  if Z.of_nat i + m + 1 <? 8 then Z.testbit b (m + 1 + Z.of_nat i)
  else Z.testbit (byte_at d (p + (Z.of_nat i + m + 1 - 8) / 8))
                 ((Z.of_nat i + m + 1) mod 8).

(** Bit [i] of a bitmap laid out from position [p] on, least significant
    bit of each byte first: what the walking mask of [readBits] selects. *)
Definition lsb_first_bit (d : list byte) (p : Z) (i : nat) : bool :=
  Z.testbit (byte_at d (p + Z.of_nat i / 8)) (Z.of_nat i mod 8).

(** The same bit with the most significant bit of each byte first (the
    first bit of a byte under mask 0x80), as the specification words it. *)
Definition msb_first_bit (d : list byte) (p : Z) (i : nat) : bool :=
  Z.testbit (byte_at d (p + Z.of_nat i / 8)) (7 - Z.of_nat i mod 8).

(** The bytes of [d] from position [p] up to position [q]. *)
Definition segment (d : list byte) (p q : Z) : list byte :=
  take (Z.to_nat (q - p)) (drop (Z.to_nat p) d).

(** *** The item slots of a chest, as the file lays them out *)

(** A slot: its stack and, when the stack is positive, the item id and the
    prefix id that follow it. *)
Record Slot : Type := mkSlot { slot_stack : Z; slot_item : Z; slot_prefix : Z }.

Definition z2b (v : Z) : byte :=
  default Byte.x00 (Byte.of_N (Z.to_N (v mod 256))).

(** The [n] little-endian bytes of [v] (two's complement when negative). *)
Fixpoint le_bytes (n : nat) (v : Z) : list byte :=
  match n with
  | O => []
  | S n' => z2b v :: le_bytes n' (v / 256)
  end.

(** The bytes of a slot: an [i16] stack, followed by an [i32] item id and
    a [u8] prefix id only when the stack is positive. *)
Definition slot_bytes (s : Slot) : list byte :=
  le_bytes 2 (slot_stack s) ++
  (if 0 <? slot_stack s
   then le_bytes 4 (slot_item s) ++ le_bytes 1 (slot_prefix s)
   else []).

Definition slot_ok (s : Slot) : Prop :=
  - 2 ^ 15 ≤ slot_stack s < 2 ^ 15 ∧
  - 2 ^ 31 ≤ slot_item s < 2 ^ 31 ∧
  0 ≤ slot_prefix s < 256.

(** The items of the slots whose stack is positive, in slot order, named
    through the registry. *)
Definition slot_items (inf : WorldInfo) (slots : list Slot) : list Item :=
  (λ s, mkItem (slot_stack s) (items inf (slot_item s))
               (prefixes inf (slot_prefix s)))
    <$> filter (λ s, 0 < slot_stack s) slots.

(** A relation between the state before and the state after a
    computation, whatever its result. *)
Definition preserves {S A} (R : S → S → Prop) (m : M S A) : Prop :=
  ∀ s r s', m s = (r, s') → R s s'.

(** A relation on tiles, read on the states of [Tile::load]. *)
Definition on_tile (Rt : Tile.t → Tile.t → Prop) : Tile.St → Tile.St → Prop :=
  λ s s', Rt s.2 s'.2.

(** What the steps of [Tile::load] keep of the tile: the flags under a
    mask and, where asked, the type and the liquid. *)
Definition keeps (mask : Z) (ty lq : bool) (a b : Tile.t) : Prop :=
  Z.land (Tile.flags b) mask = Z.land (Tile.flags a) mask ∧
  (ty = true → Tile.type b = Tile.type a) ∧
  (lq = true → Tile.liquid b = Tile.liquid a).

(** Reading keeps the bytes of the handle and moves its cursor forward,
    not past the end when it was not past it. *)
Definition advances (h h' : Handle) : Prop :=
  bytes h' = bytes h ∧ pos h ≤ pos h' ∧
  (pos h ≤ Handle_length h → pos h' ≤ Handle_length h).

(** The chests [cs] as the file lays them out from position [p] of the
    bytes [d] up to position [q], every chest with [n] slots: the two
    coordinates, the name, then the slots, of which those with a positive
    stack are the items of the chest, in slot order; the next chest starts
    where the slots end. *)
Fixpoint chests_at (env : Env) (inf : WorldInfo) (d : list byte) (n : nat)
    (p : Z) (cs : list Chest) (q : Z) : Prop :=
  match cs with
  | [] => q = p
  | c :: cs' =>
      ∃ slots p1 p2,
        r32 (mkHandle d p) = (Ok (chest_x c), mkHandle d (p + 4)) ∧
        r32 (mkHandle d (p + 4)) = (Ok (chest_y c), mkHandle d (p + 8)) ∧
        rs env (mkHandle d (p + 8)) = (Ok (chest_name c), mkHandle d p1) ∧
        length slots = n ∧ Forall slot_ok slots ∧
        p1 ≤ p2 ≤ Z.of_nat (length d) ∧
        segment d p1 p2 = slots ≫= slot_bytes ∧
        chest_items c = slot_items inf slots ∧
        chests_at env inf d n p2 cs' q
  end.

(** *** A small environment to run the decoders on *)

Definition blank_tile : Tile.t := Tile.mk 0 0 (-1) (-1) (-1) (-1) 0 0 0 0 0.
Definition blank_npc : NPC := mkNPC "" "" 0 0 false 0 0 0 0 0.

Definition example_info : WorldInfo :=
  mkWorldInfo (λ id, "item " +:+ pretty id) (λ id, "prefix " +:+ pretty id) ∅ ∅.

(** A header of two fields, the width and the height of the grid. *)
Definition example_header_load (version : Z) : M Handle Header :=
  wide ← r32; high ← r32; mret (mkHeader wide high 0 42 None).

(** Two files: a map of version 1000 and a map of version 5. *)
Definition example_files (name : string) : list byte :=
  if String.eqb name "new.wld" then [Byte.xe8; Byte.x03; Byte.x00; Byte.x00; Byte.x07]
  else if String.eqb name "old.wld" then [Byte.x05; Byte.x00; Byte.x00; Byte.x00; Byte.x07]
  else [].

Definition example_env : Env :=
  mkEnv 279 88 blank_tile blank_npc example_header_load (λ _, true) (λ bs, bs)
    (λ _, false) example_files (λ path, path) (λ x w, x * 100 / w).

Definition example_world (name : string) (wide high : Z) (ts : list Tile.t)
  : World :=
  mkWorld name "player.plr" example_info (mkHeader wide high 0 42 None)
    wide high ts [] [] [] [] ∅ [] [] ∅.

Definition example_state (name : string) (wide high : Z) (ts : list Tile.t)
    (d : list byte) : St :=
  mkSt (mkHandle d 0) (example_world name wide high ts) [].

(** Two states of which the second differs from the first, besides the
    handle and the signals, in the seen flag of tiles at most. *)
Definition seen_only (s s' : St) : Prop :=
  world s' = set_tiles (tiles (world s')) (world s) ∧
  Tile.setSeen false <$> tiles (world s')
  = Tile.setSeen false <$> tiles (world s).

(** Two tiles alike in every field, and in every bit of the flags but
    bit 9, the seen flag 0x200. *)
Definition alike_but_seen (a b : Tile.t) : Prop :=
  Tile.type b = Tile.type a ∧ Tile.wall b = Tile.wall a ∧
  Tile.u b = Tile.u a ∧ Tile.v b = Tile.v a ∧
  Tile.wallu b = Tile.wallu a ∧ Tile.wallv b = Tile.wallv a ∧
  Tile.color b = Tile.color a ∧ Tile.wallColor b = Tile.wallColor a ∧
  Tile.liquid b = Tile.liquid a ∧ Tile.slope b = Tile.slope a ∧
  ∀ i, i ≠ 9 → Z.testbit (Tile.flags b) i = Z.testbit (Tile.flags a) i.

(** The state whose grid is [ts] with its first [n] cells marked seen. *)
Definition marked (ts : list Tile.t) (n : nat) (s : St) : St :=
  set_world (set_tiles ((Tile.setSeen true <$> take n ts) ++ drop n ts)
               (world s)) s.

(** *** The tiles section with the guard the specification asks for *)

(** The inner loop of [loadTiles] with [CorruptTileStream] raised when the
    run decoded at row [y] leaves the column: [y + rle] at or beyond
    [tilesHigh], or a negative [rle], which an [i16] can hold and which
    would take [y] back while the offset goes on. Nothing else differs from
    [loadTiles_column]. *)
Fixpoint loadTiles_column_guarded (fuel : nat) (extra : list bool)
    (y offset : Z) : M St unit :=
  match fuel with
  | O => fail OutOfFuel
  | S fuel' =>
      h ← the tilesHigh;
      if y <? h then
        rle ← at_tile offset (Tile.load extra);
        if (rle <? 0) || (h <=? y + rle) then fail CorruptTileStream
        else
          w ← the tilesWide;
          destOffset ← copy_run (Z.to_nat rle) offset (offset + w);
          loadTiles_column_guarded fuel' extra (y + rle + 1) destOffset
      else mret tt
  end.

Definition loadTiles_guarded (env : Env) (extra : list bool) : M St unit :=
  w ← the tilesWide;
  for_range w (λ x,
    w ← the tilesWide;
    emit (status (percent_message "Reading tiles: " (column_percent env x w)));;
    fuel ← gets (λ s, S (length (bytes (cur s))));
    loadTiles_column_guarded fuel extra 0 x).

(** The grid of a loaded world ([loadHeader]): [tilesWide * tilesHigh]
    tiles, both sizes not negative. *)
Definition grid_wf (w : World) : Prop :=
  0 ≤ tilesWide w ∧ 0 ≤ tilesHigh w ∧
  length (tiles w) = Z.to_nat (tilesWide w * tilesHigh w).

(** A step that keeps the sizes of the grid. *)
Definition grid_kept (s s' : St) : Prop :=
  tilesWide (world s') = tilesWide (world s) ∧
  tilesHigh (world s') = tilesHigh (world s) ∧
  length (tiles (world s')) = length (tiles (world s)).

(** The failures a computation can end with. *)
Definition fails_with {S A} (P : Err → Prop) (m : M S A) : Prop :=
  ∀ s e s', m s = (Fail e, s') → P e.

(** The failures of [Tile::load]: a read past the end, or [extra[type]]
    outside the bitmap. *)
Definition tile_error (e : Err) : Prop :=
  e = UnexpectedEof ∨ ∃ i, e = IndexOutOfRange Cextra i.

(** A result that is no access to [tiles] outside the grid. *)
Definition in_grid {A} (r : Res A) : Prop :=
  ∀ offset, r ≠ Fail (IndexOutOfRange Ctiles offset).

(** The bytes left to read. *)
Definition remaining (h : Handle) : Z :=
  if (0 <=? pos h) && (pos h <=? Handle_length h)
  then Handle_length h - pos h else 0.

(** A relation on handles, read on the states of [Tile::load]. *)
Definition on_handle (Rh : Handle → Handle → Prop) : Tile.St → Tile.St → Prop :=
  λ s s', Rh s.1 s'.1.

(** The guarded decoder and the decoder of the source end alike, unless
    the guard fires. *)
Definition agrees {S A} (guarded source : M S A) : Prop :=
  ∀ s, guarded s = source s ∨ ∃ s', guarded s = (Fail CorruptTileStream, s').

(** The bytes of a chests section: one chest at (10, 20) named "hi" with
    three slots, the middle one empty. *)
Definition example_chests : list byte :=
  [Byte.x01; Byte.x00; Byte.x03; Byte.x00;
   Byte.x0a; Byte.x00; Byte.x00; Byte.x00;
   Byte.x14; Byte.x00; Byte.x00; Byte.x00;
   Byte.x02; Byte.x68; Byte.x69;
   Byte.x02; Byte.x00; Byte.x05; Byte.x00; Byte.x00; Byte.x00; Byte.x01;
   Byte.x00; Byte.x00;
   Byte.x01; Byte.x00; Byte.x07; Byte.x00; Byte.x00; Byte.x00; Byte.x00].

(** A tile record: active, type 5 with texture offsets (16, 32), lava of
    amount 128, no run. *)
Definition example_record : list byte :=
  [Byte.x12; Byte.x05; Byte.x10; Byte.x00; Byte.x20; Byte.x00; Byte.x80].

(** A step of a decoder that reads on: its handle [advances]. *)
Definition cur_advances (s s' : St) : Prop := advances (cur s) (cur s').

(** The failures of the code: every failure but [OutOfFuel], which only a
    loop of the model that ran out of its bound ends with. *)
Definition of_the_code (e : Err) : Prop := e ≠ OutOfFuel.

(** ** Definitions used to state the further properties *)

(** Two tiles with the same value of a field. *)
Definition same_on {A} (f : Tile.t → A) (a b : Tile.t) : Prop := f b = f a.

(** A handle read on by at most [n] bytes. *)
Definition advances_by (n : Z) (h h' : Handle) : Prop :=
  bytes h' = bytes h ∧ pos h ≤ pos h' ≤ pos h + n.

(** A step of [Tile::load] that reads at most [n] bytes, however it ends. *)
Definition reads_at_most {A} (n : Z) (m : M Tile.St A) : Prop :=
  ∀ s r s', m s = (r, s') → advances_by n s.1 s'.1.

(** A tile record of the greatest length, sixteen bytes: three flag
    bytes, a two-byte type 0x0105 with texture offsets, both colours, a
    two-byte wall, honey and a two-byte run of 3. *)
Definition longest_record : list byte :=
  [Byte.xbf; Byte.x01; Byte.x58; Byte.x05; Byte.x01;
   Byte.x10; Byte.x00; Byte.x20; Byte.x00; Byte.x07;
   Byte.x02; Byte.x09; Byte.x40; Byte.x01; Byte.x03; Byte.x00].

(** The failures of [Tile::load] on the bitmap [extra]: a read past the
    end, or a type that the bitmap does not cover. *)
Definition extra_error (extra : list bool) (e : Err) : Prop :=
  e = UnexpectedEof ∨
  ∃ ty, e = IndexOutOfRange Cextra ty ∧ 0 ≤ ty < 65536 ∧
        (length extra ≤ Z.to_nat ty)%nat.

(** The second and the third flag byte of the tile record at position [p]:
    each is in the file only when bit 0 of the flag byte before it is set,
    and counts as 0 otherwise. *)
Definition record_flags2 (d : list byte) (p : Z) : Z :=
  if truthy (Z.land (byte_at d p) 1) then byte_at d (p + 1) else 0.
Definition record_flags3 (d : list byte) (p : Z) : Z :=
  if truthy (Z.land (record_flags2 d p) 1) then byte_at d (p + 2) else 0.

(** [bit] when [c] holds, no bit otherwise. *)
Definition bit_if (c : bool) (bit : Z) : Z := if c then bit else 0.

(** Whether the character [c] is nowhere in [s]. *)
Fixpoint no_char (c : Ascii.ascii) (s : string) : bool :=
  match s with
  | EmptyString => true
  | String a s' => negb (Ascii.eqb a c) && no_char c s'
  end.

(** The cells the tiles decoder has passed when it stands at row [y] of
    column [x] (the columns before [x] and the rows of column [x] before
    [y]) all hold a tile on which [P] holds. *)
Definition decoded_upto (P : Tile.t → Prop) (x y : Z) (w : World) : Prop :=
  ∀ i j, 0 ≤ i < tilesWide w → 0 ≤ j < tilesHigh w →
         i < x ∨ (i = x ∧ j < y) →
         ∃ a, tiles w !! Z.to_nat (j * tilesWide w + i) = Some a ∧ P a.

(** A relation between the state before and the state after a step that
    looks at the world and at the signals alone, not at the handle. *)
Definition on_world (Rw : World → World → Prop)
    (Re : list Event → list Event → Prop) (s s' : St) : Prop :=
  Rw (world s) (world s') ∧ Re (emitted s) (emitted s').

(** The world is as it was but for the members [f] erases. *)
Definition unchanged_but (f : World → World) (w w' : World) : Prop := f w' = f w.

(** Signals were appended, every one of them with [P]. *)
Definition appended (P : Event → Prop) (l l' : list Event) : Prop :=
  ∃ evs, l' = l ++ evs ∧ Forall P evs.

(** No constraint. *)
Definition any {A} (a b : A) : Prop := True.

Definition is_status (e : Event) : Prop := ∃ msg, e = status msg.
Definition not_loaded (e : Event) : Prop := ∀ ok, e ≠ loaded ok.

(** A computation that, when it ends well, has emitted [loaded(true)] as
    its last signal and no other [loaded], and that emits no [loaded] at all
    when it fails. *)
Definition ends_loaded (m : M St unit) : Prop :=
  ∀ s r s', m s = (r, s') →
    (∃ e, r = Fail e ∧ appended not_loaded (emitted s) (emitted s')) ∨
    (r = Ok tt ∧
     ∃ evs, emitted s' = emitted s ++ evs ++ [loaded true] ∧
            Forall not_loaded evs).

(** The number of entries of the section table that [run] looks up for a
    format version. *)
Definition sections_needed (version : Z) : Z :=
  if 220 <=? version then 10
  else if 210 <=? version then 9
  else if 189 <=? version then 8
  else if 170 <=? version then 7
  else 6.

(** A tile record of three flag bytes: a red and a green wire, slope 1, a
    yellow wire, and the inactive flag. *)
Definition wired_record : list byte := [Byte.x01; Byte.x2b; Byte.x24].

(** A world file of version 100: a table of six sections, an empty
    extra-data bitmap, a header of a grid of 1 x 1, one tile record, no
    chest, no sign and no NPC. *)
Definition tiny_world : list byte :=
  [Byte.x64; Byte.x00; Byte.x00; Byte.x00;
   Byte.x06; Byte.x00;
   Byte.x20; Byte.x00; Byte.x00; Byte.x00;
   Byte.x28; Byte.x00; Byte.x00; Byte.x00;
   Byte.x29; Byte.x00; Byte.x00; Byte.x00;
   Byte.x2d; Byte.x00; Byte.x00; Byte.x00;
   Byte.x2f; Byte.x00; Byte.x00; Byte.x00;
   Byte.x30; Byte.x00; Byte.x00; Byte.x00;
   Byte.x00; Byte.x00;
   Byte.x01; Byte.x00; Byte.x00; Byte.x00; Byte.x01; Byte.x00; Byte.x00; Byte.x00;
   Byte.x00;
   Byte.x00; Byte.x00; Byte.x00; Byte.x00;
   Byte.x00; Byte.x00;
   Byte.x00].

(** More files: the tiny world; a file of version 200 whose magic is
    "relogix"; a file of version 200 with the magic of a map and the type
    of a player map; and, as the map of the player, a file of version 200
    whose magic is "relogix". *)
Definition example_files2 (name : string) : list byte :=
  if String.eqb name "tiny.wld" then tiny_world
  else if String.eqb name "magic.wld" then
    [Byte.xc8; Byte.x00; Byte.x00; Byte.x00;
     Byte.x72; Byte.x65; Byte.x6c; Byte.x6f; Byte.x67; Byte.x69; Byte.x78]
  else if String.eqb name "type.wld" then
    [Byte.xc8; Byte.x00; Byte.x00; Byte.x00;
     Byte.x72; Byte.x65; Byte.x6c; Byte.x6f; Byte.x67; Byte.x69; Byte.x63;
     Byte.x01]
  else if String.eqb name "player/42.map" then
    [Byte.xc8; Byte.x00; Byte.x00; Byte.x00;
     Byte.x72; Byte.x65; Byte.x6c; Byte.x6f; Byte.x67; Byte.x69; Byte.x78]
  else [].

(** The environment of these files, in which the map of the player
    exists. *)
Definition example_env2 : Env :=
  mkEnv 279 88 blank_tile blank_npc example_header_load (λ _, true) (λ bs, bs)
    (λ path, String.eqb path "player/42.map") example_files2 (λ path, path)
    (λ x w, x * 100 / w).

(** The state with its cursor moved on by [n] bytes. *)
Definition skipped (n : Z) (s : St) : St :=
  set_cur (mkHandle (bytes (cur s)) (pos (cur s) + n)) s.

(** The bytes of an entity record: the kind, then the fields in the order
    [loadEntities] reads them; [on] is the byte read for the state of a
    logic sensor. *)
Definition entity_bytes (e : Entity) (on : Z) : list byte :=
  match e with
  | TrainingDummy id x y npc =>
      le_bytes 1 0 ++ le_bytes 4 id ++ le_bytes 2 x ++ le_bytes 2 y ++
      le_bytes 2 npc
  | ItemFrame id x y itemid prefix stack =>
      le_bytes 1 1 ++ le_bytes 4 id ++ le_bytes 2 x ++ le_bytes 2 y ++
      le_bytes 2 itemid ++ le_bytes 1 prefix ++ le_bytes 2 stack
  | LogicSensor id x y type _ =>
      le_bytes 1 2 ++ le_bytes 4 id ++ le_bytes 2 x ++ le_bytes 2 y ++
      le_bytes 1 type ++ le_bytes 1 on
  end.

(** The fields of an entity lie in the ranges of the integers they are
    read as: [r32] for the id, [r16] for the coordinates, the NPC, the item
    and the stack, [r8] for the prefix and the type. *)
Definition entity_ok (e : Entity) : Prop :=
  match e with
  | TrainingDummy id x y npc =>
      - 2 ^ 31 ≤ id < 2 ^ 31 ∧ - 2 ^ 15 ≤ x < 2 ^ 15 ∧
      - 2 ^ 15 ≤ y < 2 ^ 15 ∧ - 2 ^ 15 ≤ npc < 2 ^ 15
  | ItemFrame id x y itemid prefix stack =>
      - 2 ^ 31 ≤ id < 2 ^ 31 ∧ - 2 ^ 15 ≤ x < 2 ^ 15 ∧
      - 2 ^ 15 ≤ y < 2 ^ 15 ∧ - 2 ^ 15 ≤ itemid < 2 ^ 15 ∧
      0 ≤ prefix < 256 ∧ - 2 ^ 15 ≤ stack < 2 ^ 15
  | LogicSensor id x y type _ =>
      - 2 ^ 31 ≤ id < 2 ^ 31 ∧ - 2 ^ 15 ≤ x < 2 ^ 15 ∧
      - 2 ^ 15 ≤ y < 2 ^ 15 ∧ 0 ≤ type < 256
  end.

(** The bestiary of [w'] holds all that the bestiary of [w] holds: the
    sightings and the chats of [w] in front, a kill count for every name
    that had one. *)
Definition accumulated (w w' : World) : Prop :=
  seen w `prefix_of` seen w' ∧ chats w `prefix_of` chats w' ∧
  ∀ name, is_Some (kills w !! name) → is_Some (kills w' !! name).

(** A decoder that, however it ends, leaves the world as it was but for the
    members [f] erases, and emits signals with [P] only. *)
Definition writes_only {A} (f : World → World) (P : Event → Prop)
    (m : M St A) : Prop :=
  preserves (on_world (unchanged_but f) (appended P)) m.

(** The members [loadHeader] assigns, erased. *)
Definition without_grid (w : World) : World :=
  set_header (mkHeader 0 0 0 0 None)
    (set_tilesWide 0 (set_tilesHigh 0 (set_tiles [] w))).

(** The signal of column [x] of a grid [wide] tiles wide. *)
Definition tiles_status (env : Env) (wide x : Z) : Event :=
  status (percent_message "Reading tiles: " (column_percent env x wide)).

(** The value of a lower-case hexadecimal digit, and of a string of them. *)
Definition hex_value (c : Ascii.ascii) : Z :=
  let n := Z.of_N (Ascii.N_of_ascii c) in
  if n <? 58 then n - 48 else n - 87.

Fixpoint unhex_from (s : string) (acc : Z) : Z :=
  match s with
  | EmptyString => acc
  | String c s' => unhex_from s' (acc * 16 + hex_value c)
  end.

(** An entity record: a logic sensor of id 7 at (3, 4), of type 1, on. *)
Definition example_sensor : list byte :=
  [Byte.x02; Byte.x07; Byte.x00; Byte.x00; Byte.x00; Byte.x03; Byte.x00;
   Byte.x04; Byte.x00; Byte.x01; Byte.x05].

(** A section of two records of eight bytes at most. *)
Definition example_discarded : list byte :=
  [Byte.x02; Byte.x00; Byte.x00; Byte.x00;
   Byte.x01; Byte.x00; Byte.x02; Byte.x00; Byte.x03; Byte.x00; Byte.x04; Byte.x00;
   Byte.x05; Byte.x00; Byte.x06; Byte.x00; Byte.x07; Byte.x00; Byte.x08; Byte.x00].

(** A bestiary: five kills of "a", a sighting of "b", no chat. *)
Definition example_bestiary : list byte :=
  [Byte.x01; Byte.x00; Byte.x00; Byte.x00; Byte.x01; Byte.x61;
   Byte.x05; Byte.x00; Byte.x00; Byte.x00;
   Byte.x01; Byte.x00; Byte.x00; Byte.x00; Byte.x01; Byte.x62;
   Byte.x00; Byte.x00; Byte.x00; Byte.x00].

(** An NPC section of version 200: no NPC with a home, one without. *)
Definition example_npcs : list byte :=
  [Byte.x00; Byte.x01; Byte.x07; Byte.x00; Byte.x00; Byte.x00;
   Byte.x00; Byte.x00; Byte.x80; Byte.x3f; Byte.x00; Byte.x00; Byte.x00; Byte.x40;
   Byte.x00].

(** A signs section: one sign "hi" at (10, 20). *)
Definition example_signs : list byte :=
  [Byte.x01; Byte.x00; Byte.x02; Byte.x68; Byte.x69;
   Byte.x0a; Byte.x00; Byte.x00; Byte.x00; Byte.x14; Byte.x00; Byte.x00; Byte.x00].

(** Two GUIDs that differ in their last byte. *)
Definition example_guid : list byte :=
  [Byte.x00; Byte.x01; Byte.x02; Byte.x03; Byte.x04; Byte.x05; Byte.x06;
   Byte.x07; Byte.x08; Byte.x09; Byte.x0a; Byte.x0b; Byte.x0c; Byte.x0d;
   Byte.x0e; Byte.x0f].
Definition example_guid2 : list byte := <[15%nat := Byte.xff]> example_guid.


(** * Properties *)

(** ** The monad and the reader *)

(** Linear arithmetic with division and remainder by constants. *)
Ltac zdiv := Z.div_mod_to_equations; lia.

Lemma bind_inv {S A B} (m : M S A) (k : A → M S B) s r s' :
  (m ≫= k) s = (r, s') →
  (∃ a s1, m s = (Ok a, s1) ∧ k a s1 = (r, s')) ∨
  (∃ e, m s = (Fail e, s') ∧ r = Fail e).
Proof.
  unfold mbind, M_bind. destruct (m s) as [[a|e] s1]; intros H.
  - left. eauto.
  - right. inversion H; subst. eauto.
Qed.

Lemma bind_ok_inv {S A B} (m : M S A) (k : A → M S B) s b s' :
  (m ≫= k) s = (Ok b, s') →
  ∃ a s1, m s = (Ok a, s1) ∧ k a s1 = (Ok b, s').
Proof.
  intros H. apply bind_inv in H as [H|[e [_ H]]]; [done|discriminate].
Qed.

Lemma b2z_range b : 0 ≤ b2z b < 256.
Proof. unfold b2z. pose proof (Byte.to_N_bounded b). lia. Qed.

Lemma readBytes_inv n h bs h' :
  readBytes n h = (Ok bs, h') →
  0 ≤ pos h ∧ pos h + Z.of_nat n ≤ Handle_length h ∧
  bs = take n (drop (Z.to_nat (pos h)) (bytes h)) ∧
  h' = mkHandle (bytes h) (pos h + Z.of_nat n).
Proof.
  unfold readBytes. case_match eqn:E; [|discriminate].
  intros [= <- <-]. apply andb_true_iff in E as [?%Z.leb_le ?%Z.leb_le]. done.
Qed.

Lemma r8_inv h v h' :
  r8 h = (Ok v, h') →
  0 ≤ pos h ∧ pos h < Handle_length h ∧ v = byte_at (bytes h) (pos h) ∧
  h' = mkHandle (bytes h) (pos h + 1).
Proof.
  unfold r8. intros (bs & h1 & Hr & Hk)%bind_ok_inv.
  apply readBytes_inv in Hr as (Hp & Hl & -> & ->).
  injection Hk as <- <-. unfold Handle_length in *.
  split; [done|]. split; [lia|]. split; [|done].
  unfold byte_at. rewrite (proj2 (Z.leb_le _ _) Hp).
  destruct (bytes h !! Z.to_nat (pos h)) as [b|] eqn:Hb.
  - rewrite (drop_S _ _ _ Hb). simpl. lia.
  - apply lookup_ge_None in Hb. lia.
Qed.

(** ** Reading succeeds inside the bytes *)

Lemma readBytes_ok n h :
  0 ≤ pos h → pos h + Z.of_nat n ≤ Handle_length h →
  readBytes n h = (Ok (segment (bytes h) (pos h) (pos h + Z.of_nat n)),
                   mkHandle (bytes h) (pos h + Z.of_nat n)).
Proof.
  intros H1 H2. unfold readBytes, segment.
  rewrite (proj2 (Z.leb_le _ _) H1), (proj2 (Z.leb_le _ _) H2). simpl.
  do 3 f_equal. lia.
Qed.

Lemma r8_ok h :
  0 ≤ pos h < Handle_length h →
  r8 h = (Ok (byte_at (bytes h) (pos h)), mkHandle (bytes h) (pos h + 1)).
Proof.
  intros [H1 H2]. destruct (r8 h) as [[v|e] h'] eqn:E.
  - by apply r8_inv in E as (_ & _ & -> & ->).
  - unfold r8, mbind, M_bind in E. rewrite (readBytes_ok 1) in E by lia. done.
Qed.

Lemma truthy_land_pow2 b j : 0 ≤ j → truthy (Z.land b (2 ^ j)) = Z.testbit b j.
Proof.
  intros Hj. unfold truthy.
  assert (Z.land b (2 ^ j) = if Z.testbit b j then 2 ^ j else 0) as ->.
  { apply Z.bits_inj'. intros n Hn. rewrite Z.land_spec, Z.pow2_bits_eqb by done.
    destruct (Z.eqb_spec j n) as [->|Hne].
    - destruct (Z.testbit b n); [by rewrite Z.pow2_bits_true|by rewrite Z.bits_0].
    - rewrite andb_false_r. destruct (Z.testbit b j); [|by rewrite Z.bits_0].
      rewrite Z.pow2_bits_false; done. }
  destruct (Z.testbit b j); [|done].
  assert (0 < 2 ^ j) by (apply Z.pow_pos_nonneg; lia).
  destruct (Z.eqb_spec (2 ^ j) 0); [lia|done].
Qed.

Lemma readBits_loop_spec k : ∀ m b extra h l h',
  0 ≤ m ≤ 7 →
  readBits_loop k (2 ^ m) b extra h = (Ok l, h') →
  bytes h' = bytes h ∧
  pos h' = pos h + (Z.of_nat k + m) / 8 ∧
  ∃ l2, l = extra ++ l2 ∧ length l2 = k ∧
        ∀ i, (i < k)%nat → l2 !! i = Some (bit_from (bytes h) m b (pos h) i).
Proof.
  induction k as [|k IH]; intros m b extra h l h' Hm H.
  - simpl in H. injection H as <- <-. split; [done|]. split.
    { rewrite (Z.div_small (_ + m)); lia. }
    exists []. rewrite app_nil_r. repeat split; [done..|]. intros; lia.
  - simpl in H. apply bind_ok_inv in H as ([mask bits] & h1 & Hstep & H).
    destruct (Z.eqb_spec (2 ^ m) 128) as [E|E].
    + assert (m = 7) as ->.
      { assert (m = 0 ∨ m = 1 ∨ m = 2 ∨ m = 3 ∨ m = 4 ∨ m = 5 ∨ m = 6 ∨ m = 7)
          as Hc by lia.
        destruct Hc as [->|[->|[->|[->|[->|[->|[->| ->]]]]]]]; vm_compute in E; congruence. }
      apply bind_ok_inv in Hstep as (v & h2 & Hr & Hk).
      injection Hk as <- <- <-.
      apply r8_inv in Hr as (Hp & Hl & -> & ->).
      apply (IH 0) in H as (Hb & Hpos & l2 & -> & Hlen & Hbits); [|lia].
      simpl in Hb, Hpos, Hbits. split; [done|]. split; [zdiv|].
      exists (truthy (Z.land (byte_at (bytes h) (pos h)) (2 ^ 0)) :: l2).
      split; [by rewrite <- app_assoc|]. split; [simpl; lia|].
      intros [|i] Hi.
      * simpl. f_equal. rewrite truthy_land_pow2 by lia.
        unfold bit_from. simpl. by rewrite Z.add_0_r.
      * simpl. rewrite Hbits by lia. f_equal. unfold bit_from.
        destruct (Z.ltb_spec (Z.of_nat (S i) + 7 + 1) 8); [lia|].
        destruct (Z.ltb_spec (Z.of_nat i + 0 + 1) 8).
        -- f_equal; [|zdiv]. f_equal.
           replace (pos h + (Z.of_nat (S i) + 7 + 1 - 8) / 8) with (pos h) by zdiv.
           done.
        -- f_equal; [f_equal; zdiv|zdiv].
    + injection Hstep as <- <- <-.
      assert (m < 7) as Hm7.
      { destruct (decide (m = 7)) as [->|]; [by vm_compute in E|lia]. }
      assert (Z.land (Z.shiftl (2 ^ m) 1) 255 = 2 ^ (m + 1)) as Hmask.
      { assert (m = 0 ∨ m = 1 ∨ m = 2 ∨ m = 3 ∨ m = 4 ∨ m = 5 ∨ m = 6)
          as Hc by lia.
        destruct Hc as [->|[->|[->|[->|[->|[->| ->]]]]]]; done. }
      rewrite Hmask in H.
      apply (IH (m + 1)) in H as (Hb & Hpos & l2 & -> & Hlen & Hbits); [|lia].
      split; [done|]. split.
      { rewrite Hpos. simpl. zdiv. }
      exists (truthy (Z.land b (2 ^ (m + 1))) :: l2).
      split; [by rewrite <- app_assoc|]. split; [simpl; lia|].
      intros [|i] Hi.
      * simpl. f_equal. rewrite truthy_land_pow2 by lia.
        unfold bit_from. destruct (Z.ltb_spec (Z.of_nat 0 + m + 1) 8); [|lia].
        f_equal. lia.
      * simpl. rewrite Hbits by lia. f_equal. unfold bit_from.
        replace (Z.of_nat (S i) + m + 1) with (Z.of_nat i + (m + 1) + 1) by lia.
        replace (m + 1 + Z.of_nat (S i)) with (m + 1 + 1 + Z.of_nat i) by lia.
        done.
Qed.

Lemma readBits_loop_ok k : ∀ m b extra h,
  0 ≤ m ≤ 7 → 0 ≤ pos h →
  pos h + (Z.of_nat k + m) / 8 ≤ Handle_length h →
  ∃ l, readBits_loop k (2 ^ m) b extra h
       = (Ok l, mkHandle (bytes h) (pos h + (Z.of_nat k + m) / 8)).
Proof.
  induction k as [|k IH]; intros m b extra h Hm Hp Hl.
  - exists extra. simpl. rewrite Z.div_small, Z.add_0_r by lia. by destruct h.
  - cbn [readBits_loop]. unfold mbind at 1, M_bind at 1.
    destruct (decide (m = 7)) as [->|Hm7].
    + change (2 ^ 7 =? 128) with true. cbv iota.
      unfold mbind at 1, M_bind at 1. rewrite r8_ok by zdiv.
      unfold mret at 1, M_ret at 1. cbv iota beta.
      destruct (IH 0 (byte_at (bytes h) (pos h))
                  (extra ++ [truthy (Z.land (byte_at (bytes h) (pos h)) 1)])
                  (mkHandle (bytes h) (pos h + 1))) as [l E];
        [lia|simpl; lia|unfold Handle_length in *; simpl; zdiv|].
      exists l. change (2 ^ 0) with 1 in E. rewrite E. simpl. do 2 f_equal. zdiv.
    + assert (m = 0 ∨ m = 1 ∨ m = 2 ∨ m = 3 ∨ m = 4 ∨ m = 5 ∨ m = 6)
        as Hc by lia.
      assert ((2 ^ m =? 128) = false ∧
              Z.land (Z.shiftl (2 ^ m) 1) 255 = 2 ^ (m + 1)) as [E1 E2].
      { destruct Hc as [->|[->|[->|[->|[->|[->| ->]]]]]]; done. }
      rewrite E1. unfold mret at 1, M_ret at 1. cbv iota beta. rewrite E2.
      destruct (IH (m + 1) b (extra ++ [truthy (Z.land b (2 ^ (m + 1)))]) h)
        as [l E]; [lia|done|zdiv|].
      exists l. rewrite E. do 2 f_equal. f_equal. zdiv.
Qed.

(** C1, amended: the bits of a bitmap are taken least significant bit
    first. A successful [readBits n] keeps the bytes, moves the cursor by
    the [ceil(n / 8)] bytes of the bitmap and yields [n] booleans, of which
    number [i] is bit [i mod 8] of byte [i / 8]: the mask is 1 for the
    first bit of a byte, is shifted left for each bit after it, and a new
    byte is read once the mask has been 0x80. And [readBits n] does succeed
    as soon as those bytes lie before the end. *)
Theorem readBits_lsb_first n h :
  let width := (Z.of_nat (Z.to_nat n) + 7) / 8 in
  (∀ l h',
     readBits n h = (Ok l, h') →
     bytes h' = bytes h ∧
     pos h' = pos h + width ∧
     length l = Z.to_nat n ∧
     ∀ i, (i < Z.to_nat n)%nat →
          l !! i = Some (lsb_first_bit (bytes h) (pos h) i)) ∧
  (0 ≤ pos h → pos h + width ≤ Handle_length h →
   ∃ l, readBits n h = (Ok l, mkHandle (bytes h) (pos h + width))).
Proof.
  intros width. split.
  - unfold readBits. intros l h' H.
    apply (readBits_loop_spec _ 7) in H as (Hb & Hp & l2 & -> & Hlen & Hbits);
      [|lia].
    split; [done|]. split; [done|]. split; [done|].
    intros i Hi. simpl. rewrite Hbits by done. f_equal.
    unfold bit_from, lsb_first_bit.
    destruct (Z.ltb_spec (Z.of_nat i + 7 + 1) 8); [lia|].
    f_equal; [f_equal; zdiv|zdiv].
  - intros Hp Hl. unfold readBits. apply (readBits_loop_ok _ 7); [lia|done..].
Qed.

Lemma readBits_lsb_first_witness :
  let h := mkHandle [Byte.x01; Byte.x80] 0 in
  let l := [true; false; false; false; false; false; false; false; false] in
  readBits 9 h = (Ok l, mkHandle [Byte.x01; Byte.x80] 2) ∧
  length l = Z.to_nat 9 ∧
  l !! 0%nat = Some (lsb_first_bit (bytes h) (pos h) 0) ∧
  l !! 8%nat = Some (lsb_first_bit (bytes h) (pos h) 8).
Proof.
  intros h l.
  assert (readBits 9 h = (Ok l, mkHandle [Byte.x01; Byte.x80] 2)) as E
    by reflexivity.
  split; [exact E|].
  destruct (proj1 (readBits_lsb_first 9 h) l _ E) as (_ & _ & Hlen & Hbits).
  split; [exact Hlen|].
  split; apply Hbits; vm_compute; lia.
Defined.

(** The specification's wording of C1 fails: of the single byte 0x80 the
    first bit decoded is false, where the bit under mask 0x80 is true. *)
Lemma readBits_msb_first_counterexample :
  ¬ (∀ n h l h', readBits n h = (Ok l, h') →
       ∀ i, (i < Z.to_nat n)%nat →
            l !! i = Some (msb_first_bit (bytes h) (pos h) i)).
Proof.
  intros H.
  specialize (H 1 (mkHandle [Byte.x80] 0) [false] (mkHandle [Byte.x80] 1)
                eq_refl 0%nat).
  vm_compute in H. specialize (H (le_n 1)). discriminate H.
Qed.

(** ** Relations kept by a computation *)

Section Preserves.
Context {S : Type} (R : S → S → Prop) `{!PreOrder R}.

Lemma preserves_ret {A} (a : A) : preserves R (mret a).
Proof. intros s r s' [= <- <-]. reflexivity. Qed.

Lemma preserves_fail {A} e : preserves R (fail e : M S A).
Proof. intros s r s' [= <- <-]. reflexivity. Qed.

Lemma preserves_gets {A} (f : S → A) : preserves R (gets f).
Proof. intros s r s' [= <- <-]. reflexivity. Qed.

Lemma preserves_modify (f : S → S) : (∀ s, R s (f s)) → preserves R (modify f).
Proof. intros Hf s r s' [= <- <-]. apply Hf. Qed.

Lemma preserves_bind {A B} (m : M S A) (k : A → M S B) :
  preserves R m → (∀ a, preserves R (k a)) → preserves R (m ≫= k).
Proof.
  intros Hm Hk s r s' [(a & s1 & H1 & H2)|(e & H1 & _)]%bind_inv.
  - etrans; [by eapply Hm|by eapply Hk].
  - by eapply Hm.
Qed.

Lemma preserves_when (b : bool) (m : M S unit) :
  preserves R m → preserves R (when b m).
Proof. destruct b; [done|]. intros _. apply preserves_ret. Qed.

Lemma preserves_index {A} c (l : list A) i : preserves R (index c l i).
Proof.
  unfold index. repeat case_match;
    auto using preserves_ret, preserves_fail.
Qed.

Lemma preserves_for_loop k : ∀ i (body : Z → M S unit),
  (∀ j, preserves R (body j)) → preserves R (for_loop k i body).
Proof.
  induction k as [|k IH]; intros i body Hb; simpl.
  - apply preserves_ret.
  - apply preserves_bind; [apply Hb|]. intros _. by apply IH.
Qed.

Lemma preserves_for_range n (body : Z → M S unit) :
  (∀ j, preserves R (body j)) → preserves R (for_range n body).
Proof. apply preserves_for_loop. Qed.

Lemma preserves_for_fold {A} k : ∀ i (acc : A) (body : Z → A → M S A),
  (∀ j a, preserves R (body j a)) → preserves R (for_fold k i acc body).
Proof.
  induction k as [|k IH]; intros i acc body Hb; simpl.
  - apply preserves_ret.
  - apply preserves_bind; [apply Hb|]. intros a. by apply IH.
Qed.
End Preserves.

(** Steps that [preserves] goals are split into, whatever the relation. *)
Ltac preserves_step :=
  lazymatch goal with
  | |- preserves ?R (mret _) => apply (preserves_ret R)
  | |- preserves ?R (fail _) => apply (preserves_fail R)
  | |- preserves ?R (gets _) => apply (preserves_gets R)
  | |- preserves ?R (index _ _ _) => apply (preserves_index R)
  | |- preserves ?R (_ ≫= _) => apply (preserves_bind R); [|intros ?]
  | |- preserves ?R (when _ _) => apply (preserves_when R)
  | |- preserves ?R (for_range _ _) => apply (preserves_for_range R); intros ?
  | |- preserves ?R (for_fold _ _ _ _) =>
      apply (preserves_for_fold R); intros ? ?
  | |- preserves _ (if ?c then _ else _) => destruct c
  | |- preserves _ (match ?x with _ => _ end) => destruct x
  | |- preserves _ (let '(_, _) := ?x in _) => destruct x
  end.

(** *** Relations on the tile a [Tile::load] runs on *)

Section TilePreserves.
Context (Rt : Tile.t → Tile.t → Prop) `{!PreOrder Rt}.

#[global] Instance on_tile_preorder : PreOrder (on_tile Rt).
Proof.
  split; [intros s; unfold on_tile; reflexivity|].
  intros s1 s2 s3 H1 H2. unfold on_tile in *. by etrans.
Qed.

Lemma preserves_tile_rd {A} (m : M Handle A) : preserves (on_tile Rt) (Tile.rd m).
Proof.
  intros s r s'. unfold Tile.rd, zoom. destruct (m s.1) as [r' h'].
  intros [= <- <-]. unfold on_tile. simpl. reflexivity.
Qed.

Lemma preserves_tile_this {A} (f : Tile.t → A) : preserves (on_tile Rt) (Tile.this f).
Proof. apply preserves_gets. apply _. Qed.

Lemma preserves_tile_assign f :
  (∀ a, Rt a (f a)) → preserves (on_tile Rt) (Tile.assign f).
Proof. intros Hf. apply preserves_modify. intros s. apply Hf. Qed.
End TilePreserves.

Ltac tile_preserves :=
  repeat first
    [ lazymatch goal with
      | |- preserves (on_tile ?Rt) (Tile.rd _) => apply (preserves_tile_rd Rt)
      | |- preserves (on_tile ?Rt) (Tile.this _) => apply (preserves_tile_this Rt)
      | |- preserves (on_tile ?Rt) (Tile.assign _) =>
          apply (preserves_tile_assign Rt); intros ?
      end
    | preserves_step ].

#[global] Instance keeps_preorder mask ty lq : PreOrder (keeps mask ty lq).
Proof.
  split; [done|]. intros a b c (? & H1 & H2) (? & H3 & H4).
  unfold keeps. repeat split; [congruence|..]; intros E.
  - rewrite (H3 E). auto.
  - rewrite (H4 E). auto.
Qed.

Lemma land_or_flags (mask bit f : Z) :
  Z.land bit mask = 0 → Z.land (Z.lor f bit) mask = Z.land f mask.
Proof. intros H. by rewrite Z.land_lor_distr_l, H, Z.lor_0_r. Qed.

Lemma land_under (m n x : Z) :
  Z.land m n = n → Z.land x n = Z.land (Z.land x m) n.
Proof. intros H. by rewrite <- Z.land_assoc, H. Qed.

Ltac keeps_solve :=
  first [done | split; [by apply land_or_flags|done]].

Lemma load_wall_keeps f1 f3 :
  preserves (on_tile (keeps (-1) true true)) (Tile.load_wall f1 f3).
Proof. unfold Tile.load_wall. tile_preserves; keeps_solve. Qed.

Lemma load_liquid_keeps f1 f3 :
  preserves (on_tile (keeps 1 true false)) (Tile.load_liquid f1 f3).
Proof. unfold Tile.load_liquid. tile_preserves; keeps_solve. Qed.

Lemma load_wires_keeps f2 f3 :
  preserves (on_tile (keeps 7 true true)) (Tile.load_wires f2 f3).
Proof. unfold Tile.load_wires. tile_preserves; keeps_solve. Qed.

Lemma load_rle_keeps f1 :
  preserves (on_tile (keeps (-1) true true)) (Tile.load_rle f1).
Proof. unfold Tile.load_rle. tile_preserves. Qed.

(** Inversion of the primitive steps. *)
Lemma tile_rd_inv {A} (m : M Handle A) s r s' :
  Tile.rd m s = (r, s') → m s.1 = (r, s'.1) ∧ s'.2 = s.2.
Proof.
  unfold Tile.rd, zoom. destruct (m s.1) as [r' h']. by intros [= <- <-].
Qed.

Lemma tile_assign_inv f s r s' :
  Tile.assign f s = (r, s') → r = Ok tt ∧ s' = (s.1, f s.2).
Proof. by intros [= <- <-]. Qed.

Lemma load_type_post extra f1 f3 s r s' :
  Tile.load_type extra f1 f3 s = (r, s') →
  Tile.flags s'.2 = (if truthy (Z.land f1 2) then 1 else 0) ∧
  (r = Ok tt → truthy (Z.land f1 2) = false → Tile.type s'.2 = 0).
Proof.
  unfold Tile.load_type.
  intros [(u & s1 & H1 & H)|(e & H1 & _)]%bind_inv;
    apply tile_assign_inv in H1 as [? ->]; [|done].
  destruct (truthy (Z.land f1 2)).
  - split; [|done].
    assert (preserves (on_tile (keeps (-1) false false))
              (ty ← Tile.rd r8;
               Tile.assign (Tile.set_type ty);;
               when (truthy (Z.land f1 0x20))
                 (hi ← Tile.rd r8;
                  Tile.assign (λ a, Tile.set_type (Z.lor (Tile.type a) (Z.shiftl hi 8)) a));;
               ty ← Tile.this Tile.type;
               ex ← index Cextra extra ty;
               (if ex : bool then
                  x ← Tile.rd r16; Tile.assign (Tile.set_u x);;
                  x ← Tile.rd r16; Tile.assign (Tile.set_v x)
                else
                  Tile.assign (Tile.set_v (-1));;
                  Tile.assign (λ a, Tile.set_u (Tile.v a) a));;
               when (truthy (Z.land f3 0x8))
                 (c ← Tile.rd r8; Tile.assign (Tile.set_color c)))) as Hp.
    { tile_preserves; done. }
    apply Hp in H as (H & _). simpl in H. by rewrite !Z.land_m1_r in H.
  - apply tile_assign_inv in H as [-> ->]. done.
Qed.

(** The lava and honey bits [load_liquid] sets for a first flag byte. *)
Lemma load_liquid_post f1 f3 s s' :
  Tile.load_liquid f1 f3 s = (Ok tt, s') →
  Z.land (Tile.flags s.2) 6 = 0 →
  Z.land (Tile.flags s'.2) 6
  = (if Z.land f1 0x18 =? 0x10 then 2
     else if Z.land f1 0x18 =? 0x18 then 4 else 0) ∧
  (truthy (Z.land f1 0x18) = false → Tile.liquid s'.2 = 0).
Proof.
  unfold Tile.load_liquid, truthy. intros H H6.
  destruct (Z.eqb_spec (Z.land f1 24) 0) as [E|E]; simpl in H.
  - apply tile_assign_inv in H as [_ ->]. simpl. by rewrite E.
  - split; [|done].
    apply bind_ok_inv in H as (l & s1 & H1 & H).
    apply tile_rd_inv in H1 as [_ E1].
    apply bind_ok_inv in H as (u2 & s2 & H2 & H).
    apply tile_assign_inv in H2 as [_ ->].
    apply bind_ok_inv in H as (u3 & s3 & H3 & H).
    apply bind_ok_inv in H as (u4 & s4 & H4 & H).
    assert (Z.land (Tile.flags s4.2) 6 =
              (if Z.land f1 24 =? 16 then 2 else if Z.land f1 24 =? 24 then 4 else 0))
      as <-.
    { destruct (Z.eqb_spec (Z.land f1 24) 16) as [E16|E16];
        destruct (Z.eqb_spec (Z.land f1 24) 24) as [E24|E24]; try lia;
        simpl in H3, H4; unfold Tile.assign, modify, mret, M_ret in H3, H4;
        simplify_eq/=; rewrite ?E1.
      - rewrite Z.land_lor_distr_l, H6. done.
      - rewrite Z.land_lor_distr_l, H6. done.
      - done. }
    destruct (negb (Z.land f3 128 =? 0)); simpl in H.
    + apply tile_assign_inv in H as [_ ->]. simpl. by apply land_or_flags.
    + unfold mret, M_ret in H. by simplify_eq.
Qed.

Lemma load_rest_post extra f1 s rle s' :
  Tile.load_rest extra f1 s = (Ok rle, s') →
  Z.land (Tile.flags s'.2) 1 = (if truthy (Z.land f1 2) then 1 else 0) ∧
  Z.land (Tile.flags s'.2) 6
  = (if Z.land f1 0x18 =? 0x10 then 2
     else if Z.land f1 0x18 =? 0x18 then 4 else 0) ∧
  (truthy (Z.land f1 2) = false → Tile.type s'.2 = 0) ∧
  (truthy (Z.land f1 0x18) = false → Tile.liquid s'.2 = 0).
Proof.
  unfold Tile.load_rest.
  intros ([f2 f3] & s0 & _ & H)%bind_ok_inv.
  apply bind_ok_inv in H as ([] & s1 & H1 & H).
  apply load_type_post in H1 as [Hf Ht].
  apply bind_ok_inv in H as ([] & s2 & H2 & H).
  apply load_wall_keeps in H2 as (Hw & Hwt & _).
  apply bind_ok_inv in H as ([] & s3 & Hliq & H).
  apply bind_ok_inv in H as ([] & s4 & H4 & H).
  apply load_wires_keeps in H4 as (Hwi & Hwit & Hwil).
  apply load_rle_keeps in H as (Hr & Hrt & Hrl).
  rewrite !Z.land_m1_r in Hw, Hr.
  pose proof (load_liquid_keeps _ _ _ _ _ Hliq) as (Hl1 & Hlt & _).
  apply load_liquid_post in Hliq as [Hl6 Hl0].
  2:{ rewrite Hw, Hf. by destruct (truthy _). }
  rewrite Hr. repeat split.
  - rewrite (land_under 7 1), Hwi, <- (land_under 7 1) by done.
    rewrite Hl1, Hw, Hf. by destruct (truthy _).
  - by rewrite (land_under 7 6), Hwi, <- (land_under 7 6).
  - intros E. rewrite Hrt, Hwit, Hlt, Hwt by done. auto.
  - intros E. rewrite Hrl, Hwil by done. auto.
Qed.

Lemma load_inv extra h t r s' :
  Tile.load extra (h, t) = (r, s') →
  (∃ e, r = Fail e ∧ s' = (h, t)) ∨
  (0 ≤ pos h < Handle_length h ∧
   Tile.load_rest extra (byte_at (bytes h) (pos h))
     (mkHandle (bytes h) (pos h + 1), t) = (r, s')).
Proof.
  unfold Tile.load.
  intros [(f1 & s1 & H1 & H)|(e & H1 & ->)]%bind_inv.
  - right. apply tile_rd_inv in H1 as [H1 E]. simpl in H1, E.
    apply r8_inv in H1 as (? & ? & -> & E1).
    destruct s1 as [h1 t1]. simpl in *. subst. done.
  - left. exists e. split; [done|].
    apply tile_rd_inv in H1 as [H1 E]. simpl in H1, E.
    unfold r8 in H1. apply bind_inv in H1 as [(? & ? & _ & [=])|(e' & H1 & _)].
    unfold readBytes in H1. case_match; [done|].
    destruct s' as [h1 t1]. simpl in *. by simplify_eq.
Qed.

(** C3, amended: the active flag of a decoded tile is bit 0x02 of the
    first flag byte of its record. A tile whose type is not 0 is active,
    and an inactive tile has type 0; an active tile can have type 0. *)
Theorem Tile_load_type_active extra h t rle h' t' :
  Tile.load extra (h, t) = (Ok rle, (h', t')) →
  Tile.active t' = truthy (Z.land (byte_at (bytes h) (pos h)) 2) ∧
  (Tile.type t' ≠ 0 → Tile.active t' = true) ∧
  (Tile.active t' = false → Tile.type t' = 0).
Proof.
  intros [(e & [=] & _)|[_ H]]%load_inv.
  apply load_rest_post in H as (H1 & _ & Ht & _). simpl in *.
  assert (Tile.active t' = truthy (Z.land (byte_at (bytes h) (pos h)) 2)) as Ha.
  { unfold Tile.active. rewrite H1. by destruct (truthy (Z.land _ 2)). }
  rewrite Ha. split; [done|].
  destruct (truthy (Z.land _ 2)); [done|]. split; [intros []|]; auto.
Qed.

Lemma Tile_load_type_active_witness :
  let extra := [false; false; false; false; false; true] in
  let t' := Tile.mk 5 0 16 32 (-1) (-1) 0 0 128 0 3 in
  Tile.load extra (mkHandle example_record 0, blank_tile)
  = (Ok 0, (mkHandle example_record 7, t')) ∧
  Tile.active t' = truthy (Z.land (byte_at example_record 0) 2) ∧
  (Tile.type t' ≠ 0 → Tile.active t' = true) ∧
  (Tile.active t' = false → Tile.type t' = 0).
Proof.
  intros extra t'.
  assert (Tile.load extra (mkHandle example_record 0, blank_tile)
          = (Ok 0, (mkHandle example_record 7, t'))) as E
    by (vm_compute; reflexivity).
  split; [exact E|].
  exact (Tile_load_type_active extra _ _ _ _ _ E).
Defined.


(** The specification's wording of C3 fails: the record [02 00] is an
    active tile of type 0. *)
Lemma Tile_load_type_active_counterexample :
  ¬ (∀ extra s rle s',
       Tile.load extra s = (Ok rle, s') →
       (Tile.active s'.2 = true ↔ Tile.type s'.2 ≠ 0)).
Proof.
  intros H.
  assert (Tile.load [false]
            (mkHandle [Byte.x02; Byte.x00] 0, Tile.mk 0 0 0 0 0 0 0 0 0 0 0)
          = (Ok 0, (mkHandle [Byte.x02; Byte.x00] 2,
                    Tile.mk 0 0 (-1) (-1) 0 0 0 0 0 0 1))) as E
    by (vm_compute; reflexivity).
  apply H in E as [E _]. exact (E eq_refl eq_refl).
Qed.

(** C6, amended: a decoded tile never has both the lava and the honey
    flag; lava is set exactly when [(f1 & 0x18) == 0x10], honey exactly when
    [(f1 & 0x18) == 0x18], [f1] the first flag byte of the record. A record
    without a liquid byte ([(f1 & 0x18) == 0]) gives liquid 0 with both
    flags clear; a liquid byte of 0 does not clear them. *)
Theorem Tile_load_lava_honey extra h t rle h' t' :
  Tile.load extra (h, t) = (Ok rle, (h', t')) →
  let f1 := byte_at (bytes h) (pos h) in
  ¬ (Tile.lava t' = true ∧ Tile.honey t' = true) ∧
  Tile.lava t' = (Z.land f1 0x18 =? 0x10) ∧
  Tile.honey t' = (Z.land f1 0x18 =? 0x18) ∧
  (Z.land f1 0x18 = 0 →
   Tile.liquid t' = 0 ∧ Tile.lava t' = false ∧ Tile.honey t' = false).
Proof.
  intros [(e & [=] & _)|[_ H]]%load_inv f1.
  apply load_rest_post in H as (_ & H6 & _ & Hl). fold f1 in H6, Hl. simpl in *.
  assert (Tile.lava t' = (Z.land f1 24 =? 16) ∧
          Tile.honey t' = (Z.land f1 24 =? 24)) as [Hlava Hhoney].
  { unfold Tile.lava, Tile.honey.
    rewrite (land_under 6 2), (land_under 6 4), H6 by done.
    destruct (Z.eqb_spec (Z.land f1 24) 16) as [->|];
      [done|destruct (Z.eqb_spec (Z.land f1 24) 24)]; done. }
  rewrite Hlava, Hhoney. split; [|split; [done|split; [done|]]].
  - intros [?%Z.eqb_eq ?%Z.eqb_eq]. lia.
  - intros E. rewrite E. split; [|done]. apply Hl. unfold truthy. by rewrite E.
Qed.

Lemma Tile_load_lava_honey_witness :
  let extra := [false; false; false; false; false; true] in
  let t' := Tile.mk 5 0 16 32 (-1) (-1) 0 0 128 0 3 in
  Tile.load extra (mkHandle example_record 0, blank_tile)
  = (Ok 0, (mkHandle example_record 7, t')) ∧
  ¬ (Tile.lava t' = true ∧ Tile.honey t' = true) ∧
  Tile.lava t' = true ∧ Tile.honey t' = false.
Proof.
  intros extra t'.
  assert (Tile.load extra (mkHandle example_record 0, blank_tile)
          = (Ok 0, (mkHandle example_record 7, t'))) as E
    by (vm_compute; reflexivity).
  split; [exact E|].
  destruct (Tile_load_lava_honey extra _ _ _ _ _ E) as (H1 & H2 & H3 & _).
  split; [exact H1|]. split; [exact H2|exact H3].
Defined.


(** The specification's wording of C6 fails: the record [10 00] is a tile
    of liquid 0 with the lava flag set. *)
Lemma Tile_load_lava_honey_counterexample :
  ¬ (∀ extra s rle s',
       Tile.load extra s = (Ok rle, s') →
       ¬ (Tile.lava s'.2 = true ∧ Tile.honey s'.2 = true) ∧
       (Tile.liquid s'.2 = 0 →
        Tile.lava s'.2 = false ∧ Tile.honey s'.2 = false)).
Proof.
  intros H.
  assert (Tile.load [false]
            (mkHandle [Byte.x10; Byte.x00] 0, Tile.mk 0 0 0 0 0 0 0 0 0 0 0)
          = (Ok 0, (mkHandle [Byte.x10; Byte.x00] 2,
                    Tile.mk 0 0 0 0 0 0 0 0 0 0 2))) as E
    by (vm_compute; reflexivity).
  apply H in E as [_ E]. by destruct (E eq_refl).
Qed.

Lemma land_low6 f m : Z.land 63 m = m → Z.land (Z.land f 63) m = Z.land f m.
Proof. intros H. by rewrite <- Z.land_assoc, H. Qed.

Lemma load_rle_selector0 f1 s :
  Z.shiftr f1 6 = 0 ∨ Z.shiftr f1 6 = 3 → Tile.load_rle f1 s = (Ok 0, s).
Proof. unfold Tile.load_rle. by intros [-> | ->]. Qed.

Lemma shiftr_low6 f1 : Z.shiftr (Z.land f1 63) 6 = 0.
Proof.
  change 63 with (Z.ones 6). rewrite Z.land_ones, Z.shiftr_div_pow2 by lia.
  apply Z.div_small. apply Z.mod_pos_bound. lia.
Qed.

Lemma load_rest_selector3 extra f1 s :
  Z.shiftr f1 6 = 3 →
  Tile.load_rest extra f1 s = Tile.load_rest extra (Z.land f1 63) s.
Proof.
  intros E. unfold Tile.load_rest, Tile.load_flags23, Tile.load_type,
    Tile.load_wall, Tile.load_liquid, Tile.load_rle.
  rewrite shiftr_low6, E, !land_low6 by done. done.
Qed.

(** C10: a record whose first flag byte [f1] has [f1 >> 6 == 3] has no
    run-length bytes. The last step of [Tile::load] reads nothing and yields
    0; all of the record after [f1] is decoded as it is with the two
    selector bits cleared, which is selector 0; and the run length
    [Tile::load] returns is 0. *)
Theorem Tile_load_selector3 extra h t :
  let f1 := byte_at (bytes h) (pos h) in
  Z.shiftr f1 6 = 3 →
  (∀ s, Tile.load_rle f1 s = (Ok 0, s)) ∧
  Z.shiftr (Z.land f1 0x3F) 6 = 0 ∧
  (∀ s, Tile.load_rest extra f1 s = Tile.load_rest extra (Z.land f1 0x3F) s) ∧
  (∀ rle s', Tile.load extra (h, t) = (Ok rle, s') → rle = 0).
Proof.
  intros f1 E. split; [intros s; apply load_rle_selector0; auto|].
  split; [apply shiftr_low6|]. split; [intros s; by apply load_rest_selector3|].
  intros rle s' [(e & [=] & _)|[_ H]]%load_inv. fold f1 in H.
  unfold Tile.load_rest in H.
  apply bind_ok_inv in H as ([f2 f3] & s0 & _ & H).
  do 4 apply bind_ok_inv in H as (? & ? & _ & H).
  rewrite load_rle_selector0 in H by auto. by simplify_eq.
Qed.

Lemma Tile_load_selector3_witness :
  let h := mkHandle [Byte.xc0; Byte.x09] 0 in
  Z.shiftr (byte_at (bytes h) (pos h)) 6 = 3 ∧
  Tile.load [] (h, blank_tile)
  = (Ok 0, (mkHandle [Byte.xc0; Byte.x09] 1,
            Tile.mk 0 0 (-1) (-1) (-1) (-1) 0 0 0 0 0)) ∧
  ∀ rle s', Tile.load [] (h, blank_tile) = (Ok rle, s') → rle = 0.
Proof.
  intros h. split; [reflexivity|]. split; [vm_compute; reflexivity|].
  exact (proj2 (proj2 (proj2
    (Tile_load_selector3 [] h blank_tile eq_refl)))).
Defined.


Lemma rd_inv {A} (m : M Handle A) s r s' :
  rd m s = (r, s') → ∃ h', m (cur s) = (r, h') ∧ s' = set_cur h' s.
Proof.
  unfold rd, zoom. destruct (m (cur s)) as [r' h']. intros [= <- <-]. eauto.
Qed.

(** ** Entities (C4) *)

Lemma loadEntity_unknown h kind :
  0 ≤ pos h < Handle_length h →
  kind = byte_at (bytes h) (pos h) →
  kind ≠ 0 → kind ≠ 1 → kind ≠ 2 →
  loadEntity h = (Ok None, mkHandle (bytes h) (pos h + 1)).
Proof.
  intros Hp -> H0 H1 H2. unfold loadEntity, mbind, M_bind.
  rewrite r8_ok by done.
  destruct (byte_at (bytes h) (pos h)) as [|[p|p|]|]; try done;
    destruct p; done.
Qed.

(** C4, amended: a record whose kind byte is not 0, 1 or 2 is no error.
    [loadEntity] reads the kind byte and nothing else, and the turn of the
    loop of [loadEntities] leaves the entities, and all the rest of the
    state but the cursor, as they were; the loop goes on with the byte
    after the kind byte as the next record. *)
Theorem loadEntities_unknown_kind h w ev :
  0 ≤ pos h < Handle_length h →
  byte_at (bytes h) (pos h) ≠ 0 →
  byte_at (bytes h) (pos h) ≠ 1 →
  byte_at (bytes h) (pos h) ≠ 2 →
  loadEntity h = (Ok None, mkHandle (bytes h) (pos h + 1)) ∧
  loadEntities_turn (mkSt h w ev)
  = (Ok tt, mkSt (mkHandle (bytes h) (pos h + 1)) w ev).
Proof.
  intros Hp H0 H1 H2.
  pose proof (loadEntity_unknown h _ Hp eq_refl H0 H1 H2) as E.
  split; [done|].
  unfold loadEntities_turn, mbind, M_bind, rd, zoom. simpl. by rewrite E.
Qed.

Lemma loadEntities_unknown_kind_witness :
  loadEntity (mkHandle [Byte.x03; Byte.x00] 0)
  = (Ok None, mkHandle [Byte.x03; Byte.x00] 1).
Proof.
  refine (proj1 (loadEntities_unknown_kind (mkHandle [Byte.x03; Byte.x00] 0)
                   (example_world "" 0 0 []) [] _ _ _ _));
    vm_compute; intuition congruence.
Defined.

(** The specification's wording of C4 fails: the record of kind 3 below
    is decoded without any error. *)
Lemma loadEntity_unknown_kind_counterexample :
  ¬ (∀ h, 0 ≤ pos h < Handle_length h →
          byte_at (bytes h) (pos h) ≠ 0 →
          byte_at (bytes h) (pos h) ≠ 1 →
          byte_at (bytes h) (pos h) ≠ 2 →
          ∃ h', loadEntity h
                = (Fail (UnknownEntityKind (byte_at (bytes h) (pos h))), h')).
Proof.
  intros H.
  destruct (H (mkHandle [Byte.x03; Byte.x00] 0)) as [h' E];
    vm_compute; try intuition congruence.
  vm_compute in E. discriminate E.
Qed.

(** ** Little-endian bytes *)

Lemma z2b_b2z b : z2b (b2z b) = b.
Proof.
  unfold z2b. pose proof (b2z_range b).
  rewrite Z.mod_small by done. unfold b2z. rewrite N2Z.id, Byte.of_to_N. done.
Qed.

Lemma z2b_add v k : z2b (v + k * 256) = z2b v.
Proof. unfold z2b. by rewrite Z.mod_add. Qed.

Lemma le_unsigned_range bs : 0 ≤ le_unsigned bs < 256 ^ Z.of_nat (length bs).
Proof.
  induction bs as [|b bs IH]; [simpl; lia|].
  cbn [le_unsigned length]. rewrite Nat2Z.inj_succ, Z.pow_succ_r by lia.
  pose proof (b2z_range b). lia.
Qed.

Lemma le_bytes_unsigned bs : le_bytes (length bs) (le_unsigned bs) = bs.
Proof.
  induction bs as [|b bs IH]; [done|]. cbn [le_unsigned length le_bytes].
  pose proof (b2z_range b). f_equal.
  - rewrite Z.mul_comm, z2b_add. apply z2b_b2z.
  - etrans; [|apply IH]. f_equal. zdiv.
Qed.

Lemma le_bytes_wrap n : ∀ v k, le_bytes n (v + k * 256 ^ Z.of_nat n) = le_bytes n v.
Proof.
  induction n as [|n IH]; intros v k; [done|]. cbn [le_bytes].
  rewrite Nat2Z.inj_succ, Z.pow_succ_r by lia. f_equal.
  - replace (v + k * (256 * 256 ^ Z.of_nat n))
      with (v + (k * 256 ^ Z.of_nat n) * 256) by lia.
    apply z2b_add.
  - rewrite <- (IH (v / 256) k). f_equal.
    replace (v + k * (256 * 256 ^ Z.of_nat n))
      with (v + (k * 256 ^ Z.of_nat n) * 256) by lia.
    by rewrite Z.div_add.
Qed.

Lemma le_bytes_signed bs :
  le_bytes (length bs) (to_signed (8 * Z.of_nat (length bs)) (le_unsigned bs)) = bs.
Proof.
  unfold to_signed. case_match; [apply le_bytes_unsigned|].
  etrans; [|apply le_bytes_unsigned].
  replace (2 ^ (8 * Z.of_nat (length bs))) with (256 ^ Z.of_nat (length bs)).
  - apply (le_bytes_wrap _ _ (-1)).
  - change 256 with (2 ^ 8). by rewrite <- Z.pow_mul_r by lia.
Qed.

Lemma to_signed_range w v :
  0 < w → 0 ≤ v < 2 ^ w → - 2 ^ (w - 1) ≤ to_signed w v < 2 ^ (w - 1).
Proof.
  intros Hw Hv. unfold to_signed.
  assert (2 ^ w = 2 * 2 ^ (w - 1)) as E.
  { rewrite <- Z.pow_succ_r by lia. f_equal. lia. }
  destruct (Z.ltb_spec v (2 ^ (w - 1))); lia.
Qed.

(** ** Segments of the handle *)

Lemma segment_app d p q r :
  0 ≤ p ≤ q → q ≤ r → segment d p q ++ segment d q r = segment d p r.
Proof.
  intros Hp Hq. unfold segment.
  replace (Z.to_nat q) with (Z.to_nat p + Z.to_nat (q - p))%nat by lia.
  rewrite <- drop_drop, take_take_drop. f_equal. lia.
Qed.

Lemma segment_nil d p : segment d p p = [].
Proof. unfold segment. by rewrite Z.sub_diag. Qed.

Lemma segment_length d p q :
  0 ≤ p ≤ q → q ≤ Z.of_nat (length d) → length (segment d p q) = Z.to_nat (q - p).
Proof.
  intros Hp Hq. unfold segment. rewrite length_take, length_drop. lia.
Qed.

Lemma readBytes_segment n h bs h' :
  readBytes n h = (Ok bs, h') →
  0 ≤ pos h ∧ pos h + Z.of_nat n ≤ Handle_length h ∧
  bs = segment (bytes h) (pos h) (pos h + Z.of_nat n) ∧ length bs = n ∧
  h' = mkHandle (bytes h) (pos h + Z.of_nat n).
Proof.
  intros H. pose proof H as (H1 & H2 & _ & ->)%readBytes_inv.
  rewrite readBytes_ok in H by done. injection H as <-.
  repeat split; [done..|]. unfold Handle_length in H2.
  rewrite segment_length; lia.
Qed.

Ltac norm_width :=
  change (Z.of_nat 1) with 1 in *; change (Z.of_nat 2) with 2 in *;
  change (Z.of_nat 4) with 4 in *.

(** What a fixed-width read tells about the bytes under the cursor. *)
Lemma r8_bytes h v h' :
  r8 h = (Ok v, h') →
  0 ≤ pos h ∧ h' = mkHandle (bytes h) (pos h + 1) ∧
  segment (bytes h) (pos h) (pos h + 1) = le_bytes 1 v ∧ 0 ≤ v < 256.
Proof.
  unfold r8. intros (bs & h1 & Hr & [= <- <-])%bind_ok_inv.
  apply readBytes_segment in Hr as (? & ? & E & Hl & ->).
  norm_width. rewrite <- E.
  repeat split; [done| |pose proof (le_unsigned_range bs); rewrite Hl in *; lia..].
  pose proof (le_bytes_unsigned bs) as Hs. by rewrite Hl in Hs.
Qed.

Lemma r16_bytes h v h' :
  r16 h = (Ok v, h') →
  0 ≤ pos h ∧ h' = mkHandle (bytes h) (pos h + 2) ∧
  segment (bytes h) (pos h) (pos h + 2) = le_bytes 2 v ∧
  - 2 ^ 15 ≤ v < 2 ^ 15.
Proof.
  unfold r16. intros (bs & h1 & Hr & [= <- <-])%bind_ok_inv.
  apply readBytes_segment in Hr as (? & ? & E & Hl & ->).
  norm_width. rewrite <- E.
  repeat split; [done| |apply (to_signed_range 16);
    [done|pose proof (le_unsigned_range bs); rewrite Hl in *; lia]..].
  pose proof (le_bytes_signed bs) as Hs. by rewrite Hl in Hs.
Qed.

Lemma r32_bytes h v h' :
  r32 h = (Ok v, h') →
  0 ≤ pos h ∧ h' = mkHandle (bytes h) (pos h + 4) ∧
  segment (bytes h) (pos h) (pos h + 4) = le_bytes 4 v ∧
  - 2 ^ 31 ≤ v < 2 ^ 31.
Proof.
  unfold r32. intros (bs & h1 & Hr & [= <- <-])%bind_ok_inv.
  apply readBytes_segment in Hr as (? & ? & E & Hl & ->).
  norm_width. rewrite <- E.
  repeat split; [done| |apply (to_signed_range 32);
    [done|pose proof (le_unsigned_range bs); rewrite Hl in *; lia]..].
  pose proof (le_bytes_signed bs) as Hs. by rewrite Hl in Hs.
Qed.

(** ** Reading moves the cursor forward *)

#[global] Instance advances_preorder : PreOrder advances.
Proof.
  split; [done|]. intros a b c (H1 & H2 & H3) (H4 & H5 & H6).
  unfold advances, Handle_length in *. rewrite H4, H1 in *.
  split; [done|]. split; [lia|]. auto.
Qed.

Lemma readBytes_advances n : preserves advances (readBytes n).
Proof.
  intros h r h'. unfold readBytes. case_match eqn:E; intros [= <- <-]; [|done].
  apply andb_true_iff in E as [?%Z.leb_le ?%Z.leb_le].
  unfold advances, Handle_length in *. simpl. split; [done|]. lia.
Qed.

Lemma r8_advances : preserves advances r8.
Proof. unfold r8. preserves_step; [apply readBytes_advances|preserves_step]. Qed.
Lemma r16_advances : preserves advances r16.
Proof. unfold r16. preserves_step; [apply readBytes_advances|preserves_step]. Qed.
Lemma r32_advances : preserves advances r32.
Proof. unfold r32. preserves_step; [apply readBytes_advances|preserves_step]. Qed.
Lemma rf_advances : preserves advances rf.
Proof. unfold rf. preserves_step; [apply readBytes_advances|preserves_step]. Qed.

Ltac handle_preserves :=
  repeat first
    [ apply readBytes_advances | apply r8_advances | apply r16_advances
    | apply r32_advances | apply rf_advances
    | preserves_step ].

Lemma rs_length_advances fuel : ∀ shift acc,
  preserves advances (rs_length fuel shift acc).
Proof.
  induction fuel as [|fuel IH]; intros shift acc; simpl; handle_preserves.
  apply IH.
Qed.

Lemma rs_advances env : preserves advances (rs env).
Proof.
  unfold rs. preserves_step; [apply rs_length_advances|]. handle_preserves.
Qed.

(** ** Chests (C7) *)

Lemma slot_items_cons inf s slots :
  slot_items inf (s :: slots)
  = (if 0 <? slot_stack s
     then [mkItem (slot_stack s) (items inf (slot_item s))
                  (prefixes inf (slot_prefix s))]
     else []) ++ slot_items inf slots.
Proof.
  unfold slot_items. rewrite filter_cons.
  destruct (Z.ltb_spec 0 (slot_stack s)); case_decide; try lia; done.
Qed.

(** The slots a successful run of the inner loop has read: they lie in the
    bytes between the cursor before and the cursor after, and the items
    appended are those of the slots with a positive stack. *)
Lemma loadChest_items_slots inf k : ∀ acc h its h',
  loadChest_items inf k acc h = (Ok its, h') →
  ∃ slots,
    length slots = k ∧ Forall slot_ok slots ∧
    bytes h' = bytes h ∧ pos h ≤ pos h' ∧ (k ≠ O → 0 ≤ pos h) ∧
    segment (bytes h) (pos h) (pos h') = slots ≫= slot_bytes ∧
    its = acc ++ slot_items inf slots.
Proof.
  induction k as [|k IH]; intros acc h its h' H.
  - injection H as <- <-. exists []. rewrite segment_nil, app_nil_r.
    repeat split; [by constructor|lia|done].
  - cbn [loadChest_items] in H.
    apply bind_ok_inv in H as (stack & h1 & Hs & H).
    apply r16_bytes in Hs as (Hp & -> & Eb & Hr).
    apply bind_ok_inv in H as (acc' & h2 & Hi & H).
    destruct (Z.ltb_spec 0 stack) as [Hpos|Hpos].
    + apply bind_ok_inv in Hi as (id & h3 & Hid & Hi).
      apply r32_bytes in Hid as (_ & -> & Eid & Hrid).
      apply bind_ok_inv in Hi as (pfx & h4 & Hpf & Hi).
      apply r8_bytes in Hpf as (_ & -> & Epf & Hrpf). cbn [pos bytes] in *.
      injection Hi as <- <-.
      apply IH in H as (slots & Hl & Hok & Hb & Hle & _ & Hseg & ->).
      cbn [pos bytes] in *. exists (mkSlot stack id pfx :: slots).
      split; [simpl; lia|]. split; [by constructor|]. split; [done|].
      split; [lia|]. split; [done|]. split.
      * rewrite bind_cons. unfold slot_bytes at 1.
        cbn [slot_stack slot_item slot_prefix].
        rewrite (proj2 (Z.ltb_lt _ _) Hpos), <- Eb, <- Eid, <- Epf, <- Hseg.
        rewrite !segment_app by lia. done.
      * rewrite slot_items_cons. cbn [slot_stack slot_item slot_prefix].
        rewrite (proj2 (Z.ltb_lt _ _) Hpos). by rewrite <- app_assoc.
    + injection Hi as <- <-.
      apply IH in H as (slots & Hl & Hok & Hb & Hle & _ & Hseg & ->).
      cbn [pos bytes] in *. exists (mkSlot stack 0 0 :: slots).
      split; [simpl; lia|]. split; [constructor; [done|done]|]. split; [done|].
      split; [lia|]. split; [done|]. split.
      * rewrite bind_cons. unfold slot_bytes at 1.
        cbn [slot_stack slot_item slot_prefix].
        rewrite (proj2 (Z.ltb_ge _ _) Hpos), <- Eb, <- Hseg, app_nil_r.
        rewrite !segment_app by lia. done.
      * rewrite slot_items_cons. cbn [slot_stack slot_item slot_prefix].
        by rewrite (proj2 (Z.ltb_ge _ _) Hpos).
Qed.

Lemma chests_at_app env inf d n cs : ∀ p c q q',
  chests_at env inf d n p cs q → chests_at env inf d n q [c] q' →
  chests_at env inf d n p (cs ++ [c]) q'.
Proof.
  induction cs as [|c0 cs IH]; intros p c q q' H1 H2.
  - cbn [chests_at] in H1. by subst q.
  - cbn [chests_at app] in *.
    destruct H1 as (slots & p1 & p2 & Hx & Hy & Hn & Hl & Hok & Hp & Hs & Hi & H1).
    exists slots, p1, p2. repeat split; try done; try lia. by eapply IH.
Qed.

Lemma r32_within h v h' : r32 h = (Ok v, h') → pos h + 4 ≤ Handle_length h.
Proof.
  unfold r32. intros (bs & h1 & Hr & _)%bind_ok_inv.
  apply readBytes_inv in Hr as (_ & Hl & _). exact Hl.
Qed.

Lemma loadChest_items_advances inf k : ∀ acc,
  preserves advances (loadChest_items inf k acc).
Proof.
  induction k as [|k IH]; intros acc; cbn [loadChest_items]; handle_preserves.
  apply IH.
Qed.

(** One chest: the record read lies where the cursor was, and the cursor
    ends behind its slots. *)
Lemma loadChest_at env inf ipc h c h' :
  loadChest env inf ipc h = (Ok c, h') →
  bytes h' = bytes h ∧ pos h' ≤ Handle_length h ∧
  chests_at env inf (bytes h) (Z.to_nat ipc) (pos h) [c] (pos h').
Proof.
  unfold loadChest. intros H. destruct h as [d p].
  apply bind_ok_inv in H as (x & h1 & Hx & H).
  pose proof (r32_within _ _ _ Hx) as Hw.
  pose proof Hx as (Hp & -> & _)%r32_bytes.
  apply bind_ok_inv in H as (y & h2 & Hy & H).
  pose proof (r32_within _ _ _ Hy) as Hw2.
  pose proof Hy as (_ & -> & _)%r32_bytes.
  apply bind_ok_inv in H as (name & h3 & Hn & H).
  pose proof (rs_advances env _ _ _ Hn) as (Hb3 & Hp3 & Hl3).
  destruct h3 as [d3 p3]. cbn [pos bytes] in *. subst d3.
  unfold Handle_length in *. cbn [pos bytes] in *.
  apply bind_ok_inv in H as (its & h4 & Hi & H). injection H as <- <-.
  pose proof (loadChest_items_advances _ _ _ _ _ _ Hi) as (_ & _ & Hl4).
  unfold Handle_length in Hl4. cbn [pos bytes] in Hl4.
  apply loadChest_items_slots in Hi
    as (slots & Hl & Hok & Hb & Hle & _ & Hseg & ->).
  cbn [pos bytes] in *. rewrite Hb in *.
  split; [done|]. split; [lia|].
  cbn [chests_at chest_x chest_y chest_name chest_items].
  exists slots, p3, (pos h4).
  replace (p + 4 + 4) with (p + 8) in * by lia.
  repeat split; try done; lia.
Qed.

(** What holds after every turn of a counted loop that succeeds. *)
Lemma for_loop_invariant {S} (I : nat → S → Prop) (body : Z → M S unit) k :
  ∀ n i s s',
    (∀ n j s s', I n s → body j s = (Ok tt, s') → I (Datatypes.S n) s') →
    I n s → for_loop k i body s = (Ok tt, s') → I (n + k)%nat s'.
Proof.
  induction k as [|k IH]; intros n i s s' Hb Hi H.
  - injection H as <-. by rewrite Nat.add_0_r.
  - cbn [for_loop] in H. apply bind_ok_inv in H as ([] & s1 & H1 & H).
    replace (n + Datatypes.S k)%nat with (Datatypes.S n + k)%nat by lia.
    eapply IH; [done| |done]. by eapply Hb.
Qed.

Lemma loadChests_turn_at env ipc s s' :
  loadChests_turn env ipc s = (Ok tt, s') →
  bytes (cur s') = bytes (cur s) ∧
  pos (cur s') ≤ Handle_length (cur s) ∧ emitted s' = emitted s ∧
  ∃ c, world s' = set_chests (chests (world s) ++ [c]) (world s) ∧
       chests_at env (info (world s)) (bytes (cur s)) (Z.to_nat ipc)
         (pos (cur s)) [c] (pos (cur s')).
Proof.
  unfold loadChests_turn. intros H.
  apply bind_ok_inv in H as (inf & s1 & [= <- <-] & H).
  apply bind_ok_inv in H as (c & s2 & Hc & H).
  apply rd_inv in Hc as (h' & Hc & ->). injection H as <-.
  apply loadChest_at in Hc as (Hb & Hl & Hc). simpl.
  split; [done|]. split; [done|]. split; [done|]. eauto.
Qed.

(** C7: every chest of the chests section holds the items of the slots
    with a positive stack, in slot order. With [numChests] and
    [itemsPerChest] the two counts at the head of the section, the world
    holds [numChests] chests, which are the records laid out one after the
    other behind the counts, up to the cursor; every record has
    [itemsPerChest] slots, a slot whose stack is not positive being its two
    bytes alone; nothing else of the world changes. *)
Theorem loadChests_items env st st' numChests itemsPerChest h1 h2 :
  r16 (cur st) = (Ok numChests, h1) →
  r16 h1 = (Ok itemsPerChest, h2) →
  loadChests env st = (Ok tt, st') →
  length (chests (world st')) = Z.to_nat numChests ∧
  chests_at env (info (world st)) (bytes (cur st)) (Z.to_nat itemsPerChest)
    (pos (cur st) + 4) (chests (world st')) (pos (cur st')) ∧
  bytes (cur st') = bytes (cur st) ∧
  world st' = set_chests (chests (world st')) (world st) ∧
  emitted st' = emitted st ++ [status "Loading Chests..."].
Proof.
  intros Hn0 Hi0. unfold loadChests. intros H.
  apply bind_ok_inv in H as ([] & s1 & [= <-] & H).
  apply bind_ok_inv in H as ([] & s2 & [= <-] & H).
  apply bind_ok_inv in H as (n & s3 & Hn & H).
  apply rd_inv in Hn as (h3 & Hn & ->). cbn [cur] in Hn.
  rewrite Hn0 in Hn. injection Hn as <- <-.
  apply bind_ok_inv in H as (ipc & s4 & Hi & H).
  apply rd_inv in Hi as (h4 & Hi & ->). cbn [cur set_cur] in Hi.
  rewrite Hi0 in Hi. injection Hi as <- <-.
  apply r16_bytes in Hn0 as (Hp & -> & _).
  apply r16_bytes in Hi0 as (_ & -> & _). cbn [pos bytes] in *.
  unfold for_range in H.
  apply (for_loop_invariant
           (λ k s, bytes (cur s) = bytes (cur st) ∧
                   info (world s) = info (world st) ∧
                   length (chests (world s)) = k ∧
                   chests_at env (info (world st)) (bytes (cur st))
                     (Z.to_nat itemsPerChest) (pos (cur st) + 4)
                     (chests (world s)) (pos (cur s)) ∧
                   set_chests [] (world s) = set_chests [] (world st) ∧
                   emitted s = emitted st ++ [status "Loading Chests..."])
           _ _ 0%nat)
    in H as (Hb & _ & Hlen & Hat & Hfr & He).
  - split; [done|]. split; [done|]. split; [done|]. split; [|done].
    apply (f_equal (set_chests (chests (world st')))) in Hfr.
    destruct (world st'), (world st). exact Hfr.
  - intros k j s s' (Hb & Hinf & Hlen & Hat & Hfr & He) Ht.
    apply loadChests_turn_at in Ht as (Hb' & _ & He' & c & Hw & Hc).
    rewrite Hw. cbn [info chests set_chests].
    rewrite Hb, Hinf in *.
    split; [done|]. split; [done|]. split; [rewrite length_app; simpl; lia|].
    split; [by eapply chests_at_app|]. split; [|congruence].
    rewrite <- Hfr. by destruct (world s).
  - cbn [cur set_cur world set_world emitted pos bytes chests set_chests
         chests_at info].
    split; [done|]. split; [done|]. split; [done|]. split; [lia|].
    split; [by destruct (world st)|done].
Qed.

Lemma loadChests_items_witness :
  let st := example_state "" 0 0 [] example_chests in
  let st' := mkSt (mkHandle example_chests 31)
               (set_chests
                  [mkChest 10 20 "hi"
                     [mkItem 2 "item 5" "prefix 1"; mkItem 1 "item 7" "prefix 0"]]
                  (world st))
               [status "Loading Chests..."] in
  loadChests example_env st = (Ok tt, st') ∧
  length (chests (world st')) = 1%nat ∧
  chests_at example_env example_info example_chests 3 4 (chests (world st')) 31.
Proof.
  intros st st'.
  assert (loadChests example_env st = (Ok tt, st')) as E
    by (vm_compute; reflexivity).
  split; [exact E|].
  destruct (loadChests_items example_env st st' 1 3
              (mkHandle example_chests 2) (mkHandle example_chests 4)
              eq_refl eq_refl E) as (Hl & Hat & _).
  split; [exact Hl|exact Hat].
Defined.


(** ** The version word (C8) *)

(** C8: a version above [HighestVersion], or below [MinimumVersion], ends
    [run] with the matching [loadError] and nothing else: the cursor stays
    behind the four bytes of the version word and the world is as it was.
    The two constants come from world.h, which is not among the sources;
    the second part takes them in their order,
    [MinimumVersion <= HighestVersion], so that a version below the
    minimum is not above the maximum. *)
Theorem run_version_rejected env st version h1 :
  let h0 := mkHandle (file_bytes env (filename (world st))) 0 in
  r32 h0 = (Ok version, h1) →
  (HighestVersion env < version →
   run env st
   = (Ok tt, mkSt (mkHandle (bytes h0) 4) (world st)
               (emitted st ++
                [loadError ("Unsupported map version: " +:+ pretty version)]))) ∧
  (MinimumVersion env ≤ HighestVersion env → version < MinimumVersion env →
   run env st
   = (Ok tt, mkSt (mkHandle (bytes h0) 4) (world st)
               (emitted st ++
                [loadError "We no longer support maps this old"]))).
Proof.
  intros h0 Hv. pose proof Hv as (_ & -> & _)%r32_bytes.
  unfold run, mbind, M_bind, the, gets, modify, rd, zoom, set_cur. simpl.
  fold h0. rewrite Hv. split.
  - intros Hhi. rewrite (proj2 (Z.ltb_lt _ _) Hhi). done.
  - intros Hc Hlo.
    assert (version ≤ HighestVersion env) as Hhi by lia.
    rewrite (proj2 (Z.ltb_ge _ _ ) Hhi), (proj2 (Z.ltb_lt _ _) Hlo). done.
Qed.

Lemma run_version_rejected_witness :
  run example_env (example_state "new.wld" 0 0 [] [])
  = (Ok tt, mkSt (mkHandle (example_files "new.wld") 4)
              (example_world "new.wld" 0 0 [])
              [loadError "Unsupported map version: 1000"]) ∧
  run example_env (example_state "old.wld" 0 0 [] [])
  = (Ok tt, mkSt (mkHandle (example_files "old.wld") 4)
              (example_world "old.wld" 0 0 [])
              [loadError "We no longer support maps this old"]).
Proof.
  split.
  - refine (proj1 (run_version_rejected example_env
                     (example_state "new.wld" 0 0 [] []) 1000
                     (mkHandle (example_files "new.wld") 4) eq_refl) _).
    vm_compute. reflexivity.
  - refine (proj2 (run_version_rejected example_env
                     (example_state "old.wld" 0 0 [] []) 5
                     (mkHandle (example_files "old.wld") 4) eq_refl) _ _);
      vm_compute; congruence.
Defined.

(** ** The player map writes the seen flag only (C9) *)

Lemma set_tiles_tiles w : set_tiles (tiles w) w = w.
Proof. by destruct w. Qed.

#[global] Instance seen_only_preorder : PreOrder seen_only.
Proof.
  split.
  - intros s. split; [by rewrite set_tiles_tiles|done].
  - intros s1 s2 s3 [H1 H2] [H3 H4]. split; [|congruence].
    etrans; [exact H3|]. rewrite H1. reflexivity.
Qed.

Lemma unseen_setSeen b a :
  Tile.setSeen false (Tile.setSeen b a) = Tile.setSeen false a.
Proof.
  destruct b; unfold Tile.setSeen, Tile.set_flags; simpl; f_equal.
  - apply Z.bits_inj'. intros n Hn.
    rewrite !Z.land_spec, Z.lor_spec.
    destruct (Z.testbit 512 n) eqn:E; [|by rewrite orb_false_r].
    rewrite Z.lnot_spec, E by done. simpl. by rewrite !andb_false_r.
  - by rewrite <- Z.land_assoc, Z.land_diag.
Qed.

Lemma rd_seen_only {A} (m : M Handle A) : preserves seen_only (rd m).
Proof.
  intros s r s' (h' & _ & ->)%rd_inv. simpl.
  split; [by rewrite set_tiles_tiles|done].
Qed.

Lemma the_seen_only {A} (f : World → A) : preserves seen_only (the f).
Proof. apply (preserves_gets seen_only). Qed.

Lemma emit_seen_only e : preserves seen_only (emit e).
Proof.
  apply (preserves_modify seen_only). intros s. simpl.
  split; [by rewrite set_tiles_tiles|done].
Qed.

Lemma set_cur_seen_only h : preserves seen_only (modify (set_cur h)).
Proof.
  apply (preserves_modify seen_only). intros s. simpl.
  split; [by rewrite set_tiles_tiles|done].
Qed.

Lemma tile_get_seen_only offset : preserves seen_only (tile_get offset).
Proof.
  unfold tile_get. preserves_step; [apply the_seen_only|].
  apply (preserves_index seen_only).
Qed.

Lemma index_inv {S A} c (l : list A) i (s : S) a s' :
  index c l i s = (Ok a, s') → 0 ≤ i ∧ l !! Z.to_nat i = Some a ∧ s' = s.
Proof.
  unfold index. destruct (Z.leb_spec 0 i); [|done].
  destruct (l !! Z.to_nat i); [|done]. by intros [= <- <-].
Qed.

Lemma tile_get_inv offset s a s' :
  tile_get offset s = (Ok a, s') →
  0 ≤ offset ∧ tiles (world s) !! Z.to_nat offset = Some a ∧ s' = s.
Proof.
  unfold tile_get. intros (ts & s1 & [= <- <-] & H)%bind_ok_inv.
  by apply index_inv in H.
Qed.

Lemma tile_setSeen_seen_only offset b :
  preserves seen_only (tile_setSeen offset b).
Proof.
  intros s r s'. unfold tile_setSeen.
  intros [(a & s1 & H1 & H)|(e & H1 & _)]%bind_inv;
    [|by apply tile_get_seen_only in H1].
  apply tile_get_inv in H1 as (_ & Ha & ->). unfold tile_put in H.
  apply bind_inv in H as [(a' & s1 & H1 & H)|(e & H1 & _)];
    [|by apply tile_get_seen_only in H1].
  apply tile_get_inv in H1 as (_ & _ & ->). injection H as <- <-. simpl.
  split; [done|]. unfold set_world, set_tiles. cbn [world tiles].
  rewrite list_fmap_insert, unseen_setSeen. apply list_insert_id.
  by rewrite list_lookup_fmap, Ha.
Qed.

Lemma with_handle_seen_only {A} h (m : M St A) :
  preserves seen_only m → preserves seen_only (with_handle h m).
Proof.
  intros Hm s r s'. unfold with_handle.
  destruct (m (set_cur h s)) as [r1 s1] eqn:E. intros [= <- <-].
  apply Hm in E as [E1 E2]. simpl in *. done.
Qed.

Ltac seen_preserves :=
  repeat first
    [ apply rd_seen_only | apply the_seen_only | apply emit_seen_only
    | apply set_cur_seen_only | apply tile_setSeen_seen_only
    | apply tile_get_seen_only
    | apply with_handle_seen_only
    | apply (preserves_gets seen_only)
    | preserves_step ].

Lemma seen_run1_seen_only k : ∀ b y offset,
  preserves seen_only (seen_run1 k b y offset).
Proof.
  induction k as [|k IH]; intros b y offset; simpl; seen_preserves. apply IH.
Qed.

Lemma loadPlayer1_column_seen_only fuel : ∀ version y offset,
  preserves seen_only (loadPlayer1_column fuel version y offset).
Proof.
  induction fuel as [|fuel IH]; intros version y offset; simpl;
    seen_preserves; try apply seen_run1_seen_only; apply IH.
Qed.

Lemma loadPlayer1_seen_only env version :
  preserves seen_only (loadPlayer1 env version).
Proof.
  unfold loadPlayer1. seen_preserves. apply loadPlayer1_column_seen_only.
Qed.

Lemma seen_run2_seen_only k : ∀ b light x offset,
  preserves seen_only (seen_run2 k b light x offset).
Proof.
  induction k as [|k IH]; intros b light x offset; simpl; seen_preserves.
  apply IH.
Qed.

Lemma loadPlayer2_row_seen_only fuel : ∀ x offset,
  preserves seen_only (loadPlayer2_row fuel x offset).
Proof.
  induction fuel as [|fuel IH]; intros x offset; simpl;
    seen_preserves; try apply seen_run2_seen_only; apply IH.
Qed.

Lemma loadPlayer2_seen_only env version :
  preserves seen_only (loadPlayer2 env version).
Proof.
  unfold loadPlayer2, loadPlayer2_body. seen_preserves;
    apply loadPlayer2_row_seen_only.
Qed.

Lemma mark_all_seen_seen_only : preserves seen_only mark_all_seen.
Proof. unfold mark_all_seen. seen_preserves. Qed.

Lemma loadPlayer_seen_only env : preserves seen_only (loadPlayer env).
Proof.
  unfold loadPlayer. seen_preserves;
    [apply mark_all_seen_seen_only|apply loadPlayer1_seen_only
    |apply loadPlayer2_seen_only].
Qed.

(** ** The missing player map (C5) *)

Lemma tile_setSeen_ok offset b s a :
  0 ≤ offset → tiles (world s) !! Z.to_nat offset = Some a →
  tile_setSeen offset b s
  = (Ok tt, set_world (set_tiles (<[Z.to_nat offset := Tile.setSeen b a]>
                                    (tiles (world s))) (world s)) s).
Proof.
  intros Ho Ha.
  unfold tile_setSeen, tile_put, tile_get, index, the, gets, upd, modify,
    mbind, M_bind, mret, M_ret.
  rewrite (proj2 (Z.leb_le _ _) Ho), Ha. cbv beta iota. by rewrite Ha.
Qed.

(** The grid after its first [n] cells have been marked. *)
Lemma marked_step (ts : list Tile.t) n a :
  ts !! n = Some a →
  <[n := Tile.setSeen true a]> ((Tile.setSeen true <$> take n ts) ++ drop n ts)
  = (Tile.setSeen true <$> take (S n) ts) ++ drop (S n) ts.
Proof.
  intros Ha. pose proof (lookup_lt_Some _ _ _ Ha) as Hl.
  rewrite insert_app_r_alt by (rewrite length_fmap, length_take; lia).
  rewrite length_fmap, length_take, Nat.min_l, Nat.sub_diag by lia.
  rewrite (drop_S _ _ _ Ha), (take_S_r _ _ _ Ha), fmap_app, <- app_assoc.
  done.
Qed.

Lemma marked_lookup (ts : list Tile.t) n a :
  ts !! n = Some a →
  ((Tile.setSeen true <$> take n ts) ++ drop n ts) !! n = Some a.
Proof.
  intros Ha. pose proof (lookup_lt_Some _ _ _ Ha) as Hl.
  rewrite lookup_app_r by (rewrite length_fmap, length_take; lia).
  rewrite length_fmap, length_take, Nat.min_l, Nat.sub_diag by lia.
  by rewrite lookup_drop, Nat.add_0_r.
Qed.

Lemma marked_S ts n a s :
  ts !! n = Some a →
  set_world (set_tiles (<[n := Tile.setSeen true a]>
                          (tiles (world (marked ts n s))))
               (world (marked ts n s))) (marked ts n s)
  = marked ts (S n) s.
Proof.
  intros Ha. unfold marked, set_world, set_tiles.
  cbn [world tiles cur emitted filename player info header tilesWide
       tilesHigh chests signs npcs entities kills seen chats shimmered].
  by rewrite marked_step.
Qed.

Lemma mark_row ts k : ∀ i n s,
  (n + k ≤ length ts)%nat →
  for_fold k i (Z.of_nat n)
    (λ _ offset, tile_setSeen offset true;; mret (offset + 1)) (marked ts n s)
  = (Ok (Z.of_nat (n + k)), marked ts (n + k) s).
Proof.
  induction k as [|k IH]; intros i n s Hk.
  - by rewrite Nat.add_0_r.
  - destruct (lookup_lt_is_Some_2 ts n) as [a Ha]; [lia|].
    cbn [for_fold]. unfold mbind at 1, M_bind at 1. unfold mbind at 1, M_bind at 1.
    rewrite (tile_setSeen_ok _ _ _ a); [|lia|].
    2:{ rewrite Nat2Z.id. simpl. by apply marked_lookup. }
    unfold mret at 1, M_ret at 1. rewrite Nat2Z.id, marked_S by done.
    replace (Z.of_nat n + 1) with (Z.of_nat (S n)) by lia.
    replace (n + S k)%nat with (S n + k)%nat by lia.
    apply (IH _ (S n) s). lia.
Qed.

Lemma mark_rows ts k : ∀ i n s,
  (n + k * Z.to_nat (tilesWide (world s)) ≤ length ts)%nat →
  for_fold k i (Z.of_nat n)
    (λ _ offset,
       w ← the tilesWide;
       for_fold (Z.to_nat w) 0 offset
         (λ _ offset, tile_setSeen offset true;; mret (offset + 1)))
    (marked ts n s)
  = (Ok (Z.of_nat (n + k * Z.to_nat (tilesWide (world s)))),
     marked ts (n + k * Z.to_nat (tilesWide (world s))) s).
Proof.
  induction k as [|k IH]; intros i n s Hk.
  - by rewrite Nat.add_0_r.
  - cbn [for_fold]. unfold mbind at 1, M_bind at 1.
    unfold mbind at 1, M_bind at 1, the at 1, gets at 1.
    cbn [marked set_world world set_tiles tilesWide].
    rewrite (mark_row ts _ 0 n s) by lia.
    replace (n + S k * Z.to_nat (tilesWide (world s)))%nat
      with ((n + Z.to_nat (tilesWide (world s)))
            + k * Z.to_nat (tilesWide (world s)))%nat by lia.
    apply IH. lia.
Qed.

Lemma seen_setSeen a : Tile.seen (Tile.setSeen true a) = true.
Proof.
  unfold Tile.seen, Tile.setSeen. simpl. change 512 with (2 ^ 9).
  rewrite truthy_land_pow2, Z.lor_spec, Z.pow2_bits_true by lia.
  apply orb_true_r.
Qed.

(** C5: when neither the path made of the GUID nor the path made of the
    world id exists, [loadPlayer] returns without a failure and without a
    signal, the handle of the world untouched, and every tile of the grid
    has its seen flag set (and nothing else changed). The grid is that of a
    loaded world: [tilesWide * tilesHigh] tiles, both sizes not negative. *)
Theorem loadPlayer_missing_map env st :
  let w := world st in
  (∀ g, hdr_guid (header w) = Some g →
        dir_exists env (guid_map_path env w g) = false) →
  dir_exists env (worldID_map_path env w) = false →
  0 ≤ tilesWide w → 0 ≤ tilesHigh w →
  length (tiles w) = Z.to_nat (tilesWide w * tilesHigh w) →
  loadPlayer env st
  = (Ok tt, mkSt (cur st) (set_tiles (Tile.setSeen true <$> tiles w) w)
              (emitted st)) ∧
  Forall (λ a, Tile.seen a = true) (Tile.setSeen true <$> tiles w).
Proof.
  intros w Hguid Hid Hw Hh Hlen. split.
  - assert (dir_exists env (map_path env w) = false) as Hpath.
    { unfold map_path. destruct (hdr_guid (header w)) as [g|] eqn:Eg.
      - by rewrite (Hguid g eq_refl).
      - done. }
    unfold loadPlayer, mbind at 1, M_bind at 1, gets at 1. fold w.
    rewrite Hpath. cbn [negb].
    unfold mark_all_seen, mbind at 1, M_bind at 1, the at 1, gets at 1.
    fold w. unfold mbind at 1, M_bind at 1.
    assert (st = marked (tiles w) 0 st) as E.
    { unfold marked. simpl. rewrite drop_0. destruct st as [? [] ?]; done. }
    rewrite E at 1. change 0 with (Z.of_nat 0) at 2.
    rewrite mark_rows by (fold w; nia).
    unfold mret at 1, M_ret at 1. f_equal. unfold marked. fold w.
    replace (0 + Z.to_nat (tilesHigh w) * Z.to_nat (tilesWide w))%nat
      with (length (tiles w)) by nia.
    rewrite firstn_all, drop_all, app_nil_r. done.
  - apply Forall_fmap, Forall_forall. intros a _. apply seen_setSeen.
Qed.

Lemma loadPlayer_missing_map_witness :
  let ts := [blank_tile; Tile.set_type 7 blank_tile;
             Tile.set_flags 0x201 blank_tile; blank_tile] in
  let st := example_state "w" 2 2 ts [] in
  loadPlayer example_env st
  = (Ok tt, mkSt (cur st) (set_tiles (Tile.setSeen true <$> ts) (world st)) []) ∧
  Forall (λ a, Tile.seen a = true) (Tile.setSeen true <$> ts).
Proof.
  intros ts st.
  apply (loadPlayer_missing_map example_env st).
  - intros g Hg. vm_compute in Hg. discriminate Hg.
  - reflexivity.
  - vm_compute. discriminate.
  - vm_compute. discriminate.
  - reflexivity.
Defined.


(** ** The failures of a computation *)

Section FailsWith.
Context {S : Type} (P : Err → Prop).

Lemma fails_ret {A} (a : A) : fails_with P (mret a : M S A).
Proof. by intros s e s'. Qed.

Lemma fails_fail {A} e : P e → fails_with P (fail e : M S A).
Proof. by intros He s e' s' [= <- <-]. Qed.

Lemma fails_gets {A} (f : S → A) : fails_with P (gets f).
Proof. by intros s e s'. Qed.

Lemma fails_modify (f : S → S) : fails_with P (modify f).
Proof. by intros s e s'. Qed.

Lemma fails_bind {A B} (m : M S A) (k : A → M S B) :
  fails_with P m → (∀ a, fails_with P (k a)) → fails_with P (m ≫= k).
Proof.
  intros Hm Hk s e s' [(a & s1 & H1 & H2)|(e' & H1 & [= <-])]%bind_inv.
  - by eapply Hk.
  - by eapply Hm.
Qed.

Lemma fails_when (b : bool) (m : M S unit) :
  fails_with P m → fails_with P (when b m).
Proof. destruct b; [done|]. intros _. apply fails_ret. Qed.

Lemma fails_index {A} c (l : list A) i :
  P (IndexOutOfRange c i) → fails_with P (index c l i : M S A).
Proof.
  intros Hp. unfold index. repeat case_match; auto using fails_ret, fails_fail.
Qed.

Lemma fails_zoom {T A} (proj : S → T) upd (m : M T A) :
  fails_with P m → fails_with P (zoom proj upd m).
Proof.
  intros Hm s e s'. unfold zoom. destruct (m (proj s)) as [r t] eqn:E.
  intros [= -> <-]. by eapply Hm.
Qed.
End FailsWith.

Lemma readBytes_fails n : fails_with (λ e, e = UnexpectedEof) (readBytes n).
Proof. intros h e h'. unfold readBytes. case_match; by intros [= <- <-]. Qed.

Lemma fails_weaken {S A} (P Q : Err → Prop) (m : M S A) :
  (∀ e, P e → Q e) → fails_with P m → fails_with Q m.
Proof. intros HPQ Hm s e s' H. eapply HPQ, Hm, H. Qed.

Ltac fails_step :=
  lazymatch goal with
  | |- fails_with ?P (mret _) => apply (fails_ret P)
  | |- fails_with ?P (fail _) => apply (fails_fail P)
  | |- fails_with ?P (gets _) => apply (fails_gets P)
  | |- fails_with ?P (modify _) => apply (fails_modify P)
  | |- fails_with ?P (Tile.assign _) => apply (fails_modify P)
  | |- fails_with ?P (Tile.this _) => apply (fails_gets P)
  | |- fails_with ?P (index _ _ _) => apply (fails_index P)
  | |- fails_with ?P (Tile.rd _) => apply (fails_zoom P)
  | |- fails_with ?P (_ ≫= _) => apply (fails_bind P); [|intros ?]
  | |- fails_with ?P (when _ _) => apply (fails_when P)
  | |- fails_with ?P (readBytes _) =>
      apply (fails_weaken (λ e, e = UnexpectedEof) P);
      [intros ? ->|apply readBytes_fails]
  | |- fails_with ?P r8 => unfold r8
  | |- fails_with ?P r16 => unfold r16
  | |- fails_with ?P r32 => unfold r32
  | |- fails_with _ (if ?c then _ else _) => destruct c
  | |- fails_with _ (match ?x with _ => _ end) => destruct x
  end.

Lemma Tile_load_fails extra : fails_with tile_error (Tile.load extra).
Proof.
  unfold Tile.load, Tile.load_rest, Tile.load_flags23, Tile.load_type,
    Tile.load_wall, Tile.load_liquid, Tile.load_wires, Tile.load_rle.
  repeat fails_step; unfold tile_error; eauto.
Qed.

(** ** [Tile::load] moves the cursor forward *)

#[global] Instance on_handle_preorder Rh `{!PreOrder Rh} : PreOrder (on_handle Rh).
Proof.
  split; [intros s; unfold on_handle; reflexivity|].
  intros s1 s2 s3 H1 H2. unfold on_handle in *. by etrans.
Qed.

Lemma tile_rd_advances {A} (m : M Handle A) :
  preserves advances m → preserves (on_handle advances) (Tile.rd m).
Proof.
  intros Hm s r s' [H _]%tile_rd_inv. by apply Hm in H.
Qed.

Lemma tile_assign_advances f : preserves (on_handle advances) (Tile.assign f).
Proof. by apply (preserves_modify (on_handle advances)). Qed.

Ltac load_advances :=
  repeat first
    [ apply tile_rd_advances; handle_preserves
    | apply tile_assign_advances
    | apply (preserves_gets (on_handle advances))
    | preserves_step ].

Lemma Tile_load_rest_advances extra f1 :
  preserves (on_handle advances) (Tile.load_rest extra f1).
Proof.
  unfold Tile.load_rest, Tile.load_flags23, Tile.load_type,
    Tile.load_wall, Tile.load_liquid, Tile.load_wires, Tile.load_rle.
  load_advances.
Qed.

(** A record is at least its first flag byte. *)
Lemma Tile_load_advances extra h a rle h' a' :
  Tile.load extra (h, a) = (Ok rle, (h', a')) →
  bytes h' = bytes h ∧ 0 ≤ pos h ∧ pos h + 1 ≤ pos h' ≤ Handle_length h.
Proof.
  intros [(e & [=] & _)|[Hp H]]%load_inv.
  apply Tile_load_rest_advances in H as (Hb & Hle & Hlen).
  unfold Handle_length in *. simpl in *. split; [done|]. lia.
Qed.

(** ** The tiles section (C2) *)

#[global] Instance grid_kept_preorder : PreOrder grid_kept.
Proof.
  split; [done|]. intros a b c (? & ? & ?) (? & ? & ?).
  unfold grid_kept. repeat split; congruence.
Qed.

Lemma grid_kept_wf s s' : grid_kept s s' → grid_wf (world s) → grid_wf (world s').
Proof.
  intros (Hw & Hh & Hl) (? & ? & ?). unfold grid_wf. rewrite Hw, Hh, Hl. done.
Qed.

Lemma tile_get_ok offset s a :
  0 ≤ offset → tiles (world s) !! Z.to_nat offset = Some a →
  tile_get offset s = (Ok a, s).
Proof.
  intros Ho Ha. unfold tile_get, index, the, gets, mbind, M_bind.
  by rewrite (proj2 (Z.leb_le _ _) Ho), Ha.
Qed.

Lemma tile_get_fail offset s e s' :
  tile_get offset s = (Fail e, s') →
  e = IndexOutOfRange Ctiles offset ∧ s' = s ∧
  (offset < 0 ∨ (length (tiles (world s)) ≤ Z.to_nat offset)%nat).
Proof.
  unfold tile_get, index, the, gets, mbind, M_bind.
  destruct (Z.leb_spec 0 offset).
  - destruct (tiles (world s) !! Z.to_nat offset) eqn:E; [done|].
    intros [= <- <-]. apply lookup_ge_None in E. auto.
  - intros [= <- <-]. auto.
Qed.

Lemma tile_put_ok offset s a b :
  0 ≤ offset → tiles (world s) !! Z.to_nat offset = Some a →
  tile_put offset b s
  = (Ok tt, set_world (set_tiles (<[Z.to_nat offset := b]> (tiles (world s)))
                         (world s)) s).
Proof.
  intros Ho Ha. unfold tile_put, mbind at 1, M_bind at 1.
  by rewrite (tile_get_ok _ _ a).
Qed.

Lemma at_tile_inv {A} offset (m : M Tile.St A) s r s' :
  at_tile offset m s = (r, s') →
  (∃ a h1 a1,
     0 ≤ offset ∧ tiles (world s) !! Z.to_nat offset = Some a ∧
     m (cur s, a) = (r, (h1, a1)) ∧
     s' = mkSt h1 (set_tiles (<[Z.to_nat offset := a1]> (tiles (world s)))
                     (world s)) (emitted s)) ∨
  (r = Fail (IndexOutOfRange Ctiles offset) ∧ s' = s ∧
   (offset < 0 ∨ (length (tiles (world s)) ≤ Z.to_nat offset)%nat)).
Proof.
  unfold at_tile.
  intros [(a & s1 & H1 & H)|(e & H1 & ->)]%bind_inv.
  - apply tile_get_inv in H1 as (Ho & Ha & ->). left.
    unfold with_tile in H. destruct (m (cur s, a)) as [r1 [h1 a1]] eqn:E.
    injection H as <- <-. eauto 10.
  - right. apply tile_get_fail in H1 as (-> & -> & ?). done.
Qed.

(** The run copied below a tile stays in the grid when its last cell
    does. *)
Lemma copy_run_ok k : ∀ offset dest s,
  0 ≤ tilesWide (world s) → 0 ≤ offset →
  (Z.to_nat offset < length (tiles (world s)))%nat → 0 ≤ dest →
  (k ≠ O → dest + tilesWide (world s) * (Z.of_nat k - 1)
           < Z.of_nat (length (tiles (world s)))) →
  ∃ s', copy_run k offset dest s
        = (Ok (dest + tilesWide (world s) * Z.of_nat k), s') ∧
        grid_kept s s' ∧ cur s' = cur s.
Proof.
  induction k as [|k IH]; intros offset dest s Hw Ho Hlt Hd Hk.
  - exists s. simpl. rewrite Z.mul_0_r, Z.add_0_r. done.
  - specialize (Hk ltac:(done)).
    destruct (lookup_lt_is_Some_2 (tiles (world s)) (Z.to_nat offset))
      as [a Ha]; [done|].
    destruct (lookup_lt_is_Some_2 (tiles (world s)) (Z.to_nat dest))
      as [b Hb]; [nia|].
    cbn [copy_run]. unfold mbind at 1, M_bind at 1.
    rewrite (tile_get_ok _ _ a) by done.
    unfold mbind at 1, M_bind at 1. rewrite (tile_put_ok _ _ b) by done.
    unfold mbind at 1, M_bind at 1, the at 1, gets at 1.
    set (s1 := set_world _ s).
    assert (grid_kept s s1) as Hk1.
    { unfold grid_kept, s1. simpl. by rewrite length_insert. }
    destruct Hk1 as (Hw1 & Hh1 & Hl1).
    destruct (IH offset (dest + tilesWide (world s1)) s1)
      as (s' & E & Hk' & Hc); [lia|done|lia|lia|rewrite Hw1, Hl1; nia|].
    exists s'. rewrite E, Hw1. split; [f_equal; f_equal; lia|].
    split; [|by rewrite Hc].
    etrans; [|exact Hk']. done.
Qed.

Lemma remaining_range h : 0 ≤ remaining h ≤ Handle_length h.
Proof.
  unfold remaining, Handle_length.
  destruct (Z.leb_spec 0 (pos h)), (Z.leb_spec (pos h) (Z.of_nat (length (bytes h))));
    simpl; lia.
Qed.

Lemma tile_error_in_grid {A} e : tile_error e → in_grid (Fail e : Res A).
Proof. intros [->|[i ->]] offset; done. Qed.

Lemma column_guarded_safe extra fuel : ∀ x y offset s r s',
  grid_wf (world s) → 0 ≤ x < tilesWide (world s) → 0 ≤ y →
  offset = y * tilesWide (world s) + x →
  remaining (cur s) < Z.of_nat fuel →
  loadTiles_column_guarded fuel extra y offset s = (r, s') →
  grid_kept s s' ∧ in_grid r ∧ r ≠ Fail OutOfFuel.
Proof.
  induction fuel as [|fuel IH]; intros x y offset s r s' Hwf Hx Hy Ho Hf H.
  { pose proof (remaining_range (cur s)). lia. }
  cbn [loadTiles_column_guarded] in H.
  unfold mbind at 1, M_bind at 1, the at 1, gets at 1 in H.
  destruct (Z.ltb_spec y (tilesHigh (world s))) as [Hyh|Hyh].
  2:{ injection H as <- <-. done. }
  pose proof Hwf as (Hw0 & Hh0 & Hlen).
  apply bind_inv in H as [(rle & s1 & H1 & H)|(e & H1 & ->)].
  2:{ apply at_tile_inv in H1
        as [(a & h1 & a1 & _ & _ & Hl & ->)|(_ & _ & [?|?])]; [|lia|nia].
      apply Tile_load_fails in Hl. split.
      - unfold grid_kept. simpl. by rewrite length_insert.
      - split; [by apply tile_error_in_grid|].
        destruct Hl as [->|[i ->]]; done. }
  apply at_tile_inv in H1
    as [(a & h1 & a1 & _ & Ha & Hl & ->)|([=] & _)].
  apply Tile_load_advances in Hl as (Hb & Hp0 & Hp1).
  set (s1 := mkSt h1 _ _) in *.
  assert (grid_kept s s1) as Hk1.
  { unfold grid_kept, s1. simpl. by rewrite length_insert. }
  pose proof Hk1 as (Hw1 & Hh1 & Hl1).
  assert (remaining (cur s1) < Z.of_nat fuel) as Hf1.
  { revert Hf. unfold remaining, Handle_length in *. unfold s1.
    cbn [cur]. rewrite Hb.
    repeat match goal with
           | |- context [Z.leb ?a ?b] => destruct (Z.leb_spec a b)
           end; simpl; lia. }
  destruct (Z.ltb_spec rle 0) as [Hr0|Hr0]; simpl in H.
  { injection H as <- <-. done. }
  destruct (Z.leb_spec (tilesHigh (world s)) (y + rle)) as [Hrh|Hrh]; simpl in H.
  { injection H as <- <-. done. }
  unfold mbind at 1, M_bind at 1, the at 1, gets at 1 in H.
  destruct (copy_run_ok (Z.to_nat rle) offset (offset + tilesWide (world s1)) s1)
    as (s2 & E & Hk2 & Hc2).
  { lia. } { nia. } { rewrite Hl1. nia. } { nia. }
  { intros _. rewrite Hw1, Hl1, Hlen. nia. }
  unfold mbind at 1, M_bind at 1 in H. rewrite E in H.
  pose proof Hk2 as (Hw2 & Hh2 & Hl2).
  eapply (IH x) in H as (Hk3 & Hg & Hnf).
  - split; [|done]. etrans; [exact Hk1|]. etrans; [exact Hk2|exact Hk3].
  - eapply grid_kept_wf; [exact Hk2|]. by eapply grid_kept_wf.
  - rewrite Hw2, Hw1. done.
  - lia.
  - rewrite Hw2, Hw1. nia.
  - by rewrite Hc2.
Qed.

(** What holds of a counted loop whose turns keep an invariant and fail
    only in allowed ways. *)
Lemma for_loop_post {S} (I : S → Prop) (Q : Err → Prop) (body : Z → M S unit) k :
  ∀ i s r s',
    (∀ j s r s', i ≤ j < i + Z.of_nat k → I s → body j s = (r, s') →
                 (∀ e, r = Fail e → Q e) ∧ (r = Ok tt → I s')) →
    I s → for_loop k i body s = (r, s') →
    (∀ e, r = Fail e → Q e) ∧ (r = Ok tt → I s').
Proof.
  induction k as [|k IH]; intros i s r s' Hb Hi H.
  - injection H as <- <-. done.
  - cbn [for_loop] in H.
    apply bind_inv in H as [([] & s1 & H1 & H)|(e & H1 & ->)].
    + apply Hb in H1 as [_ H1]; [|lia|done].
      eapply IH; [|by apply H1|exact H].
      intros j s0 r0 s0' Hj. apply Hb. lia.
    + apply Hb in H1 as [H1 _]; [|lia|done]. split; [|done].
      intros e' [= <-]. by apply H1.
Qed.

Lemma loadTiles_guarded_safe env extra s r s' :
  grid_wf (world s) →
  loadTiles_guarded env extra s = (r, s') →
  in_grid r ∧ r ≠ Fail OutOfFuel.
Proof.
  intros Hwf H. unfold loadTiles_guarded in H.
  unfold mbind at 1, M_bind at 1, the at 1, gets at 1, for_range in H.
  apply (for_loop_post
           (λ s0, grid_wf (world s0) ∧ tilesWide (world s0) = tilesWide (world s))
           (λ e, in_grid (Fail e : Res unit) ∧ e ≠ OutOfFuel)) in H
    as [H _].
  - destruct r as [[]|e]; [done|]. destruct (H e eq_refl) as [H1 H2].
    split; [done|]. by intros [= ->].
  - intros j s0 r0 s0' Hj [Hwf0 Hw0] Hb.
    unfold mbind at 1, M_bind at 1, the at 1, gets at 1 in Hb.
    unfold mbind at 1, M_bind at 1, emit at 1, modify at 1 in Hb.
    unfold mbind at 1, M_bind at 1, gets at 1 in Hb.
    eapply (column_guarded_safe _ _ j 0) in Hb as (Hk & Hg & Hnf);
      [|done|simpl; lia|done|simpl; lia|].
    + split.
      * intros e ->. split; [done|]. by intros ->.
      * intros _. split; [by eapply grid_kept_wf|].
        destruct Hk as (-> & _). done.
    + simpl. pose proof (remaining_range (cur s0)).
      unfold Handle_length in *. lia.
  - done.
Qed.

(** *** The guarded decoder against the decoder of the source *)

Lemma agrees_refl {S A} (m : M S A) : agrees m m.
Proof. intros s. by left. Qed.

Lemma agrees_bind {S A B} (g m : M S A) (kg k : A → M S B) :
  agrees g m → (∀ a, agrees (kg a) (k a)) → agrees (g ≫= kg) (m ≫= k).
Proof.
  intros Hm Hk s. unfold mbind, M_bind.
  destruct (Hm s) as [->|[s' ->]]; [|eauto].
  destruct (m s) as [[a|e] s1]; [apply Hk|by left].
Qed.

Lemma agrees_for_loop {S} (bg b : Z → M S unit) k : ∀ i,
  (∀ j, agrees (bg j) (b j)) → agrees (for_loop k i bg) (for_loop k i b).
Proof.
  induction k as [|k IH]; intros i Hb; simpl; [apply agrees_refl|].
  apply agrees_bind; [apply Hb|]. intros _. by apply IH.
Qed.

Lemma column_agrees extra fuel : ∀ y offset,
  agrees (loadTiles_column_guarded fuel extra y offset)
         (loadTiles_column fuel extra y offset).
Proof.
  induction fuel as [|fuel IH]; intros y offset; simpl; [apply agrees_refl|].
  apply agrees_bind; [apply agrees_refl|]. intros h.
  destruct (y <? h); [|apply agrees_refl].
  apply agrees_bind; [apply agrees_refl|]. intros rle.
  destruct ((rle <? 0) || (h <=? y + rle)).
  - intros s. right. by exists s.
  - apply agrees_bind; [apply agrees_refl|]. intros w.
    apply agrees_bind; [apply agrees_refl|]. intros d. apply IH.
Qed.

Lemma loadTiles_agrees env extra :
  agrees (loadTiles_guarded env extra) (loadTiles env extra).
Proof.
  unfold loadTiles_guarded, loadTiles.
  apply agrees_bind; [apply agrees_refl|]. intros w.
  apply agrees_for_loop. intros x.
  apply agrees_bind; [apply agrees_refl|]. intros w'.
  apply agrees_bind; [apply agrees_refl|]. intros _.
  apply agrees_bind; [apply agrees_refl|]. intros fuel.
  apply column_agrees.
Qed.

(** [world.cpp] has no [CorruptTileStream]: the tiles decoder never ends
    with it. *)
Lemma copy_run_fails k : ∀ offset dest,
  fails_with (λ e, e ≠ CorruptTileStream) (copy_run k offset dest).
Proof.
  induction k as [|k IH]; intros offset dest; simpl;
    unfold tile_put, tile_get, the, upd; repeat fails_step; done.
Qed.

Lemma column_fails extra fuel : ∀ y offset,
  fails_with (λ e, e ≠ CorruptTileStream) (loadTiles_column fuel extra y offset).
Proof.
  induction fuel as [|fuel IH]; intros y offset; simpl;
    unfold the; repeat fails_step; try done; try apply copy_run_fails.
  intros s e s' [(t0 & h1 & t1 & _ & _ & Hl & _)|([= ->] & _)]%at_tile_inv;
    [|done].
  apply Tile_load_fails in Hl as [->|[i ->]]; done.
Qed.

Lemma for_loop_fails {S} (P : Err → Prop) (body : Z → M S unit) k : ∀ i,
  (∀ j, fails_with P (body j)) → fails_with P (for_loop k i body).
Proof.
  induction k as [|k IH]; intros i Hb; simpl; [apply fails_ret|].
  apply fails_bind; [apply Hb|]. intros _. by apply IH.
Qed.

Lemma loadTiles_fails env extra :
  fails_with (λ e, e ≠ CorruptTileStream) (loadTiles env extra).
Proof.
  unfold loadTiles, the, for_range, emit. fails_step; [fails_step|].
  apply for_loop_fails. intros x. repeat fails_step. apply column_fails.
Qed.

(** C2, amended: [loadTiles] checks nothing. On the grid of a loaded world,
    whenever every run decoded is non-negative and ends inside its column,
    that is whenever the decoder with the guard does not raise
    [CorruptTileStream], the decoder of the source ends exactly as the
    guarded one does, touches no cell at an offset outside
    [0, tilesWide * tilesHigh), and its loops do not run out of their
    bounds. Whatever the input, it never ends with [CorruptTileStream]. *)
Theorem loadTiles_in_grid env extra st r st' :
  grid_wf (world st) →
  (∀ s, loadTiles_guarded env extra st ≠ (Fail CorruptTileStream, s)) →
  loadTiles env extra st = (r, st') →
  loadTiles_guarded env extra st = (r, st') ∧
  in_grid r ∧ r ≠ Fail OutOfFuel ∧ r ≠ Fail CorruptTileStream.
Proof.
  intros Hwf Hg H.
  destruct (loadTiles_agrees env extra st) as [E|[s E]]; [|by apply Hg in E].
  rewrite H in E.
  destruct (loadTiles_guarded_safe _ _ _ _ _ Hwf E) as [H1 H2].
  repeat split; [done..|].
  intros ->. by apply loadTiles_fails in H.
Qed.

Lemma loadTiles_in_grid_witness :
  let st := example_state "" 1 2 [blank_tile; Tile.set_type 7 blank_tile]
              [Byte.x40; Byte.x01] in
  let st' := mkSt (mkHandle [Byte.x40; Byte.x01] 2)
               (set_tiles [Tile.set_wall 0 blank_tile; Tile.set_wall 0 blank_tile]
                  (world st))
               [status "Reading tiles: 0%"] in
  grid_wf (world st) ∧
  loadTiles example_env [] st = (Ok tt, st') ∧
  loadTiles_guarded example_env [] st = (Ok tt, st') ∧
  in_grid (Ok tt : Res unit).
Proof.
  intros st st'.
  assert (grid_wf (world st)) as Hwf by (vm_compute; intuition discriminate).
  assert (loadTiles example_env [] st = (Ok tt, st')) as E
    by (vm_compute; reflexivity).
  split; [exact Hwf|]. split; [exact E|].
  destruct (loadTiles_in_grid example_env [] st (Ok tt) st' Hwf) as (H1 & H2 & _).
  - intros s. vm_compute. discriminate.
  - exact E.
  - split; [exact H1|exact H2].
Defined.

(** The specification's wording of C2 fails on a 1 x 1 grid whose only
    record carries a run of one: the run leaves the column, which is where
    the guard raises [CorruptTileStream]; the decoder of the source raises
    nothing and copies the tile to [tiles[1]], an offset that is not below
    [tilesWide * tilesHigh]. *)
Lemma loadTiles_overrun_counterexample :
  let st := example_state "" 1 1 [blank_tile] [Byte.x40; Byte.x01] in
  grid_wf (world st) ∧
  (∃ s, loadTiles_guarded example_env [] st = (Fail CorruptTileStream, s)) ∧
  (∃ s, loadTiles example_env [] st = (Fail (IndexOutOfRange Ctiles 1), s)) ∧
  tilesWide (world st) * tilesHigh (world st) ≤ 1.
Proof.
  intros st. split; [vm_compute; intuition discriminate|].
  split; [eexists; vm_compute; reflexivity|].
  split; [eexists; vm_compute; reflexivity|].
  vm_compute. discriminate.
Qed.


(** ** The loops of the player map never run out of their bound *)

#[global] Instance cur_advances_preorder : PreOrder cur_advances.
Proof.
  split; [intros s; unfold cur_advances; reflexivity|].
  intros a b c H1 H2. unfold cur_advances in *. by etrans.
Qed.

Lemma rd_cur_advances {A} (m : M Handle A) :
  preserves advances m → preserves cur_advances (rd m).
Proof.
  intros Hm s r s' (h' & H & ->)%rd_inv. apply Hm in H. done.
Qed.

Lemma the_cur_advances {A} (f : World → A) : preserves cur_advances (the f).
Proof. apply (preserves_gets cur_advances). Qed.

Lemma tile_setSeen_cur_advances offset b :
  preserves cur_advances (tile_setSeen offset b).
Proof.
  unfold tile_setSeen, tile_put, tile_get, the, upd.
  repeat first [ apply (preserves_gets cur_advances)
               | apply (preserves_modify cur_advances); intros ?
               | preserves_step ];
    unfold cur_advances; simpl; reflexivity.
Qed.

Ltac cur_preserves :=
  repeat first
    [ apply rd_cur_advances; handle_preserves; try apply rs_advances
    | apply the_cur_advances
    | apply tile_setSeen_cur_advances
    | preserves_step ].

Lemma seen_run1_cur_advances k : ∀ b y offset,
  preserves cur_advances (seen_run1 k b y offset).
Proof.
  induction k as [|k IH]; intros b y offset; simpl; cur_preserves. apply IH.
Qed.

Lemma seen_run2_cur_advances k : ∀ b light x offset,
  preserves cur_advances (seen_run2 k b light x offset).
Proof.
  induction k as [|k IH]; intros b light x offset; simpl; cur_preserves.
  apply IH.
Qed.

Lemma rs_length_of_the_code fuel : ∀ shift acc,
  fails_with of_the_code (rs_length fuel shift acc).
Proof.
  induction fuel as [|fuel IH]; intros shift acc; simpl;
    repeat fails_step; done.
Qed.

Lemma rs_of_the_code env : fails_with of_the_code (rs env).
Proof.
  unfold rs. fails_step; [apply rs_length_of_the_code|].
  repeat fails_step; done.
Qed.

Ltac code_fails :=
  repeat first
    [ apply rs_of_the_code
    | lazymatch goal with
      | |- fails_with ?P (rd _) => apply (fails_zoom P)
      | |- fails_with ?P (the _) => apply (fails_gets P)
      | |- fails_with ?P (emit _) => apply (fails_modify P)
      | |- fails_with ?P (upd _) => apply (fails_modify P)
      | |- fails_with ?P (tile_setSeen _ _) => unfold tile_setSeen
      | |- fails_with ?P (tile_put _ _) => unfold tile_put
      | |- fails_with ?P (tile_get _) => unfold tile_get
      end
    | fails_step ].

Lemma seen_run1_of_the_code k : ∀ b y offset,
  fails_with of_the_code (seen_run1 k b y offset).
Proof.
  induction k as [|k IH]; intros b y offset; simpl; code_fails; done.
Qed.

Lemma seen_run2_of_the_code k : ∀ b light x offset,
  fails_with of_the_code (seen_run2 k b light x offset).
Proof.
  induction k as [|k IH]; intros b light x offset; simpl; code_fails; done.
Qed.

Lemma remaining_advances h h' :
  advances h h' → 0 ≤ pos h → remaining h' ≤ remaining h.
Proof.
  intros (Hb & Hp & Hl) H0. unfold remaining, Handle_length in *.
  rewrite Hb in *.
  repeat match goal with
         | |- context [Z.leb ?a ?b] => destruct (Z.leb_spec a b)
         end; simpl; lia.
Qed.

Lemma rd_r8_remaining s v s' :
  rd r8 s = (Ok v, s') → 0 ≤ pos (cur s') ∧ remaining (cur s') < remaining (cur s).
Proof.
  intros (h' & H & ->)%rd_inv. apply r8_inv in H as (H0 & Hl & _ & ->).
  unfold remaining, Handle_length in *. simpl.
  repeat match goal with
         | |- context [Z.leb ?a ?b] => destruct (Z.leb_spec a b)
         end; simpl; lia.
Qed.

Lemma rd_r8_of_the_code : fails_with of_the_code (rd r8).
Proof. code_fails; done. Qed.

Lemma loadPlayer1_column_fuel fuel : ∀ version y offset s r s',
  remaining (cur s) < Z.of_nat fuel →
  loadPlayer1_column fuel version y offset s = (r, s') →
  r ≠ Fail OutOfFuel.
Proof.
  induction fuel as [|fuel IH]; intros version y offset s r s' Hf H.
  { pose proof (remaining_range (cur s)). lia. }
  cbn [loadPlayer1_column] in H.
  unfold mbind at 1, M_bind at 1, the at 1, gets at 1 in H.
  destruct (y <? tilesHigh (world s)); [|by injection H as <- <-].
  apply bind_inv in H as [(present & s1 & H1 & H)|(e & H1 & ->)].
  2:{ apply rd_r8_of_the_code in H1. by intros [= ->]. }
  apply rd_r8_remaining in H1 as [Hp1 Hr1].
  apply bind_inv in H as [([y' offset'] & s2 & H2 & H)|(e & H2 & ->)].
  2:{ intros [= ->]. revert H2.
      match goal with
      | |- ?m s1 = _ → _ =>
          assert (fails_with of_the_code m) as Hm;
          [destruct (truthy present); code_fails;
           first [done|apply seen_run1_of_the_code]|]
      end.
      intros H2. by apply Hm in H2. }
  assert (cur_advances s1 s2) as Ha.
  { revert H2.
    match goal with
    | |- ?m s1 = _ → _ =>
        assert (preserves cur_advances m) as Hm;
        [destruct (truthy present); cur_preserves; apply seen_run1_cur_advances|]
    end.
    apply Hm. }
  apply (remaining_advances _ _ Ha) in Hp1.
  unfold mbind at 1, M_bind at 1, the at 1, gets at 1 in H.
  eapply IH; [|exact H]. lia.
Qed.

(** One bind of a loop body: a failure of the step is a failure of the
    code, and a success moves the cursor forward. *)
Ltac fuel_step H :=
  let a := fresh "a" in
  let s1 := fresh "s" in
  let H1 := fresh "Hstep" in
  let e := fresh "e" in
  let Hm := fresh "Hm" in
  apply bind_inv in H as [(a & s1 & H1 & H)|(e & H1 & ->)];
  [ match type of H1 with
    | ?m _ = _ =>
        assert (preserves cur_advances m) as Hm
          by (cur_preserves;
              first [apply seen_run2_cur_advances|apply seen_run1_cur_advances]);
        apply Hm in H1; clear Hm
    end
  | match type of H1 with
    | ?m _ = _ =>
        assert (fails_with of_the_code m) as Hm
          by (code_fails;
              first [done|apply seen_run2_of_the_code
                    |apply seen_run1_of_the_code]);
        apply Hm in H1; by intros [= ->]
    end ].

Lemma loadPlayer2_row_fuel fuel : ∀ x offset s r s',
  remaining (cur s) < Z.of_nat fuel →
  loadPlayer2_row fuel x offset s = (r, s') →
  r ≠ Fail OutOfFuel.
Proof.
  induction fuel as [|fuel IH]; intros x offset s r s' Hf H.
  { pose proof (remaining_range (cur s)). lia. }
  cbn [loadPlayer2_row] in H.
  unfold mbind at 1, M_bind at 1, the at 1, gets at 1 in H.
  destruct (x <? tilesWide (world s)); [|by injection H as <- <-].
  apply bind_inv in H as [(flags & s1 & H1 & H)|(e & H1 & ->)].
  2:{ apply rd_r8_of_the_code in H1. by intros [= ->]. }
  apply rd_r8_remaining in H1 as [Hp1 Hr1].
  do 5 fuel_step H.
  destruct a3 as [x' offset'].
  assert (cur_advances s1 s5) as Ha.
  { etrans; [exact Hstep|]. etrans; [exact Hstep0|]. etrans; [exact Hstep1|].
    etrans; [exact Hstep2|exact Hstep3]. }
  apply (remaining_advances _ _ Ha) in Hp1.
  eapply IH; [|exact H]. lia.
Qed.

Lemma for_fold_fails {S A} (P : Err → Prop) (body : Z → A → M S A) k :
  ∀ i acc, (∀ j a, fails_with P (body j a)) → fails_with P (for_fold k i acc body).
Proof.
  induction k as [|k IH]; intros i acc Hb; simpl; [apply fails_ret|].
  apply fails_bind; [apply Hb|]. intros a. by apply IH.
Qed.

Lemma with_handle_fails {A} (P : Err → Prop) h (m : M St A) :
  fails_with P m → fails_with P (with_handle h m).
Proof.
  intros Hm s e s'. unfold with_handle.
  destruct (m (set_cur h s)) as [r1 s1] eqn:E. intros [= -> <-].
  by eapply Hm.
Qed.

Lemma readBits_loop_of_the_code k : ∀ mask bits extra,
  fails_with of_the_code (readBits_loop k mask bits extra).
Proof.
  induction k as [|k IH]; intros mask bits extra; simpl; code_fails; done.
Qed.

Lemma column1_of_the_code version x :
  fails_with of_the_code
    (fuel ← gets (λ s, S (length (bytes (cur s))));
     loadPlayer1_column fuel version 0 x).
Proof.
  intros s e s'. unfold mbind, M_bind, gets. intros H.
  apply loadPlayer1_column_fuel in H; [by intros ->|].
  pose proof (remaining_range (cur s)). unfold Handle_length in *. lia.
Qed.

Lemma row2_of_the_code offset :
  fails_with of_the_code
    (fuel ← gets (λ s, S (length (bytes (cur s))));
     loadPlayer2_row fuel 0 offset).
Proof.
  intros s e s'. unfold mbind, M_bind, gets. intros H.
  apply loadPlayer2_row_fuel in H; [by intros ->|].
  pose proof (remaining_range (cur s)). unfold Handle_length in *. lia.
Qed.

Lemma loadPlayer1_of_the_code env version :
  fails_with of_the_code (loadPlayer1 env version).
Proof.
  unfold loadPlayer1, for_range.
  repeat first [ apply column1_of_the_code
               | apply for_loop_fails; intros ?
               | progress code_fails ]; done.
Qed.

Lemma loadPlayer2_of_the_code env version :
  fails_with of_the_code (loadPlayer2 env version).
Proof.
  unfold loadPlayer2, loadPlayer2_body, for_range, readBits, read, skip, tell.
  repeat first [ apply row2_of_the_code
               | apply readBits_loop_of_the_code
               | apply for_loop_fails; intros ?
               | apply for_fold_fails; intros ? ?
               | progress code_fails ]; done.
Qed.

Lemma mark_all_seen_of_the_code : fails_with of_the_code mark_all_seen.
Proof.
  unfold mark_all_seen.
  repeat first [ apply for_fold_fails; intros ? ? | progress code_fails ]; done.
Qed.

Lemma loadPlayer_of_the_code env : fails_with of_the_code (loadPlayer env).
Proof.
  unfold loadPlayer. code_fails.
  - apply mark_all_seen_of_the_code.
  - apply with_handle_fails. code_fails; [done|..].
    + apply loadPlayer1_of_the_code.
    + apply loadPlayer2_of_the_code.
Qed.

Lemma unseen_alike a b :
  Tile.setSeen false b = Tile.setSeen false a → alike_but_seen a b.
Proof.
  unfold Tile.setSeen, Tile.set_flags. intros [= ? ? ? ? ? ? ? ? ? ? Hf].
  repeat split; try done. intros i Hi.
  destruct (Z.ltb_spec i 0) as [Hn|Hn]; [by rewrite !Z.testbit_neg_r|].
  apply (f_equal (λ z, Z.testbit z i)) in Hf.
  rewrite !Z.land_spec, Z.lnot_spec in Hf by done.
  change 512 with (2 ^ 9) in Hf. rewrite Z.pow2_bits_false in Hf by lia.
  by rewrite !andb_true_r in Hf.
Qed.

(** C9: whatever the player-map overlay does (the fallback that marks
    every tile, the v1 and the v2 decoder) and however it ends, the grid
    keeps its size and every tile keeps every field and every flag bit but
    the seen flag; the other members of the world are untouched. The loops
    of the model run to their end: the result is never [OutOfFuel]. *)
Theorem loadPlayer_writes_seen_only env st r st' :
  loadPlayer env st = (r, st') →
  r ≠ Fail OutOfFuel ∧
  world st' = set_tiles (tiles (world st')) (world st) ∧
  length (tiles (world st')) = length (tiles (world st)) ∧
  ∀ i a a',
    tiles (world st) !! i = Some a → tiles (world st') !! i = Some a' →
    alike_but_seen a a'.
Proof.
  intros H. split.
  { intros ->. by apply loadPlayer_of_the_code in H. }
  apply loadPlayer_seen_only in H as [Hw Ht]. split; [done|]. split.
  - apply (f_equal length) in Ht. by rewrite !length_fmap in Ht.
  - intros i a a' Ha Ha'. apply unseen_alike.
    apply (f_equal (λ l, l !! i)) in Ht.
    rewrite !list_lookup_fmap, Ha, Ha' in Ht. by apply (inj Some) in Ht.
Qed.

Lemma loadPlayer_writes_seen_only_witness :
  let ts := [blank_tile; Tile.set_flags 0x201 (Tile.set_type 7 blank_tile)] in
  let st := example_state "w" 2 1 ts [] in
  let st' := mkSt (cur st)
               (set_tiles (Tile.setSeen true <$> ts) (world st)) [] in
  loadPlayer example_env st = (Ok tt, st') ∧
  length (tiles (world st')) = length (tiles (world st)) ∧
  ∀ i a a',
    tiles (world st) !! i = Some a → tiles (world st') !! i = Some a' →
    alike_but_seen a a'.
Proof.
  intros ts st st'.
  assert (loadPlayer example_env st = (Ok tt, st')) as E
    by (vm_compute; reflexivity).
  split; [exact E|].
  exact (proj2 (proj2 (loadPlayer_writes_seen_only example_env st _ st' E))).
Defined.



(** * Further properties of the code *)

(** ** The fields of a decoded tile *)

Lemma bits_below n x :
  0 ≤ n → (∀ i, n ≤ i → Z.testbit x i = false) → 0 ≤ x < 2 ^ n.
Proof.
  intros Hn Hx. assert (x mod 2 ^ n = x) as <-.
  { apply Z.bits_inj'. intros i Hi. destruct (Z.lt_ge_cases i n).
    - by rewrite Z.mod_pow2_bits_low.
    - rewrite Z.mod_pow2_bits_high by lia. symmetry. by apply Hx. }
  apply Z.mod_pos_bound. by apply Z.pow_pos_nonneg.
Qed.

Lemma below_bits n x i : 0 ≤ x < 2 ^ n → n ≤ i → Z.testbit x i = false.
Proof.
  intros Hx Hi. destruct (Z.lt_ge_cases n 0).
  { rewrite Z.pow_neg_r in Hx; lia. }
  rewrite <- (Z.mod_small x (2 ^ n)) by done.
  apply Z.mod_pow2_bits_high. lia.
Qed.

Lemma lor_below n a b : 0 ≤ n → 0 ≤ a < 2 ^ n → 0 ≤ b < 2 ^ n → 0 ≤ Z.lor a b < 2 ^ n.
Proof.
  intros Hn Ha Hb. apply bits_below; [done|]. intros i Hi.
  by rewrite Z.lor_spec, (below_bits n a), (below_bits n b).
Qed.

Lemma lor_high_byte lo hi :
  0 ≤ lo < 256 → 0 ≤ hi < 256 → 0 ≤ Z.lor lo (Z.shiftl hi 8) < 65536.
Proof.
  intros Hlo Hhi. apply (lor_below 16); [done|lia|].
  rewrite Z.shiftl_mul_pow2 by done. lia.
Qed.

Lemma land_below n x m : 0 ≤ n → 0 ≤ m < 2 ^ n → 0 ≤ Z.land x m < 2 ^ n.
Proof.
  intros Hn Hm. apply bits_below; [done|]. intros i Hi.
  by rewrite Z.land_spec, (below_bits n m), andb_false_r.
Qed.

#[global] Instance same_on_preorder {A} (f : Tile.t → A) : PreOrder (same_on f).
Proof. split; [done|]. intros a b c H1 H2. unfold same_on in *. congruence. Qed.

Lemma rd_r8_range s v s' : Tile.rd r8 s = (Ok v, s') → 0 ≤ v < 256.
Proof. intros [H _]%tile_rd_inv. by apply r8_bytes in H as (_ & _ & _ & ?). Qed.

(** The unnamed bits of the flags and the seen bit: [Tile::load] sets none
    of them. *)
Lemma load_liquid_keeps_unnamed f1 f3 :
  preserves (on_tile (keeps (Z.lnot 0xDFF) true false)) (Tile.load_liquid f1 f3).
Proof. unfold Tile.load_liquid. tile_preserves; keeps_solve. Qed.

Lemma load_wires_keeps_unnamed f2 f3 :
  preserves (on_tile (keeps (Z.lnot 0xDFF) true true)) (Tile.load_wires f2 f3).
Proof. unfold Tile.load_wires. tile_preserves; keeps_solve. Qed.

Lemma load_rest_flags extra f1 s rle s' :
  Tile.load_rest extra f1 s = (Ok rle, s') →
  Z.land (Tile.flags s'.2) (Z.lnot 0xDFF) = 0.
Proof.
  unfold Tile.load_rest.
  intros ([f2 f3] & s0 & _ & H)%bind_ok_inv.
  apply bind_ok_inv in H as ([] & s1 & H1 & H).
  apply load_type_post in H1 as [Hf _].
  apply bind_ok_inv in H as ([] & s2 & H2 & H).
  apply load_wall_keeps in H2 as (Hw & _).
  apply bind_ok_inv in H as ([] & s3 & H3 & H).
  apply load_liquid_keeps_unnamed in H3 as (Hl & _).
  apply bind_ok_inv in H as ([] & s4 & H4 & H).
  apply load_wires_keeps_unnamed in H4 as (Hwi & _).
  apply load_rle_keeps in H as (Hr & _).
  rewrite !Z.land_m1_r in Hw, Hr.
  rewrite Hr, Hwi, Hl, Hw, Hf. by destruct (truthy _).
Qed.

Lemma flags_named f : Z.land f (Z.lnot 0xDFF) = 0 → 0 ≤ f < 0x1000 ∧ Z.land f 0x200 = 0.
Proof.
  intros H. 
  assert (∀ i, 0 ≤ i → Z.testbit 0xDFF i = false → Z.testbit f i = false) as Hb.
  { intros i Hi Hm. apply (f_equal (λ z, Z.testbit z i)) in H.
    rewrite Z.land_spec, Z.lnot_spec, Hm, Z.bits_0, andb_true_r in H by done. done. }
  split.
  - apply (bits_below 12); [done|]. intros i Hi. apply Hb; [lia|].
    apply (below_bits 12); [done|lia].
  - apply Z.bits_inj'. intros i Hi. rewrite Z.land_spec, Z.bits_0.
    destruct (Z.testbit 512 i) eqn:E; [|apply andb_false_r].
    rewrite andb_true_r. apply Hb; [done|].
    change 512 with (2 ^ 9) in E. destruct (decide (i = 9)) as [->|]; [done|].
    rewrite Z.pow2_bits_false in E by lia. done.
Qed.

(** X1: A record that Tile::load decodes leaves the tile not seen and its
    flags within the twelve named bits (0 <= flags < 0x1000), whatever the
    tile held before the call. *)
Theorem Tile_load_resets_flags extra h t rle h' t' :
  Tile.load extra (h, t) = (Ok rle, (h', t')) →
  Tile.seen t' = false ∧ 0 ≤ Tile.flags t' < 0x1000.
Proof.
  intros [(e & [=] & _)|[_ H]]%load_inv.
  apply load_rest_flags, flags_named in H as [Hr Hs]. simpl in *.
  split; [|done]. unfold Tile.seen. by rewrite Hs.
Qed.

Lemma Tile_load_resets_flags_witness :
  let extra := [false; false; false; false; false; true] in
  let t' := Tile.mk 5 0 16 32 (-1) (-1) 0 0 128 0 3 in
  Tile.load extra (mkHandle example_record 0, Tile.set_flags 0x2ff blank_tile)
  = (Ok 0, (mkHandle example_record 7, t')) ∧
  Tile.seen t' = false ∧ 0 ≤ Tile.flags t' < 0x1000.
Proof.
  intros extra t'.
  assert (Tile.load extra (mkHandle example_record 0,
                           Tile.set_flags 0x2ff blank_tile)
          = (Ok 0, (mkHandle example_record 7, t'))) as E
    by (vm_compute; reflexivity).
  split; [exact E|]. exact (Tile_load_resets_flags extra _ _ _ _ _ E).
Defined.

Lemma when_inv {S} (b : bool) (m : M S unit) s r s' :
  when b m s = (r, s') →
  (b = true ∧ m s = (r, s')) ∨ (b = false ∧ r = Ok tt ∧ s' = s).
Proof. destruct b; [by left|]. intros [= <- <-]. by right. Qed.

Lemma tile_this_inv {A} (f : Tile.t → A) s r s' :
  Tile.this f s = (r, s') → r = Ok (f s.2) ∧ s' = s.
Proof. by intros [= <- <-]. Qed.

Lemma load_type_fields extra f1 f3 s s' :
  Tile.load_type extra f1 f3 s = (Ok tt, s') →
  0 ≤ Tile.type s'.2 < 65536 ∧
  (truthy (Z.land f1 2) = true →
   ∃ ex, extra !! Z.to_nat (Tile.type s'.2) = Some ex ∧
         (ex = false → Tile.u s'.2 = -1 ∧ Tile.v s'.2 = -1)).
Proof.
  unfold Tile.load_type. intros ([] & s1 & H1 & H)%bind_ok_inv.
  apply tile_assign_inv in H1 as [_ ->].
  destruct (truthy (Z.land f1 2)).
  2:{ apply tile_assign_inv in H as [_ ->]. simpl. split; [lia|done]. }
  apply bind_ok_inv in H as (ty & s2 & H2 & H).
  pose proof (rd_r8_range _ _ _ H2) as Hty. clear H2.
  apply bind_ok_inv in H as ([] & s3 & H3 & H).
  apply tile_assign_inv in H3 as [_ ->].
  apply bind_ok_inv in H as ([] & s4 & H4 & H).
  assert (0 ≤ Tile.type s4.2 < 65536) as Hr.
  { apply when_inv in H4 as [[_ H4]|(_ & _ & ->)]; [|simpl; lia].
    apply bind_ok_inv in H4 as (hi & s5 & H5 & H4).
    pose proof (rd_r8_range _ _ _ H5) as Hhi.
    apply tile_rd_inv in H5 as [_ E5].
    apply tile_assign_inv in H4 as [_ ->]. simpl. rewrite E5. simpl.
    by apply lor_high_byte. }
  clear H4.
  apply bind_ok_inv in H as (ty' & s5 & H5 & H).
  apply tile_this_inv in H5 as [[= ->] ->].
  apply bind_ok_inv in H as (ex & s6 & H6 & H).
  apply index_inv in H6 as (_ & Hex & ->).
  apply bind_ok_inv in H as ([] & s7 & H7 & H).
  assert (Tile.type s7.2 = Tile.type s4.2 ∧
          (ex = false → Tile.u s7.2 = -1 ∧ Tile.v s7.2 = -1)) as [Et Euv].
  { destruct ex.
    - split; [|done]. revert H7.
      match goal with
      | |- ?m _ = _ → _ =>
          assert (preserves (on_tile (same_on Tile.type)) m) as Hp
            by (tile_preserves; done)
      end.
      apply Hp.
    - apply bind_ok_inv in H7 as ([] & s8 & H8 & H7).
      apply tile_assign_inv in H8 as [_ ->].
      apply tile_assign_inv in H7 as [_ ->]. done. }
  assert (preserves (on_tile (λ a b, Tile.type b = Tile.type a ∧
                                     Tile.u b = Tile.u a ∧ Tile.v b = Tile.v a))
            (when (truthy (Z.land f3 0x8))
               (c ← Tile.rd r8; Tile.assign (Tile.set_color c)))) as Hp.
  { intros x r x'. intros [[_ Hc]|(_ & _ & ->)]%when_inv; [|done].
    apply bind_inv in Hc as [(c & x1 & Hc1 & Hc)|(e & Hc1 & _)].
    - apply tile_rd_inv in Hc1 as [_ E]. apply tile_assign_inv in Hc as [_ ->].
      unfold on_tile. simpl. by rewrite E.
    - apply tile_rd_inv in Hc1 as [_ E]. unfold on_tile. by rewrite E. }
  apply Hp in H as (E1 & E2 & E3). rewrite E1, E2, E3, Et.
  split; [done|]. intros _. exists ex. done.
Qed.

Lemma load_wall_fields f1 f3 s s' :
  Tile.load_wall f1 f3 s = (Ok tt, s') → 0 ≤ Tile.wall s'.2 < 256.
Proof.
  unfold Tile.load_wall. destruct (truthy (Z.land f1 4)).
  2:{ intros [_ ->]%tile_assign_inv. simpl. lia. }
  intros (w & s1 & H1 & H)%bind_ok_inv.
  pose proof (rd_r8_range _ _ _ H1) as Hw. clear H1.
  apply bind_ok_inv in H as ([] & s2 & H2 & H).
  apply tile_assign_inv in H2 as [_ ->].
  revert H.
  match goal with
  | |- ?m _ = _ → _ =>
      assert (preserves (on_tile (same_on Tile.wall)) m) as Hp
        by (tile_preserves; done)
  end.
  intros H. apply Hp in H. unfold on_tile, same_on in H. simpl in H. by rewrite H.
Qed.

Lemma load_liquid_fields f1 f3 s s' :
  Tile.load_liquid f1 f3 s = (Ok tt, s') →
  0 ≤ Tile.liquid s'.2 < 256 ∧ Tile.wall s'.2 = Tile.wall s.2 ∧
  Z.land (Tile.flags s'.2) 0x40 = Z.land (Tile.flags s.2) 0x40.
Proof.
  intros H. split.
  - revert H. unfold Tile.load_liquid. destruct (truthy (Z.land f1 0x18)).
    2:{ intros [_ ->]%tile_assign_inv. simpl. lia. }
    intros (l & s1 & H1 & H)%bind_ok_inv.
    pose proof (rd_r8_range _ _ _ H1) as Hl. clear H1.
    apply bind_ok_inv in H as ([] & s2 & H2 & H).
    apply tile_assign_inv in H2 as [_ ->].
    revert H.
    match goal with
    | |- ?m _ = _ → _ =>
        assert (preserves (on_tile (same_on Tile.liquid)) m) as Hp
          by (tile_preserves; done)
    end.
    intros H. apply Hp in H. unfold on_tile, same_on in H. simpl in H.
    by rewrite H.
  - assert (preserves (on_tile (same_on Tile.wall)) (Tile.load_liquid f1 f3)) as Hw
      by (unfold Tile.load_liquid; tile_preserves; done).
    assert (preserves (on_tile (keeps 0x40 false false)) (Tile.load_liquid f1 f3))
      as Hk by (unfold Tile.load_liquid; tile_preserves; keeps_solve).
    apply Hw in H as Ew. apply Hk in H as [Ek _]. done.
Qed.

Lemma load_wires_fields f2 f3 s s' :
  Tile.load_wires f2 f3 s = (Ok tt, s') →
  Z.land (Tile.flags s.2) 0x40 = 0 → 0 ≤ Tile.wall s.2 < 256 →
  let slop := Z.land (Z.shiftr f2 4) 7 in
  Tile.slope s'.2 = (if 1 <? slop then slop - 1 else 0) ∧
  Z.land (Tile.flags s'.2) 0x40 = (if slop =? 1 then 0x40 else 0) ∧
  0 ≤ Tile.wall s'.2 < 65536.
Proof.
  unfold Tile.load_wires. intros H Hf Hw.
  set (slop := Z.land (Z.shiftr f2 4) 7) in *.
  apply bind_ok_inv in H as ([] & s1 & H1 & H).
  apply bind_ok_inv in H as ([] & s2 & H2 & H).
  apply bind_ok_inv in H as ([] & s3 & H3 & H).
  assert (Z.land (Tile.flags s3.2) 0x40 = 0 ∧ Tile.wall s3.2 = Tile.wall s.2)
    as [Hf3 Hw3].
  { apply when_inv in H1 as [[_ H1]|(_ & _ & ->)];
      [apply tile_assign_inv in H1 as [_ ->]|];
    apply when_inv in H2 as [[_ H2]|(_ & _ & ->)];
      [apply tile_assign_inv in H2 as [_ ->]| |apply tile_assign_inv in H2 as [_ ->]|];
    (apply when_inv in H3 as [[_ H3]|(_ & _ & ->)];
      [apply tile_assign_inv in H3 as [_ ->]|]); simpl;
    rewrite ?land_or_flags by done; done. }
  clear H1 H2 H3.
  apply bind_ok_inv in H as ([] & s4 & H4 & H).
  apply bind_ok_inv in H as ([] & s5 & H5 & H).
  apply tile_assign_inv in H5 as [_ ->].
  assert (Z.land (Tile.flags s4.2) 0x40 = (if slop =? 1 then 0x40 else 0) ∧
          Tile.wall s4.2 = Tile.wall s.2) as [Hf4 Hw4].
  { apply when_inv in H4 as [[-> H4]|(-> & _ & ->)]; [|done].
    apply tile_assign_inv in H4 as [_ ->]. simpl.
    rewrite Z.land_lor_distr_l, Hf3. done. }
  clear H4.
  apply bind_ok_inv in H as ([] & s6 & H6 & H).
  apply bind_ok_inv in H as ([] & s7 & H7 & H).
  apply bind_ok_inv in H as ([] & s8 & H8 & H).
  assert (Z.land (Tile.flags s8.2) 0x40 = (if slop =? 1 then 0x40 else 0) ∧
          Tile.wall s8.2 = Tile.wall s.2 ∧
          Tile.slope s8.2 = (if 1 <? slop then slop - 1 else 0)) as (Hf8 & Hw8 & Hs8).
  { apply when_inv in H6 as [[_ H6]|(_ & _ & ->)];
      [apply tile_assign_inv in H6 as [_ ->]|];
    apply when_inv in H7 as [[_ H7]|(_ & _ & ->)];
      [apply tile_assign_inv in H7 as [_ ->]| |apply tile_assign_inv in H7 as [_ ->]|];
    (apply when_inv in H8 as [[_ H8]|(_ & _ & ->)];
      [apply tile_assign_inv in H8 as [_ ->]|]); simpl;
    rewrite ?land_or_flags by done; done. }
  clear H6 H7 H8.
  apply when_inv in H as [[_ H]|(_ & _ & ->)].
  - apply bind_ok_inv in H as (hi & s9 & H9 & H).
    pose proof (rd_r8_range _ _ _ H9) as Hhi.
    apply tile_rd_inv in H9 as [_ E9].
    apply tile_assign_inv in H as [_ ->]. simpl. rewrite E9, Hf8, Hw8, Hs8.
    split; [done|]. split; [done|]. by apply lor_high_byte.
  - rewrite Hf8, Hw8, Hs8. split; [done|]. split; [done|]. lia.
Qed.

Lemma load_rle_range f1 s rle s' :
  Tile.load_rle f1 s = (Ok rle, s') → - 2 ^ 15 ≤ rle < 2 ^ 15.
Proof.
  unfold Tile.load_rle.
  destruct (Z.shiftr f1 6) as [|[[]|[]|]|]; try (intros [= <- <-]; lia).
  - intros [H _]%tile_rd_inv. by apply r16_bytes in H as (_ & _ & _ & ?).
  - intros H%rd_r8_range. lia.
Qed.

Lemma load_rle_same {A} (f : Tile.t → A) f1 :
  preserves (on_tile (same_on f)) (Tile.load_rle f1).
Proof. unfold Tile.load_rle. tile_preserves. Qed.

Lemma load_rest_fields extra f1 s rle s' :
  Tile.load_rest extra f1 s = (Ok rle, s') →
  0 ≤ Tile.type s'.2 < 65536 ∧ 0 ≤ Tile.wall s'.2 < 65536 ∧
  0 ≤ Tile.liquid s'.2 < 256 ∧ 0 ≤ Tile.slope s'.2 ≤ 6 ∧
  (Tile.half s'.2 = true → Tile.slope s'.2 = 0) ∧
  (Tile.active s'.2 = true →
   ∃ ex, extra !! Z.to_nat (Tile.type s'.2) = Some ex ∧
         (ex = false → Tile.u s'.2 = -1 ∧ Tile.v s'.2 = -1)) ∧
  - 2 ^ 15 ≤ rle < 2 ^ 15.
Proof.
  intros H. pose proof (load_rest_post _ _ _ _ _ H) as (Hact & _).
  revert H. unfold Tile.load_rest.
  intros ([f2 f3] & s0 & H0 & H)%bind_ok_inv.
  apply bind_ok_inv in H as ([] & s1 & H1 & H).
  pose proof (load_type_post _ _ _ _ _ _ H1) as [Hfl _].
  apply load_type_fields in H1 as [Hty Hex].
  apply bind_ok_inv in H as ([] & s2 & H2 & H).
  pose proof (load_wall_keeps _ _ _ _ _ H2) as (Hwf & Hwt & _).
  assert (preserves (on_tile (λ a b, Tile.u b = Tile.u a ∧ Tile.v b = Tile.v a))
            (Tile.load_wall f1 f3)) as Hwuv.
  { unfold Tile.load_wall.
    assert (PreOrder (λ a b : Tile.t, Tile.u b = Tile.u a ∧ Tile.v b = Tile.v a)).
    { split; [done|]. intros a b c [] []. split; congruence. }
    tile_preserves; done. }
  pose proof (Hwuv _ _ _ H2) as [Hwu Hwv].
  apply load_wall_fields in H2 as Hwall.
  apply bind_ok_inv in H as ([] & s3 & H3 & H).
  pose proof (load_liquid_keeps _ _ _ _ _ H3) as (_ & Hlt & _).
  assert (preserves (on_tile (λ a b, Tile.u b = Tile.u a ∧ Tile.v b = Tile.v a))
            (Tile.load_liquid f1 f3)) as Hluv.
  { unfold Tile.load_liquid.
    assert (PreOrder (λ a b : Tile.t, Tile.u b = Tile.u a ∧ Tile.v b = Tile.v a)).
    { split; [done|]. intros a b c [] []. split; congruence. }
    tile_preserves; done. }
  pose proof (Hluv _ _ _ H3) as [Hlu Hlv].
  apply load_liquid_fields in H3 as (Hliq & Hlw & Hlf).
  apply bind_ok_inv in H as ([] & s4 & H4 & H).
  pose proof (load_wires_keeps _ _ _ _ _ H4) as (_ & Hwit & Hwil).
  assert (preserves (on_tile (λ a b, Tile.u b = Tile.u a ∧ Tile.v b = Tile.v a))
            (Tile.load_wires f2 f3)) as Hwiuv.
  { unfold Tile.load_wires.
    assert (PreOrder (λ a b : Tile.t, Tile.u b = Tile.u a ∧ Tile.v b = Tile.v a)).
    { split; [done|]. intros a b c [] []. split; congruence. }
    tile_preserves; done. }
  pose proof (Hwiuv _ _ _ H4) as [Hwiu Hwiv].
  apply load_wires_fields in H4 as (Hslope & Hhalf & Hwall4).
  2:{ rewrite Hlf. rewrite Z.land_m1_r in Hwf.
      rewrite (land_under (-1) 0x40) by done. rewrite Z.land_m1_r, Hwf, Hfl.
      by destruct (truthy _). }
  2:{ by rewrite Hlw. }
  pose proof (load_rle_keeps _ _ _ _ H) as (Hrf & Hrt & Hrl).
  pose proof (load_rle_same Tile.wall _ _ _ _ H) as Hrw.
  pose proof (load_rle_same Tile.slope _ _ _ _ H) as Hrs.
  pose proof (load_rle_same Tile.u _ _ _ _ H) as Hru.
  pose proof (load_rle_same Tile.v _ _ _ _ H) as Hrv.
  apply load_rle_range in H.
  unfold on_tile, same_on in *. rewrite Z.land_m1_r in *.
  rewrite Hrt, Hwit, Hlt, Hwt by done. rewrite Hrw, Hrl, Hwil, Hrs by done.
  rewrite Hru, Hrv, Hwiu, Hwiv, Hlu, Hlv, Hwu, Hwv.
  unfold Tile.half, Tile.active. rewrite !Z.land_m1_r in Hrf. rewrite Hrf, Hhalf, Hslope.
  split; [done|]. split; [done|]. split; [done|].
  pose proof (land_below 3 (Z.shiftr f2 4) 7) as Hs.
  split; [destruct (Z.ltb_spec 1 (Z.land (Z.shiftr f2 4) 7)); lia|].
  split.
  { destruct (Z.eqb_spec (Z.land (Z.shiftr f2 4) 7) 1) as [->|]; [done|]. done. }
  split; [|done].
  intros Ha. apply Hex. rewrite <- Hrf, Hact in Ha. by destruct (truthy (Z.land f1 2)).
Qed.

(** ** The length of a tile record *)

Section ReadsAtMost.

Lemma reads_ret {A} (a : A) : reads_at_most 0 (mret a : M Tile.St A).
Proof. intros s r s' [= <- <-]. split; [done|lia]. Qed.

Lemma reads_assign f : reads_at_most 0 (Tile.assign f).
Proof. intros s r s' [= <- <-]. split; [done|simpl; lia]. Qed.

Lemma reads_this {A} (f : Tile.t → A) : reads_at_most 0 (Tile.this f).
Proof. intros s r s' [= <- <-]. split; [done|lia]. Qed.

Lemma reads_index {A} c (l : list A) i : reads_at_most 0 (index c l i).
Proof.
  intros s r s'. unfold index. repeat case_match; intros [= <- <-];
    (split; [done|lia]).
Qed.

Lemma reads_rd_bytes n : reads_at_most (Z.of_nat n) (Tile.rd (readBytes n)).
Proof.
  intros s r s' [H _]%tile_rd_inv. revert H. unfold readBytes.
  case_match; intros [= <- <-]; (split; [done|simpl; lia]).
Qed.

Lemma reads_rd_fixed {A} n (f : list byte → A) :
  reads_at_most (Z.of_nat n) (Tile.rd (bs ← readBytes n; mret (f bs))).
Proof.
  intros s r s' [H _]%tile_rd_inv.
  apply bind_inv in H as [(bs & h1 & H1 & [= <- <-])|(e & H1 & _)];
    revert H1; unfold readBytes; case_match; intros [= <- <-] || intros [= <-];
    (split; [done|simpl; lia]).
Qed.

Lemma reads_rd_r8 : reads_at_most 1 (Tile.rd r8).
Proof. apply (reads_rd_fixed 1). Qed.

Lemma reads_rd_r16 : reads_at_most 2 (Tile.rd r16).
Proof. apply (reads_rd_fixed 2). Qed.

Lemma reads_bind {A B} n1 n2 (m : M Tile.St A) (k : A → M Tile.St B) :
  reads_at_most n1 m → (∀ a, reads_at_most n2 (k a)) → 0 ≤ n2 →
  reads_at_most (n1 + n2) (m ≫= k).
Proof.
  intros Hm Hk Hn s r s' [(a & s1 & H1 & H2)|(e & H1 & _)]%bind_inv.
  - apply Hm in H1 as (Hb1 & Hp1). apply Hk in H2 as (Hb2 & Hp2).
    split; [congruence|lia].
  - apply Hm in H1 as (Hb1 & Hp1). split; [done|lia].
Qed.

Lemma reads_when n (b : bool) (m : M Tile.St unit) :
  reads_at_most n m → 0 ≤ n → reads_at_most n (when b m).
Proof.
  intros Hm Hn. destruct b; [done|]. intros s r s' [= <- <-]. split; [done|lia].
Qed.

Lemma reads_if {A} n1 n2 (b : bool) (m1 m2 : M Tile.St A) :
  reads_at_most n1 m1 → reads_at_most n2 m2 →
  reads_at_most (Z.max n1 n2) (if b then m1 else m2).
Proof.
  intros H1 H2 s r s' H. destruct b; [apply H1 in H|apply H2 in H];
    destruct H as [Hb Hp]; (split; [done|lia]).
Qed.

Lemma reads_weaken {A} n n' (m : M Tile.St A) :
  reads_at_most n m → n ≤ n' → reads_at_most n' m.
Proof. intros Hm Hn s r s' H. apply Hm in H as [Hb Hp]. split; [done|lia]. Qed.

End ReadsAtMost.

Ltac reads_step :=
  lazymatch goal with
  | |- reads_at_most _ (mret _) => apply reads_ret
  | |- reads_at_most _ (Tile.assign _) => apply reads_assign
  | |- reads_at_most _ (Tile.this _) => apply reads_this
  | |- reads_at_most _ (index _ _ _) => apply reads_index
  | |- reads_at_most _ (Tile.rd r8) => apply reads_rd_r8
  | |- reads_at_most _ (Tile.rd r16) => apply reads_rd_r16
  | |- reads_at_most _ (_ ≫= _) =>
      eapply reads_bind; [reads_step|intros ?; reads_step|lia]
  | |- reads_at_most _ (when _ _) => eapply reads_when; [reads_step|lia]
  | |- reads_at_most _ (if _ then _ else _) =>
      eapply reads_if; [reads_step|reads_step]
  end.

Lemma load_rle_reads f1 : reads_at_most 2 (Tile.load_rle f1).
Proof.
  unfold Tile.load_rle.
  destruct (Z.shiftr f1 6) as [|[[]|[]|]|];
    first [ apply reads_rd_r16
          | eapply reads_weaken; [first [apply reads_rd_r8|apply reads_ret]|lia] ].
Qed.

Lemma Tile_load_reads extra : reads_at_most 16 (Tile.load extra).
Proof.
  unfold Tile.load, Tile.load_rest.
  eapply reads_weaken.
  - eapply reads_bind; [reads_step|intros f1|].
    + eapply reads_bind; [unfold Tile.load_flags23; reads_step|intros [f2 f3]|].
      * eapply reads_bind; [unfold Tile.load_type; reads_step|intros ?|].
        -- eapply reads_bind; [unfold Tile.load_wall; reads_step|intros ?|].
           ++ eapply reads_bind; [unfold Tile.load_liquid; reads_step|intros ?|].
              ** eapply reads_bind;
                   [unfold Tile.load_wires; reads_step|intros ?; apply load_rle_reads|].
                 lia.
              ** lia.
           ++ lia.
        -- lia.
      * lia.
    + lia.
  - lia.
Qed.

(** The failures of [Tile::load]. *)
Lemma index_fail_inv {S A} c (l : list A) i (s : S) e s' :
  index c l i s = (Fail e, s') →
  e = IndexOutOfRange c i ∧ s' = s ∧ (i < 0 ∨ (length l ≤ Z.to_nat i)%nat).
Proof.
  unfold index. destruct (Z.leb_spec 0 i).
  - destruct (l !! Z.to_nat i) eqn:E; [done|]. intros [= <- <-].
    apply lookup_ge_None in E. auto.
  - intros [= <- <-]. auto.
Qed.

(** X2: After Tile::load has decoded a record: type and wall are below 65536,
    liquid is below 256, slope is between 0 and 6 and is 0 on a half tile; an
    active tile has a type that the extra-data bitmap covers, and u = v = -1
    when the bitmap gives the type no texture offsets; the run length returned
    is in the range of a signed 16-bit integer, so it can be negative. *)
Theorem Tile_load_field_ranges extra h t rle h' t' :
  Tile.load extra (h, t) = (Ok rle, (h', t')) →
  0 ≤ Tile.type t' < 65536 ∧ 0 ≤ Tile.wall t' < 65536 ∧
  0 ≤ Tile.liquid t' < 256 ∧ 0 ≤ Tile.slope t' ≤ 6 ∧
  (Tile.half t' = true → Tile.slope t' = 0) ∧
  (Tile.active t' = true →
   ∃ ex, extra !! Z.to_nat (Tile.type t') = Some ex ∧
         (ex = false → Tile.u t' = -1 ∧ Tile.v t' = -1)) ∧
  - 2 ^ 15 ≤ rle < 2 ^ 15.
Proof.
  intros [(e & [=] & _)|[_ H]]%load_inv. by apply load_rest_fields in H.
Qed.

Lemma Tile_load_field_ranges_witness :
  let extra := replicate 261 false ++ [true] in
  let t' := Tile.mk 261 258 16 32 (-1) (-1) 7 9 64 0 5 in
  Tile.load extra (mkHandle longest_record 0, blank_tile)
  = (Ok 3, (mkHandle longest_record 16, t')) ∧
  0 ≤ Tile.type t' < 65536 ∧ 0 ≤ Tile.wall t' < 65536 ∧
  0 ≤ Tile.liquid t' < 256 ∧ 0 ≤ Tile.slope t' ≤ 6.
Proof.
  intros extra t'.
  assert (Tile.load extra (mkHandle longest_record 0, blank_tile)
          = (Ok 3, (mkHandle longest_record 16, t'))) as E
    by (vm_compute; reflexivity).
  split; [exact E|].
  destruct (Tile_load_field_ranges extra _ _ _ _ _ E) as (H1 & H2 & H3 & H4 & _).
  split; [exact H1|]. split; [exact H2|]. split; [exact H3|exact H4].
Defined.



(** X3: Tile::load never changes the bytes of the file and never moves the
    cursor back; however it ends, it moves the cursor on by at most 16 bytes;
    a record that decodes has at least one byte and ends within the file. *)
Theorem Tile_load_record_length extra h t r h' t' :
  Tile.load extra (h, t) = (r, (h', t')) →
  bytes h' = bytes h ∧ pos h ≤ pos h' ≤ pos h + 16 ∧
  (∀ rle, r = Ok rle → 0 ≤ pos h ∧ pos h + 1 ≤ pos h' ≤ Handle_length h).
Proof.
  intros H. pose proof (Tile_load_reads extra _ _ _ H) as [Hb Hp].
  split; [done|]. split; [done|]. intros rle ->.
  by apply Tile_load_advances in H as (_ & ? & ?).
Qed.

Lemma Tile_load_record_length_witness :
  let extra := replicate 261 false ++ [true] in
  let t' := Tile.mk 261 258 16 32 (-1) (-1) 7 9 64 0 5 in
  Tile.load extra (mkHandle longest_record 0, blank_tile)
  = (Ok 3, (mkHandle longest_record 16, t')) ∧
  0 ≤ 16 ≤ 0 + 16.
Proof.
  intros extra t'.
  assert (Tile.load extra (mkHandle longest_record 0, blank_tile)
          = (Ok 3, (mkHandle longest_record 16, t'))) as E
    by (vm_compute; reflexivity).
  split; [exact E|].
  exact (proj1 (proj2 (Tile_load_record_length extra _ _ _ _ _ E))).
Defined.

Lemma load_type_failure extra f1 f3 s e s' :
  Tile.load_type extra f1 f3 s = (Fail e, s') → extra_error extra e.
Proof.
  unfold Tile.load_type.
  intros [([] & s1 & H1 & H)|(e' & [=] & _)]%bind_inv.
  destruct (truthy (Z.land f1 2)); [|discriminate H].
  apply bind_inv in H as [(ty & s2 & H2 & H)|(e' & H2 & [= <-])].
  2:{ left. revert H2. apply (fails_zoom (λ e, e = UnexpectedEof)).
      repeat fails_step; done. }
  pose proof (rd_r8_range _ _ _ H2) as Hty. clear H2.
  apply bind_inv in H as [([] & s3 & H3 & H)|(e' & [=] & _)].
  apply tile_assign_inv in H3 as [_ ->].
  apply bind_inv in H as [([] & s4 & H4 & H)|(e' & H4 & [= <-])].
  2:{ left. revert H4.
      match goal with
      | |- ?m _ = _ → _ =>
          assert (fails_with (λ e, e = UnexpectedEof) m) as Hf
            by (repeat fails_step; done)
      end.
      apply Hf. }
  assert (0 ≤ Tile.type s4.2 < 65536) as Hr.
  { apply when_inv in H4 as [[_ H4]|(_ & _ & ->)]; [|simpl; lia].
    apply bind_ok_inv in H4 as (hi & s5 & H5 & H4).
    pose proof (rd_r8_range _ _ _ H5) as Hhi.
    apply tile_rd_inv in H5 as [_ E5].
    apply tile_assign_inv in H4 as [_ ->]. simpl. rewrite E5. simpl.
    by apply lor_high_byte. }
  clear H4.
  apply bind_inv in H as [(ty' & s5 & H5 & H)|(e' & [=] & _)].
  apply tile_this_inv in H5 as [[= ->] ->].
  apply bind_inv in H as [(ex & s6 & H6 & H)|(e' & H6 & [= <-])].
  2:{ right. apply index_fail_inv in H6 as (-> & _ & [Hn|Hn]); [lia|].
      exists (Tile.type s4.2). done. }
  left. revert H.
  match goal with
  | |- ?m _ = _ → _ =>
      assert (fails_with (λ e, e = UnexpectedEof) m) as Hf
        by (repeat fails_step; done)
  end.
  apply Hf.
Qed.

(** X4: Tile::load fails in two ways only: a read past the end of the file, or
    the lookup extra[type] of a type (a value below 65536) that the extra-data
    bitmap does not cover, its length being at most the type. *)
Theorem Tile_load_failures extra h t e h' t' :
  Tile.load extra (h, t) = (Fail e, (h', t')) → extra_error extra e.
Proof.
  unfold Tile.load.
  intros [(f1 & s1 & H1 & H)|(e' & H1 & [= <-])]%bind_inv.
  2:{ left. revert H1. apply (fails_zoom (λ e, e = UnexpectedEof)).
      repeat fails_step; done. }
  unfold Tile.load_rest in H.
  apply bind_inv in H as [([f2 f3] & s2 & H2 & H)|(e' & H2 & [= <-])].
  2:{ left. revert H2.
      assert (fails_with (λ e, e = UnexpectedEof) (Tile.load_flags23 f1)) as Hf
        by (unfold Tile.load_flags23; repeat fails_step; done).
      apply Hf. }
  apply bind_inv in H as [([] & s3 & H3 & H)|(e' & H3 & [= <-])].
  2:{ by apply load_type_failure in H3. }
  left. revert H.
  match goal with
  | |- ?m _ = _ → _ =>
      assert (fails_with (λ e, e = UnexpectedEof) m) as Hf
        by (unfold Tile.load_wall, Tile.load_liquid, Tile.load_wires,
              Tile.load_rle; repeat fails_step; done)
  end.
  apply Hf.
Qed.

Lemma Tile_load_failures_witness :
  ∃ h' t',
    Tile.load [false; false] (mkHandle example_record 0, blank_tile)
    = (Fail (IndexOutOfRange Cextra 5), (h', t')) ∧
    extra_error [false; false] (IndexOutOfRange Cextra 5).
Proof.
  destruct (Tile.load [false; false] (mkHandle example_record 0, blank_tile))
    as [r [h' t']] eqn:E.
  assert (r = Fail (IndexOutOfRange Cextra 5)) as ->
    by (vm_compute in E; congruence).
  exists h', t'. split; [reflexivity|].
  exact (Tile_load_failures _ _ _ _ _ _ E).
Defined.

(** ** The wires, the slope and the other flags of a decoded tile *)

Lemma testbit_bit_if c k j :
  0 ≤ k → Z.testbit (bit_if c (2 ^ k)) j = c && (j =? k).
Proof.
  intros Hk. destruct c; simpl; [|apply Z.bits_0].
  destruct (Z.eqb_spec j k) as [->|Hne].
  - by apply Z.pow2_bits_true.
  - apply Z.pow2_bits_false. lia.
Qed.

Lemma when_or_flags_inv c bit s r s' :
  when c (Tile.assign (Tile.or_flags bit)) s = (r, s') →
  r = Ok tt ∧ s'.1 = s.1 ∧
  Tile.flags s'.2 = Z.lor (Tile.flags s.2) (bit_if c bit) ∧
  Tile.slope s'.2 = Tile.slope s.2.
Proof.
  destruct c; intros [= <- <-]; simpl; [done|]. by rewrite Z.lor_0_r.
Qed.

Lemma load_flags23_inv f1 h t f2 f3 s' :
  f1 = byte_at (bytes h) (pos h) → 0 ≤ pos h →
  Tile.load_flags23 f1 (mkHandle (bytes h) (pos h + 1), t) = (Ok (f2, f3), s') →
  f2 = record_flags2 (bytes h) (pos h) ∧ f3 = record_flags3 (bytes h) (pos h).
Proof.
  intros -> Hp. unfold Tile.load_flags23, record_flags3, record_flags2.
  destruct (truthy (Z.land (byte_at (bytes h) (pos h)) 1)).
  2:{ by intros [= <- <- <-]. }
  intros (f2' & s1 & H1 & H)%bind_ok_inv.
  apply tile_rd_inv in H1 as [H1 E1]. simpl in H1.
  apply r8_inv in H1 as (_ & _ & -> & Eh). simpl in *.
  destruct (truthy (Z.land (byte_at (bytes h) (pos h + 1)) 1)).
  2:{ by injection H as <- <- <-. }
  apply bind_ok_inv in H as (f3' & s2 & H2 & [= <- <- <-]).
  apply tile_rd_inv in H2 as [H2 E2]. rewrite Eh in H2.
  apply r8_inv in H2 as (_ & _ & -> & _). simpl.
  split; [done|]. f_equal. lia.
Qed.

Lemma load_liquid_flags f1 f3 s s' :
  Tile.load_liquid f1 f3 s = (Ok tt, s') →
  Tile.flags s'.2
  = Z.lor (Z.lor (Z.lor (Tile.flags s.2)
                    (bit_if (truthy (Z.land f1 0x18)
                             && (Z.land f1 0x18 =? 0x10)) (2 ^ 1)))
             (bit_if (truthy (Z.land f1 0x18)
                      && (Z.land f1 0x18 =? 0x18)) (2 ^ 2)))
      (bit_if (truthy (Z.land f1 0x18) && truthy (Z.land f3 0x80)) (2 ^ 11)).
Proof.
  unfold Tile.load_liquid. destruct (truthy (Z.land f1 0x18)).
  2:{ intros [_ ->]%tile_assign_inv. simpl. by rewrite !Z.lor_0_r. }
  intros (l & s1 & H1 & H)%bind_ok_inv. apply tile_rd_inv in H1 as [_ E1].
  apply bind_ok_inv in H as ([] & s2 & H2 & H).
  apply tile_assign_inv in H2 as [_ ->].
  apply bind_ok_inv in H as ([] & s3 & H3 & H).
  apply when_or_flags_inv in H3 as (_ & _ & F3 & _).
  apply bind_ok_inv in H as ([] & s4 & H4 & H).
  apply when_or_flags_inv in H4 as (_ & _ & F4 & _).
  apply when_or_flags_inv in H as (_ & _ & F5 & _).
  rewrite F5, F4, F3. simpl. by rewrite E1.
Qed.

Lemma load_wires_flags f2 f3 s s' :
  Tile.load_wires f2 f3 s = (Ok tt, s') →
  Tile.flags s'.2
  = Z.lor (Z.lor (Z.lor (Z.lor (Z.lor (Z.lor (Z.lor (Tile.flags s.2)
      (bit_if (truthy (Z.land f2 2)) (2 ^ 3)))
      (bit_if (truthy (Z.land f2 4)) (2 ^ 4)))
      (bit_if (truthy (Z.land f2 8)) (2 ^ 5)))
      (bit_if (Z.land (Z.shiftr f2 4) 7 =? 1) (2 ^ 6)))
      (bit_if (truthy (Z.land f3 2)) (2 ^ 7)))
      (bit_if (truthy (Z.land f3 4)) (2 ^ 8)))
      (bit_if (truthy (Z.land f3 32)) (2 ^ 10)).
Proof.
  unfold Tile.load_wires. intros H.
  apply bind_ok_inv in H as ([] & s1 & H1 & H).
  apply when_or_flags_inv in H1 as (_ & _ & F1 & _).
  apply bind_ok_inv in H as ([] & s2 & H2 & H).
  apply when_or_flags_inv in H2 as (_ & _ & F2 & _).
  apply bind_ok_inv in H as ([] & s3 & H3 & H).
  apply when_or_flags_inv in H3 as (_ & _ & F3 & _).
  apply bind_ok_inv in H as ([] & s4 & H4 & H).
  apply when_or_flags_inv in H4 as (_ & _ & F4 & _).
  apply bind_ok_inv in H as ([] & s5 & H5 & H).
  apply tile_assign_inv in H5 as [_ ->].
  apply bind_ok_inv in H as ([] & s6 & H6 & H).
  apply when_or_flags_inv in H6 as (_ & _ & F6 & _).
  apply bind_ok_inv in H as ([] & s7 & H7 & H).
  apply when_or_flags_inv in H7 as (_ & _ & F7 & _).
  apply bind_ok_inv in H as ([] & s8 & H8 & H).
  apply when_or_flags_inv in H8 as (_ & _ & F8 & _).
  assert (Tile.flags s'.2 = Tile.flags s8.2) as ->.
  { apply when_inv in H as [[_ H]|(_ & _ & ->)]; [|done].
    apply bind_ok_inv in H as (hi & s9 & H9 & H).
    apply tile_rd_inv in H9 as [_ E9].
    apply tile_assign_inv in H as [_ ->]. simpl. by rewrite E9. }
  rewrite F8, F7, F6. simpl Tile.flags. by rewrite F4, F3, F2, F1.
Qed.

Lemma load_rest_flags_exact extra f1 s f2 f3 s0 rle s' :
  Tile.load_flags23 f1 s = (Ok (f2, f3), s0) →
  Tile.load_rest extra f1 s = (Ok rle, s') →
  Tile.flags s'.2
  = Z.lor (Z.lor (Z.lor (Z.lor (Z.lor (Z.lor (Z.lor
      (Z.lor (Z.lor (Z.lor (bit_if (truthy (Z.land f1 2)) (2 ^ 0))
                    (bit_if (truthy (Z.land f1 0x18)
                             && (Z.land f1 0x18 =? 0x10)) (2 ^ 1)))
             (bit_if (truthy (Z.land f1 0x18)
                      && (Z.land f1 0x18 =? 0x18)) (2 ^ 2)))
      (bit_if (truthy (Z.land f1 0x18) && truthy (Z.land f3 0x80)) (2 ^ 11)))
      (bit_if (truthy (Z.land f2 2)) (2 ^ 3)))
      (bit_if (truthy (Z.land f2 4)) (2 ^ 4)))
      (bit_if (truthy (Z.land f2 8)) (2 ^ 5)))
      (bit_if (Z.land (Z.shiftr f2 4) 7 =? 1) (2 ^ 6)))
      (bit_if (truthy (Z.land f3 2)) (2 ^ 7)))
      (bit_if (truthy (Z.land f3 4)) (2 ^ 8)))
      (bit_if (truthy (Z.land f3 32)) (2 ^ 10)).
Proof.
  intros H0 H. unfold Tile.load_rest in H.
  apply bind_ok_inv in H as ([f2' f3'] & s0' & H0' & H).
  rewrite H0 in H0'. injection H0' as <- <- <-.
  apply bind_ok_inv in H as ([] & s1 & H1 & H).
  apply load_type_post in H1 as [Hf _].
  apply bind_ok_inv in H as ([] & s2 & H2 & H).
  apply load_wall_keeps in H2 as (Hw & _). rewrite !Z.land_m1_r in Hw.
  apply bind_ok_inv in H as ([] & s3 & H3 & H).
  apply load_liquid_flags in H3.
  apply bind_ok_inv in H as ([] & s4 & H4 & H).
  apply load_wires_flags in H4.
  apply load_rle_keeps in H as (Hr & _). rewrite !Z.land_m1_r in Hr.
  rewrite Hr, H4, H3, Hw, Hf. by destruct (truthy (Z.land f1 2)).
Qed.

Lemma load_wires_slope f2 f3 s s' :
  Tile.load_wires f2 f3 s = (Ok tt, s') →
  Tile.slope s'.2
  = (if 1 <? Z.land (Z.shiftr f2 4) 7 then Z.land (Z.shiftr f2 4) 7 - 1 else 0).
Proof.
  unfold Tile.load_wires. intros H.
  do 4 apply bind_ok_inv in H as ([] & ? & _ & H).
  apply bind_ok_inv in H as ([] & s5 & H5 & H).
  apply tile_assign_inv in H5 as [_ ->].
  apply bind_ok_inv in H as ([] & s6 & H6 & H).
  apply when_or_flags_inv in H6 as (_ & _ & _ & S6).
  apply bind_ok_inv in H as ([] & s7 & H7 & H).
  apply when_or_flags_inv in H7 as (_ & _ & _ & S7).
  apply bind_ok_inv in H as ([] & s8 & H8 & H).
  apply when_or_flags_inv in H8 as (_ & _ & _ & S8).
  assert (Tile.slope s'.2 = Tile.slope s8.2) as ->.
  { apply when_inv in H as [[_ H]|(_ & _ & ->)]; [|done].
    apply bind_ok_inv in H as (hi & s9 & H9 & H).
    apply tile_rd_inv in H9 as [_ E9].
    apply tile_assign_inv in H as [_ ->]. simpl. by rewrite E9. }
  by rewrite S8, S7, S6.
Qed.

Ltac flag_bit :=
  rewrite !Z.lor_spec, !testbit_bit_if by lia; cbn [Z.eqb Pos.eqb];
  rewrite ?andb_false_r, ?andb_true_r, ?orb_false_r; cbn [orb];
  rewrite ?orb_false_r.

(** X5: The wires and the shape of a decoded tile as functions of the three
    flag bytes f1, f2, f3 of its record (f2 is in the file when bit 0 of f1 is
    set, f3 when bit 0 of f2 is, and each counts as 0 otherwise): red, blue
    and green wire are bits 1, 2 and 3 of f2; yellow wire, actuator and
    inactive are bits 5, 1 and 2 of f3; shimmer holds when f1 has a liquid bit
    (mask 0x18) and f3 has bit 7, and only then; with s the bits 4 to 6 of f2,
    the tile is a half tile when s = 1 and its slope is s - 1 when s > 1, 0
    otherwise. *)
Theorem Tile_load_wires extra h t rle h' t' :
  Tile.load extra (h, t) = (Ok rle, (h', t')) →
  let f1 := byte_at (bytes h) (pos h) in
  let f2 := record_flags2 (bytes h) (pos h) in
  let f3 := record_flags3 (bytes h) (pos h) in
  let slop := Z.land (Z.shiftr f2 4) 7 in
  Tile.redWire t' = truthy (Z.land f2 2) ∧
  Tile.blueWire t' = truthy (Z.land f2 4) ∧
  Tile.greenWire t' = truthy (Z.land f2 8) ∧
  Tile.yellowWire t' = truthy (Z.land f3 32) ∧
  Tile.actuator t' = truthy (Z.land f3 2) ∧
  Tile.inactive t' = truthy (Z.land f3 4) ∧
  Tile.shimmer t' = truthy (Z.land f1 0x18) && truthy (Z.land f3 0x80) ∧
  Tile.half t' = (slop =? 1) ∧
  Tile.slope t' = (if 1 <? slop then slop - 1 else 0).
Proof.
  intros [(e & [=] & _)|[Hp H]]%load_inv f1 f2 f3 slop. fold f1 in H.
  pose proof H as H'. unfold Tile.load_rest in H'.
  apply bind_ok_inv in H' as ([f2' f3'] & s0 & H0 & H').
  pose proof (load_flags23_inv _ _ _ _ _ _ eq_refl (proj1 Hp) H0) as [E2 E3].
  fold f2 in E2. fold f3 in E3. subst f2' f3'.
  pose proof (load_rest_flags_exact _ _ _ _ _ _ _ _ H0 H) as Hf.
  do 3 apply bind_ok_inv in H' as ([] & ? & _ & H').
  apply bind_ok_inv in H' as ([] & s4 & H4 & H').
  apply load_wires_slope in H4.
  apply (load_rle_same Tile.slope) in H'. unfold on_tile, same_on in H'.
  simpl in Hf, H'. fold slop in H4, Hf.
  unfold Tile.redWire, Tile.blueWire, Tile.greenWire, Tile.yellowWire,
    Tile.actuator, Tile.inactive, Tile.shimmer, Tile.half.
  change 8 with (2 ^ 3) at 1. change 16 with (2 ^ 4) at 1.
  change 32 with (2 ^ 5) at 1. change 1024 with (2 ^ 10) at 1.
  change 128 with (2 ^ 7) at 1. change 256 with (2 ^ 8) at 1.
  change 2048 with (2 ^ 11) at 1. change 64 with (2 ^ 6) at 1.
  rewrite !truthy_land_pow2 by lia. rewrite Hf.
  split; [by flag_bit|]. split; [by flag_bit|]. split; [by flag_bit|].
  split; [by flag_bit|]. split; [by flag_bit|]. split; [by flag_bit|].
  split; [by flag_bit|]. split; [by flag_bit|]. by rewrite H', H4.
Qed.

Lemma Tile_load_wires_witness :
  let t' := Tile.mk 0 0 (-1) (-1) (-1) (-1) 0 0 0 1 0x528 in
  Tile.load [] (mkHandle wired_record 0, blank_tile)
  = (Ok 0, (mkHandle wired_record 3, t')) ∧
  Tile.redWire t' = true ∧ Tile.blueWire t' = false ∧
  Tile.greenWire t' = true ∧ Tile.yellowWire t' = true ∧
  Tile.actuator t' = false ∧ Tile.inactive t' = true ∧
  Tile.shimmer t' = false ∧ Tile.half t' = false ∧ Tile.slope t' = 1.
Proof.
  intros t'.
  assert (Tile.load [] (mkHandle wired_record 0, blank_tile)
          = (Ok 0, (mkHandle wired_record 3, t'))) as E
    by (vm_compute; reflexivity).
  split; [exact E|]. exact (Tile_load_wires [] _ _ _ _ _ E).
Defined.

(** ** The seen flag *)

Lemma setSeen_testbit b a j :
  j ≠ 9 → Z.testbit (Tile.flags (Tile.setSeen b a)) j = Z.testbit (Tile.flags a) j.
Proof.
  intros Hj. destruct (Z.ltb_spec j 0) as [Hn|Hn]; [by rewrite !Z.testbit_neg_r|].
  destruct b; unfold Tile.setSeen; simpl; change 512 with (2 ^ 9).
  - rewrite Z.lor_spec, Z.pow2_bits_false by lia. apply orb_false_r.
  - rewrite Z.land_spec, Z.lnot_spec, Z.pow2_bits_false by lia. apply andb_true_r.
Qed.

Lemma setSeen_land b a j :
  0 ≤ j → j ≠ 9 →
  truthy (Z.land (Tile.flags (Tile.setSeen b a)) (2 ^ j))
  = truthy (Z.land (Tile.flags a) (2 ^ j)).
Proof. intros H0 Hj. by rewrite !truthy_land_pow2, setSeen_testbit. Qed.

(** X6: Tile::setSeen(b) makes seen() return b, a second call overrides the
    first, and nothing else changes: every field and every bit of the flags
    but 0x200 is kept, so active, lava, honey, shimmer, the four wires, half,
    actuator and inactive return what they returned before. *)
Theorem setSeen_seen b a :
  Tile.seen (Tile.setSeen b a) = b ∧
  (∀ c, Tile.setSeen b (Tile.setSeen c a) = Tile.setSeen b a) ∧
  alike_but_seen a (Tile.setSeen b a) ∧
  Tile.active (Tile.setSeen b a) = Tile.active a ∧
  Tile.lava (Tile.setSeen b a) = Tile.lava a ∧
  Tile.honey (Tile.setSeen b a) = Tile.honey a ∧
  Tile.shimmer (Tile.setSeen b a) = Tile.shimmer a ∧
  Tile.redWire (Tile.setSeen b a) = Tile.redWire a ∧
  Tile.blueWire (Tile.setSeen b a) = Tile.blueWire a ∧
  Tile.greenWire (Tile.setSeen b a) = Tile.greenWire a ∧
  Tile.yellowWire (Tile.setSeen b a) = Tile.yellowWire a ∧
  Tile.half (Tile.setSeen b a) = Tile.half a ∧
  Tile.actuator (Tile.setSeen b a) = Tile.actuator a ∧
  Tile.inactive (Tile.setSeen b a) = Tile.inactive a.
Proof.
  split.
  { unfold Tile.seen. change 512 with (2 ^ 9). rewrite truthy_land_pow2 by lia.
    destruct b; unfold Tile.setSeen; cbn [Tile.flags Tile.set_flags];
      change 512 with (2 ^ 9).
    - rewrite Z.lor_spec, Z.pow2_bits_true by lia. apply orb_true_r.
    - rewrite Z.land_spec, Z.lnot_spec, Z.pow2_bits_true by lia.
      apply andb_false_r. }
  split.
  { intros c. destruct a as [ty wa u v wu wv co wc li sl fl].
    destruct b, c; unfold Tile.setSeen, Tile.set_flags; simpl; f_equal;
      apply Z.bits_inj'; intros n Hn;
      rewrite ?Z.lor_spec, ?Z.land_spec, ?Z.lnot_spec, ?Z.lor_spec by done;
      destruct (Z.testbit fl n), (Z.testbit 512 n); done. }
  split.
  { unfold alike_but_seen. destruct b; simpl; repeat split; try done;
      intros i Hi; [apply (setSeen_testbit true)|apply (setSeen_testbit false)];
      done. }
  unfold Tile.active, Tile.lava, Tile.honey, Tile.shimmer, Tile.redWire,
    Tile.blueWire, Tile.greenWire, Tile.yellowWire, Tile.half, Tile.actuator,
    Tile.inactive.
  split; [refine (setSeen_land b a 0 _ _); lia|].
  split; [refine (setSeen_land b a 1 _ _); lia|].
  split; [refine (setSeen_land b a 2 _ _); lia|].
  split; [refine (setSeen_land b a 11 _ _); lia|].
  split; [refine (setSeen_land b a 3 _ _); lia|].
  split; [refine (setSeen_land b a 4 _ _); lia|].
  split; [refine (setSeen_land b a 5 _ _); lia|].
  split; [refine (setSeen_land b a 10 _ _); lia|].
  split; [refine (setSeen_land b a 6 _ _); lia|].
  split; [refine (setSeen_land b a 7 _ _); lia|].
  refine (setSeen_land b a 8 _ _); lia.
Qed.

(** ** The run copied below a decoded tile *)

Lemma cell_inj w i j x y :
  0 ≤ i < w → 0 ≤ x < w → j * w + i = y * w + x → i = x ∧ j = y.
Proof. intros Hi Hx E. assert (j = y) as -> by nia. lia. Qed.

Lemma set_tiles_set_tiles x y w : set_tiles x (set_tiles y w) = set_tiles x w.
Proof. done. Qed.

Lemma tile_put_inv offset b s r s' :
  tile_put offset b s = (r, s') →
  (r = Ok tt ∧ 0 ≤ offset ∧ (Z.to_nat offset < length (tiles (world s)))%nat ∧
   s' = set_world (set_tiles (<[Z.to_nat offset := b]> (tiles (world s)))
                     (world s)) s) ∨
  (r = Fail (IndexOutOfRange Ctiles offset) ∧ s' = s ∧
   (offset < 0 ∨ (length (tiles (world s)) ≤ Z.to_nat offset)%nat)).
Proof.
  unfold tile_put. intros [(a & s1 & H1 & H)|(e & H1 & ->)]%bind_inv.
  - apply tile_get_inv in H1 as (Ho & Ha & ->). injection H as <- <-.
    left. apply lookup_lt_Some in Ha. done.
  - right. apply tile_get_fail in H1 as (-> & -> & ?). done.
Qed.

Lemma copy_run_spec k : ∀ offset dest s d s',
  0 < tilesWide (world s) → offset < dest →
  copy_run k offset dest s = (Ok d, s') →
  d = dest + tilesWide (world s) * Z.of_nat k ∧
  cur s' = cur s ∧ emitted s' = emitted s ∧
  world s' = set_tiles (tiles (world s')) (world s) ∧
  length (tiles (world s')) = length (tiles (world s)) ∧
  (k ≠ O → 0 ≤ offset ∧
           dest + tilesWide (world s) * (Z.of_nat k - 1)
           < Z.of_nat (length (tiles (world s)))) ∧
  (∀ j, 0 ≤ j < Z.of_nat k →
        tiles (world s') !! Z.to_nat (dest + tilesWide (world s) * j)
        = tiles (world s) !! Z.to_nat offset) ∧
  (∀ i, (∀ j, 0 ≤ j < Z.of_nat k →
              i ≠ Z.to_nat (dest + tilesWide (world s) * j)) →
        tiles (world s') !! i = tiles (world s) !! i).
Proof.
  induction k as [|k IH]; intros offset dest s d s' Hw Hod H.
  - injection H as <- <-. rewrite set_tiles_tiles.
    repeat split; try done; try lia.
  - cbn [copy_run] in H.
    apply bind_ok_inv in H as (a & s0 & H0 & H).
    apply tile_get_inv in H0 as (Ho & Ha & ->).
    apply bind_ok_inv in H as ([] & s1 & H1 & H).
    apply tile_put_inv in H1 as [(_ & Hd & Hdl & ->)|([=] & _)].
    apply bind_ok_inv in H as (w & s2 & [= <- <-] & H).
    set (s1 := set_world _ s) in *.
    assert (tilesWide (world s1) = tilesWide (world s)) as Ew by done.
    assert (tiles (world s1) = <[Z.to_nat dest := a]> (tiles (world s))) as Et
      by done.
    apply IH in H as (-> & Hc & He & Hwo & Hl & Hr & Hj & Hi);
      [|by rewrite Ew|lia].
    rewrite Ew, Et in *. rewrite length_insert in *.
    split; [lia|]. split; [done|]. split; [done|]. split; [done|].
    split; [done|]. split.
    { intros _. split; [done|]. destruct k as [|k]; [lia|].
      destruct Hr as [_ Hr]; [done|]. lia. }
    split.
    + intros j Hjr. destruct (decide (j = 0)) as [->|Hj0].
      * rewrite Z.mul_0_r, Z.add_0_r, Hi.
        -- rewrite list_lookup_insert_eq by done. done.
        -- intros j Hjk. nia.
      * replace (dest + tilesWide (world s) * j)
          with (dest + tilesWide (world s) + tilesWide (world s) * (j - 1))
          by lia.
        rewrite Hj by lia. apply list_lookup_insert_ne. lia.
    + intros i Hne. rewrite Hi.
      * apply list_lookup_insert_ne. specialize (Hne 0). rewrite Z.mul_0_r, Z.add_0_r in Hne.
        intros E. apply Hne; [lia|done].
      * intros j Hjk. specialize (Hne (j + 1)).
        replace (dest + tilesWide (world s) * (j + 1))
          with (dest + tilesWide (world s) + tilesWide (world s) * j) in Hne
          by lia.
        apply Hne. lia.
Qed.

(** One turn of the inner loop of [loadTiles]: the tile decoded at
    [offset] and the run copied below it. *)
Lemma column_turn extra offset s rle s1 d s2 :
  0 < tilesWide (world s) →
  at_tile offset (Tile.load extra) s = (Ok rle, s1) →
  copy_run (Z.to_nat rle) offset (offset + tilesWide (world s1)) s1 = (Ok d, s2) →
  ∃ a h1 a1,
    0 ≤ offset ∧ tiles (world s) !! Z.to_nat offset = Some a ∧
    Tile.load extra (cur s, a) = (Ok rle, (h1, a1)) ∧
    cur s2 = h1 ∧ emitted s2 = emitted s ∧
    world s2 = set_tiles (tiles (world s2)) (world s) ∧
    length (tiles (world s2)) = length (tiles (world s)) ∧
    d = offset + tilesWide (world s) * (Z.of_nat (Z.to_nat rle) + 1) ∧
    offset + tilesWide (world s) * Z.of_nat (Z.to_nat rle)
    < Z.of_nat (length (tiles (world s))) ∧
    (∀ j, 0 ≤ j ≤ Z.of_nat (Z.to_nat rle) →
          tiles (world s2) !! Z.to_nat (offset + tilesWide (world s) * j)
          = Some a1) ∧
    (∀ i, (∀ j, 0 ≤ j ≤ Z.of_nat (Z.to_nat rle) →
                i ≠ Z.to_nat (offset + tilesWide (world s) * j)) →
          tiles (world s2) !! i = tiles (world s) !! i).
Proof.
  intros Hw H1 H2.
  apply at_tile_inv in H1 as [(a & h1 & a1 & Ho & Ha & Hl & ->)|([=] & _)].
  pose proof (lookup_lt_Some _ _ _ Ha) as Hlt.
  apply copy_run_spec in H2 as (-> & Hc & He & Hwo & Hlen & Hr & Hj & Hi);
    [|done|simpl; lia].
  cbn [world cur emitted set_tiles tilesWide tiles] in *.
  rewrite length_insert in *.
  exists a, h1, a1. split; [done|]. split; [done|]. split; [done|].
  split; [done|]. split; [done|]. split; [done|]. split; [done|].
  split; [lia|]. split.
  { destruct (Z.to_nat rle) as [|k]; [lia|]. destruct Hr as [_ Hr]; [done|]. lia. }
  split.
  - intros j Hjr. destruct (decide (j = 0)) as [->|Hj0].
    + rewrite Z.mul_0_r, Z.add_0_r, Hi.
      * by apply list_lookup_insert_eq.
      * intros j Hjk. nia.
    + replace (offset + tilesWide (world s) * j)
        with (offset + tilesWide (world s) + tilesWide (world s) * (j - 1)) by lia.
      rewrite Hj by lia. by apply list_lookup_insert_eq.
  - intros i Hne. rewrite Hi.
    + apply list_lookup_insert_ne. specialize (Hne 0).
      rewrite Z.mul_0_r, Z.add_0_r in Hne. intros E. apply Hne; [lia|done].
    + intros j Hjk. specialize (Hne (j + 1)).
      replace (offset + tilesWide (world s) * (j + 1))
        with (offset + tilesWide (world s) + tilesWide (world s) * j) in Hne
        by lia.
      apply Hne. lia.
Qed.

Lemma tiles_only_grid s s' :
  world s' = set_tiles (tiles (world s')) (world s) →
  length (tiles (world s')) = length (tiles (world s)) →
  grid_kept s s'.
Proof.
  intros Hw Hl. unfold grid_kept. rewrite Hw. cbn [tilesWide tilesHigh tiles set_tiles].
  done.
Qed.

(** A column whose offset lies below the row it counts never ends well:
    the offset leaves the grid before the row count reaches its height. *)
Lemma column_lagging extra fuel : ∀ x y row s s',
  grid_wf (world s) → 0 ≤ x < tilesWide (world s) →
  y < row → y < tilesHigh (world s) →
  loadTiles_column fuel extra y (row * tilesWide (world s) + x) s ≠ (Ok tt, s').
Proof.
  induction fuel as [|fuel IH]; intros x y row s s' Hwf Hx Hy Hyh H; [done|].
  cbn [loadTiles_column] in H.
  unfold mbind at 1, M_bind at 1, the at 1, gets at 1 in H.
  rewrite (proj2 (Z.ltb_lt _ _) Hyh) in H.
  apply bind_ok_inv in H as (rle & s1 & H1 & H).
  apply bind_ok_inv in H as (w & s1' & [= <- <-] & H).
  apply bind_ok_inv in H as (d & s2 & H2 & H).
  assert (0 < tilesWide (world s)) as Hwpos by lia.
  destruct (column_turn _ _ _ _ _ _ _ Hwpos H1 H2)
    as (a & h1 & a1 & Ho & Ha & _ & _ & _ & Hwo & Hlen & -> & Hr & _).
  pose proof (tiles_only_grid _ _ Hwo Hlen) as Hk.
  pose proof (grid_kept_wf _ _ Hk Hwf) as Hwf2.
  destruct Hk as (Hw2 & Hh2 & _). destruct Hwf as (Hw0 & Hh0 & Hl0).
  rewrite Hl0 in Hr.
  replace (row * tilesWide (world s) + x +
           tilesWide (world s) * (Z.of_nat (Z.to_nat rle) + 1))
    with ((row + Z.of_nat (Z.to_nat rle) + 1) * tilesWide (world s2) + x) in H
    by (rewrite Hw2; lia).
  eapply IH in H; [done|done|by rewrite Hw2|lia|]. rewrite Hh2. nia.
Qed.

(** When the decoder of the source gets through a column, no run of the
    column was negative or left it: the guarded decoder gets through it
    alike. *)
Lemma column_ok_guarded extra fuel : ∀ x y s s',
  grid_wf (world s) → 0 ≤ x < tilesWide (world s) → 0 ≤ y →
  loadTiles_column fuel extra y (y * tilesWide (world s) + x) s = (Ok tt, s') →
  loadTiles_column_guarded fuel extra y (y * tilesWide (world s) + x) s
  = (Ok tt, s').
Proof.
  induction fuel as [|fuel IH]; intros x y s s' Hwf Hx Hy H; [done|].
  cbn [loadTiles_column loadTiles_column_guarded] in *.
  unfold mbind at 1, M_bind at 1, the at 1, gets at 1 in H.
  unfold mbind at 1, M_bind at 1, the at 1, gets at 1.
  destruct (Z.ltb_spec y (tilesHigh (world s))) as [Hyh|Hyh]; [|done].
  apply bind_ok_inv in H as (rle & s1 & H1 & H).
  unfold mbind at 1, M_bind at 1. rewrite H1.
  apply bind_ok_inv in H as (w & s1' & [= <- <-] & H).
  apply bind_ok_inv in H as (d & s2 & H2 & H).
  assert (0 < tilesWide (world s)) as Hwpos by lia.
  destruct (column_turn _ _ _ _ _ _ _ Hwpos H1 H2)
    as (a & h1 & a1 & Ho & Ha & _ & _ & _ & Hwo & Hlen & Ed & Hr & _).
  pose proof (tiles_only_grid _ _ Hwo Hlen) as Hk.
  pose proof (grid_kept_wf _ _ Hk Hwf) as Hwf2.
  destruct Hk as (Hw2 & Hh2 & _). pose proof Hwf as (Hw0 & Hh0 & Hl0).
  rewrite Hl0 in Hr.
  assert (tilesHigh (world s1) = tilesHigh (world s)) as Hh1.
  { apply at_tile_inv in H1 as [(? & ? & ? & _ & _ & _ & ->)|([=] & _)]. done. }
  destruct (Z.ltb_spec rle 0) as [Hneg|Hneg].
  { exfalso. rewrite Ed in H.
    replace (Z.of_nat (Z.to_nat rle)) with 0 in H by lia.
    replace (y * tilesWide (world s) + x + tilesWide (world s) * (0 + 1))
      with ((y + 1) * tilesWide (world s2) + x) in H by (rewrite Hw2; lia).
    eapply column_lagging in H; [done|done|by rewrite Hw2|lia|]. rewrite Hh2. lia. }
  destruct (Z.leb_spec (tilesHigh (world s)) (y + rle)) as [Hout|Hin].
  { exfalso. nia. }
  cbn [orb]. unfold mbind at 1, M_bind at 1, the at 1, gets at 1.
  unfold mbind at 1, M_bind at 1. rewrite H2.
  rewrite Ed in *.
  replace (y * tilesWide (world s) + x +
           tilesWide (world s) * (Z.of_nat (Z.to_nat rle) + 1))
    with ((y + rle + 1) * tilesWide (world s2) + x) in *
    by (rewrite Hw2; lia).
  apply IH; [done|by rewrite Hw2|lia|done].
Qed.

(** The guarded decoder fills the column it gets through: every cell is
    the tile of a record or a copy of it. *)
Lemma column_guarded_decoded extra (P : Tile.t → Prop) fuel :
  (∀ s rle s', Tile.load extra s = (Ok rle, s') → P s'.2) →
  ∀ x y s s',
    grid_wf (world s) → 0 ≤ x < tilesWide (world s) → 0 ≤ y →
    decoded_upto P x y (world s) →
    loadTiles_column_guarded fuel extra y (y * tilesWide (world s) + x) s
    = (Ok tt, s') →
    decoded_upto P (x + 1) 0 (world s') ∧ grid_kept s s'.
Proof.
  intros HP. induction fuel as [|fuel IH]; intros x y s s' Hwf Hx Hy Hd H; [done|].
  cbn [loadTiles_column_guarded] in H.
  unfold mbind at 1, M_bind at 1, the at 1, gets at 1 in H.
  destruct (Z.ltb_spec y (tilesHigh (world s))) as [Hyh|Hyh].
  2:{ injection H as <-. split; [|done]. intros i j Hi Hj Hij.
      apply Hd; [done..|lia]. }
  apply bind_ok_inv in H as (rle & s1 & H1 & H).
  assert (tilesHigh (world s1) = tilesHigh (world s)) as Hh1.
  { apply at_tile_inv in H1 as [(? & ? & ? & _ & _ & _ & ->)|([=] & _)]. done. }
  destruct (Z.ltb_spec rle 0) as [Hneg|Hneg]; [done|].
  destruct (Z.leb_spec (tilesHigh (world s)) (y + rle)) as [Hout|Hin]; [done|].
  cbn [orb] in H.
  apply bind_ok_inv in H as (w & s1' & [= <- <-] & H).
  apply bind_ok_inv in H as (d & s2 & H2 & H).
  assert (0 < tilesWide (world s)) as Hwpos by lia.
  destruct (column_turn _ _ _ _ _ _ _ Hwpos H1 H2)
    as (a & h1 & a1 & Ho & Ha & Hl & _ & _ & Hwo & Hlen & -> & Hr & Hrun & Hrest).
  pose proof (tiles_only_grid _ _ Hwo Hlen) as Hk.
  pose proof (grid_kept_wf _ _ Hk Hwf) as Hwf2.
  pose proof Hk as (Hw2 & Hh2 & _).
  apply HP in Hl. simpl in Hl.
  replace (y * tilesWide (world s) + x +
           tilesWide (world s) * (Z.of_nat (Z.to_nat rle) + 1))
    with ((y + rle + 1) * tilesWide (world s2) + x) in H
    by (rewrite Hw2; lia).
  apply IH in H as [Hd' Hk']; [|done|by rewrite Hw2|lia|].
  { split; [done|]. by etrans. }
  intros i j Hi Hj Hij. rewrite Hw2, Hh2 in *.
  destruct (decide (i = x ∧ y ≤ j)) as [[-> Hyj]|Hn].
  - exists a1. split; [|done].
    replace (j * tilesWide (world s) + x)
      with (y * tilesWide (world s) + x + tilesWide (world s) * (j - y)) by lia.
    apply Hrun. lia.
  - destruct (Hd i j) as (b & Hb & HPb); [done|done|lia|].
    exists b. split; [|done]. rewrite Hrest; [done|].
    intros jj Hjj E.
    assert (j * tilesWide (world s) + i = (y + jj) * tilesWide (world s) + x)
      as E' by nia.
    apply cell_inj in E' as [-> ->]; lia.
Qed.

(** What holds turn by turn of a counted loop that ends well. *)
Lemma for_loop_indexed {S} (I : Z → S → Prop) (body : Z → M S unit) k :
  ∀ i s s',
    (∀ j s s', i ≤ j < i + Z.of_nat k → I j s → body j s = (Ok tt, s') →
               I (j + 1) s') →
    I i s → for_loop k i body s = (Ok tt, s') → I (i + Z.of_nat k) s'.
Proof.
  induction k as [|k IH]; intros i s s' Hb Hi H.
  - injection H as <-. by rewrite Z.add_0_r.
  - cbn [for_loop] in H. apply bind_ok_inv in H as ([] & s1 & H1 & H).
    replace (i + Z.of_nat (Datatypes.S k)) with (i + 1 + Z.of_nat k) by lia.
    eapply IH; [|eapply Hb; [|exact Hi|exact H1]; lia|exact H].
    intros j s0 s0' Hj. apply Hb. lia.
Qed.

(** A loop whose turns end well goes as the loop of other turns that end
    alike. *)
Lemma for_loop_transfer {S} (I : S → Prop) (body body' : Z → M S unit) k :
  ∀ i s s',
    (∀ j s s', i ≤ j < i + Z.of_nat k → I s → body j s = (Ok tt, s') →
               body' j s = (Ok tt, s') ∧ I s') →
    I s → for_loop k i body s = (Ok tt, s') → for_loop k i body' s = (Ok tt, s').
Proof.
  induction k as [|k IH]; intros i s s' Hb Hi H; [done|].
  cbn [for_loop] in *. apply bind_ok_inv in H as ([] & s1 & H1 & H).
  apply Hb in H1 as [H1 Hi1]; [|lia|done].
  unfold mbind, M_bind. rewrite H1.
  eapply IH; [|exact Hi1|exact H]. intros j s0 s0' Hj. apply Hb. lia.
Qed.

Lemma loadTiles_ok_guarded env extra st st' :
  grid_wf (world st) →
  loadTiles env extra st = (Ok tt, st') →
  loadTiles_guarded env extra st = (Ok tt, st').
Proof.
  intros Hwf H. unfold loadTiles in H. unfold loadTiles_guarded.
  unfold mbind at 1, M_bind at 1, the at 1, gets at 1, for_range in H.
  unfold mbind at 1, M_bind at 1, the at 1, gets at 1, for_range.
  revert H. apply (for_loop_transfer
    (λ s, grid_wf (world s) ∧ tilesWide (world s) = tilesWide (world st)));
    [|done].
  intros j s s' Hj [Hwf0 Hw0] H.
  unfold mbind at 1, M_bind at 1, the at 1, gets at 1 in H.
  unfold mbind at 1, M_bind at 1, emit at 1, modify at 1 in H.
  unfold mbind at 1, M_bind at 1, gets at 1 in H.
  unfold mbind at 1, M_bind at 1, the at 1, gets at 1.
  unfold mbind at 1, M_bind at 1, emit at 1, modify at 1.
  unfold mbind at 1, M_bind at 1, gets at 1.
  cbn [cur world emitted] in *.
  apply (column_ok_guarded extra _ j 0) in H; [|done|simpl; lia|done].
  split; [exact H|].
  match type of H with
  | loadTiles_column_guarded ?f _ _ ?o ?s0 = _ =>
      destruct (column_guarded_safe extra f j 0 o s0 (Ok tt) s' Hwf0)
        as ((Hk1 & Hk2 & Hk3) & _); [cbn [world]; lia|lia|reflexivity| |exact H|]
  end.
  { cbn [cur]. pose proof (remaining_range (cur s)). unfold Handle_length in *. lia. }
  split; [|by rewrite Hk1].
  eapply grid_kept_wf; [|exact Hwf0]. done.
Qed.

Lemma decoded_all P w :
  grid_wf w → decoded_upto P (tilesWide w) 0 w → Forall P (tiles w).
Proof.
  intros (Hw & Hh & Hl) Hd. apply Forall_lookup. intros n a Ha.
  pose proof (lookup_lt_Some _ _ _ Ha) as Hn.
  assert (0 < tilesWide w) as Hw0 by nia.
  destruct (Hd (Z.of_nat n mod tilesWide w) (Z.of_nat n / tilesWide w))
    as (b & Hb & HP).
  - by apply Z.mod_pos_bound.
  - split; [apply Z.div_pos; lia|]. apply Z.div_lt_upper_bound; [done|]. nia.
  - left. by apply Z.mod_pos_bound.
  - replace (Z.of_nat n `div` tilesWide w * tilesWide w + Z.of_nat n `mod` tilesWide w)
      with (Z.of_nat n) in Hb
      by (rewrite (Z.div_mod (Z.of_nat n) (tilesWide w)) at 1; lia).
    rewrite Nat2Z.id, Ha in Hb. by injection Hb as <-.
Qed.

Lemma loadTiles_guarded_decoded env extra (P : Tile.t → Prop) st st' :
  grid_wf (world st) →
  (∀ s rle s', Tile.load extra s = (Ok rle, s') → P s'.2) →
  loadTiles_guarded env extra st = (Ok tt, st') →
  grid_kept st st' ∧ Forall P (tiles (world st')).
Proof.
  intros Hwf HP H. unfold loadTiles_guarded in H.
  unfold mbind at 1, M_bind at 1, the at 1, gets at 1, for_range in H.
  apply (for_loop_indexed
    (λ x s, grid_kept st s ∧ decoded_upto P x 0 (world s))) in H.
  - destruct H as [Hk Hd]. split; [done|].
    pose proof (grid_kept_wf _ _ Hk Hwf) as Hwf'.
    apply decoded_all; [done|]. destruct Hk as (-> & _).
    destruct Hwf as (Hw & _). by rewrite Z.add_0_l, Z2Nat.id in Hd.
  - intros j s s' Hj [Hk Hd] Hb.
    pose proof (grid_kept_wf _ _ Hk Hwf) as Hwf0. pose proof Hk as (Hw0 & _).
    unfold mbind at 1, M_bind at 1, the at 1, gets at 1 in Hb.
    unfold mbind at 1, M_bind at 1, emit at 1, modify at 1 in Hb.
    unfold mbind at 1, M_bind at 1, gets at 1 in Hb.
    cbn [cur world emitted] in Hb.
    apply (column_guarded_decoded extra P _ HP j 0) in Hb as [Hd' Hk'];
      [|done|simpl; lia|done|done].
    split; [|done]. etrans; [exact Hk|exact Hk'].
  - split; [done|]. intros i j Hi Hj Hij. lia.
Qed.

Lemma Tile_load_unseen extra s rle s' :
  Tile.load extra s = (Ok rle, s') →
  Tile.seen s'.2 = false ∧ 0 ≤ Tile.flags s'.2 < 0x1000.
Proof.
  destruct s as [h t]. intros [(e & [=] & _)|[_ H]]%load_inv.
  apply load_rest_flags, flags_named in H as [Hr Hs].
  split; [|done]. unfold Tile.seen. by rewrite Hs.
Qed.

(** X7: On a grid of tilesWide * tilesHigh tiles, both sizes not negative,
    when loadTiles ends well the grid has kept its size and every cell holds a
    tile that Tile::load has decoded: whatever holds of every tile that
    Tile::load leaves after decoding a record holds of every tile of the grid.
    *)
Theorem loadTiles_decodes_every_cell env extra (P : Tile.t → Prop) st st' :
  grid_wf (world st) →
  (∀ s rle s', Tile.load extra s = (Ok rle, s') → P s'.2) →
  loadTiles env extra st = (Ok tt, st') →
  grid_wf (world st') ∧ Forall P (tiles (world st')).
Proof.
  intros Hwf HP H. apply loadTiles_ok_guarded in H; [|done].
  apply (loadTiles_guarded_decoded _ _ P) in H as [Hk HF]; [|done..].
  split; [|done]. by eapply grid_kept_wf.
Qed.

Lemma loadTiles_decodes_every_cell_witness :
  let st := example_state "" 1 2
              [Tile.set_flags 0x200 blank_tile; Tile.set_flags 0x201 blank_tile]
              [Byte.x40; Byte.x01] in
  let st' := mkSt (mkHandle [Byte.x40; Byte.x01] 2)
               (set_tiles [Tile.set_wall 0 blank_tile; Tile.set_wall 0 blank_tile]
                  (world st))
               [status "Reading tiles: 0%"] in
  loadTiles example_env [] st = (Ok tt, st') ∧
  grid_wf (world st') ∧
  Forall (λ a, Tile.seen a = false) (tiles (world st')).
Proof.
  intros st st'.
  assert (grid_wf (world st)) as Hwf by (vm_compute; intuition discriminate).
  assert (loadTiles example_env [] st = (Ok tt, st')) as E
    by (vm_compute; reflexivity).
  split; [exact E|].
  refine (loadTiles_decodes_every_cell example_env [] _ st st' Hwf _ E).
  intros s rle s' H. exact (proj1 (Tile_load_unseen _ _ _ _ H)).
Defined.

(** X8: On a grid of tilesWide * tilesHigh tiles, both sizes not negative,
    loadTiles as the source has it ends well, and in the same state, exactly
    when the decoder that rejects a negative run and a run that leaves its
    column does: after such a run the decoder of the source never ends well.
    *)
Theorem loadTiles_guard_silent env extra st st' :
  grid_wf (world st) →
  loadTiles env extra st = (Ok tt, st') ↔
  loadTiles_guarded env extra st = (Ok tt, st').
Proof.
  intros Hwf. split; [by apply loadTiles_ok_guarded|].
  intros H. destruct (loadTiles_agrees env extra st) as [E|[s E]];
    [by rewrite <- E|by rewrite H in E].
Qed.

Lemma loadTiles_guard_silent_witness :
  let st := example_state "" 1 2 [blank_tile; blank_tile] [Byte.x40; Byte.x01] in
  let st' := mkSt (mkHandle [Byte.x40; Byte.x01] 2)
               (set_tiles [Tile.set_wall 0 blank_tile; Tile.set_wall 0 blank_tile]
                  (world st))
               [status "Reading tiles: 0%"] in
  loadTiles example_env [] st = (Ok tt, st') ∧
  loadTiles_guarded example_env [] st = (Ok tt, st').
Proof.
  intros st st'.
  assert (grid_wf (world st)) as Hwf by (vm_compute; intuition discriminate).
  assert (loadTiles example_env [] st = (Ok tt, st')) as E
    by (vm_compute; reflexivity).
  split; [exact E|].
  exact (proj1 (loadTiles_guard_silent example_env [] st st' Hwf) E).
Defined.

(** X9: One turn of the inner loop of loadTiles on a grid at least one tile
    wide, when the record decodes and the copy ends well, with k the run
    length (0 when it is negative): the record was decoded into the cell at
    offset, the cells offset + tilesWide * j for j from 0 to k all lie in the
    array and hold that tile, every other cell is as it was, nothing of the
    world but the tiles changes, no signal is emitted, and the next offset is
    offset + tilesWide * (k + 1). *)
Theorem loadTiles_run_copies extra offset s rle s1 d s2 :
  0 < tilesWide (world s) →
  at_tile offset (Tile.load extra) s = (Ok rle, s1) →
  copy_run (Z.to_nat rle) offset (offset + tilesWide (world s1)) s1 = (Ok d, s2) →
  ∃ a h1 a1,
    0 ≤ offset ∧ tiles (world s) !! Z.to_nat offset = Some a ∧
    Tile.load extra (cur s, a) = (Ok rle, (h1, a1)) ∧
    cur s2 = h1 ∧ emitted s2 = emitted s ∧
    world s2 = set_tiles (tiles (world s2)) (world s) ∧
    length (tiles (world s2)) = length (tiles (world s)) ∧
    d = offset + tilesWide (world s) * (Z.of_nat (Z.to_nat rle) + 1) ∧
    offset + tilesWide (world s) * Z.of_nat (Z.to_nat rle)
    < Z.of_nat (length (tiles (world s))) ∧
    (∀ j, 0 ≤ j ≤ Z.of_nat (Z.to_nat rle) →
          tiles (world s2) !! Z.to_nat (offset + tilesWide (world s) * j)
          = Some a1) ∧
    (∀ i, (∀ j, 0 ≤ j ≤ Z.of_nat (Z.to_nat rle) →
                i ≠ Z.to_nat (offset + tilesWide (world s) * j)) →
          tiles (world s2) !! i = tiles (world s) !! i).
Proof. apply column_turn. Qed.

Lemma loadTiles_run_copies_witness :
  let s := example_state "" 1 4
             [blank_tile; blank_tile; blank_tile; Tile.set_type 7 blank_tile]
             [Byte.x42; Byte.x09; Byte.x02] in
  let a1 := Tile.set_flags 1 (Tile.set_wall 0 (Tile.set_type 9 blank_tile)) in
  ∃ s1 s2,
    at_tile 0 (Tile.load [false; false; false; false; false;
                          false; false; false; false; false]) s = (Ok 2, s1) ∧
    copy_run 2 0 (0 + tilesWide (world s1)) s1 = (Ok 3, s2) ∧
    tiles (world s2) = [a1; a1; a1; Tile.set_type 7 blank_tile] ∧
    ∃ a h1 a1',
      Tile.load [false; false; false; false; false;
                 false; false; false; false; false] (cur s, a) = (Ok 2, (h1, a1')) ∧
      (∀ j, 0 ≤ j ≤ 2 → tiles (world s2) !! Z.to_nat (0 + 1 * j) = Some a1') ∧
      (∀ i, (∀ j, 0 ≤ j ≤ 2 → i ≠ Z.to_nat (0 + 1 * j)) →
            tiles (world s2) !! i = tiles (world s) !! i).
Proof.
  intros s a1. 
  set (extra := [false; false; false; false; false;
                 false; false; false; false; false]).
  destruct (at_tile 0 (Tile.load extra) s) as [r1 s1] eqn:E1.
  assert (r1 = Ok 2) as -> by (vm_compute in E1; congruence).
  destruct (copy_run 2 0 (0 + tilesWide (world s1)) s1) as [r2 s2] eqn:E2.
  assert (r2 = Ok 3 ∧ tiles (world s2) = [a1; a1; a1; Tile.set_type 7 blank_tile])
    as [-> Et].
  { vm_compute in E1. injection E1 as <-. vm_compute in E2.
    injection E2 as <- <-. split; reflexivity. }
  exists s1, s2. split; [reflexivity|]. split; [exact E2|]. split; [exact Et|].
  destruct (loadTiles_run_copies extra 0 s 2 s1 3 s2) as
    (a & h1 & a1' & _ & _ & Hl & _ & _ & _ & _ & _ & _ & Hj & Hi);
    [vm_compute; reflexivity|exact E1|exact E2|].
  exists a, h1, a1'. split; [exact Hl|]. split; [exact Hj|exact Hi].
Defined.

(** ** What a decoder does to the world and which signals it emits *)

#[global] Instance unchanged_but_preorder f : PreOrder (unchanged_but f).
Proof. split; [done|]. intros a b c H1 H2. unfold unchanged_but in *. congruence. Qed.

#[global] Instance appended_preorder P : PreOrder (appended P).
Proof.
  split.
  - intros l. exists []. by rewrite app_nil_r.
  - intros a b c (e1 & -> & H1) (e2 & -> & H2). exists (e1 ++ e2).
    rewrite app_assoc. split; [done|]. by apply Forall_app.
Qed.

#[global] Instance any_preorder {A} : PreOrder (@any A).
Proof. by split. Qed.

Lemma appended_one (P : Event → Prop) l e : P e → appended P l (l ++ [e]).
Proof. intros He. exists [e]. split; [done|]. by constructor. Qed.

Section OnWorld.
Context (Rw : World → World → Prop) (Re : list Event → list Event → Prop).
Context `{!PreOrder Rw, !PreOrder Re}.

#[global] Instance on_world_preorder : PreOrder (on_world Rw Re).
Proof.
  split; [by split|]. intros a b c [] []. split; by etrans.
Qed.

Lemma rd_on_world {A} (m : M Handle A) : preserves (on_world Rw Re) (rd m).
Proof. intros s r s' (h' & _ & ->)%rd_inv. by split. Qed.

Lemma set_cur_on_world h : preserves (on_world Rw Re) (modify (set_cur h)).
Proof. apply (preserves_modify (on_world Rw Re)). by split. Qed.

Lemma emit_on_world e :
  (∀ l, Re l (l ++ [e])) → preserves (on_world Rw Re) (emit e).
Proof. intros He. apply (preserves_modify (on_world Rw Re)). by split. Qed.

Lemma upd_on_world g : (∀ w, Rw w (g w)) → preserves (on_world Rw Re) (upd g).
Proof. intros Hg. apply (preserves_modify (on_world Rw Re)). by split. Qed.

Lemma with_handle_on_world {A} h (m : M St A) :
  preserves (on_world Rw Re) m → preserves (on_world Rw Re) (with_handle h m).
Proof.
  intros Hm s r s'. unfold with_handle.
  destruct (m (set_cur h s)) as [r1 s1] eqn:E. intros [= <- <-].
  by apply Hm in E.
Qed.

Lemma tile_get_on_world offset : preserves (on_world Rw Re) (tile_get offset).
Proof.
  unfold tile_get, the.
  apply (preserves_bind (on_world Rw Re)); [apply (preserves_gets (on_world Rw Re))|].
  intros ts. apply (preserves_index (on_world Rw Re)).
Qed.

(** Steps that write tiles, for a relation that lets the tiles change. *)
Context (tiles_free : ∀ w ts, Rw w (set_tiles ts w)).

Lemma tile_put_on_world offset a : preserves (on_world Rw Re) (tile_put offset a).
Proof.
  unfold tile_put.
  apply (preserves_bind (on_world Rw Re)); [apply tile_get_on_world|].
  intros _. by apply upd_on_world.
Qed.

Lemma tile_setSeen_on_world offset b :
  preserves (on_world Rw Re) (tile_setSeen offset b).
Proof.
  unfold tile_setSeen.
  apply (preserves_bind (on_world Rw Re)); [apply tile_get_on_world|].
  intros a. apply tile_put_on_world.
Qed.

Lemma at_tile_on_world {A} offset (m : M Tile.St A) :
  preserves (on_world Rw Re) (at_tile offset m).
Proof.
  unfold at_tile.
  apply (preserves_bind (on_world Rw Re)); [apply tile_get_on_world|].
  intros a s r s'. unfold with_tile. destruct (m (cur s, a)) as [r1 [h1 a1]].
  intros [= <- <-]. split; [apply tiles_free|reflexivity].
Qed.

Lemma copy_run_on_world k : ∀ offset dest,
  preserves (on_world Rw Re) (copy_run k offset dest).
Proof.
  induction k as [|k IH]; intros offset dest; simpl.
  - apply (preserves_ret (on_world Rw Re)).
  - apply (preserves_bind (on_world Rw Re)); [apply tile_get_on_world|]. intros a.
    apply (preserves_bind (on_world Rw Re)); [apply tile_put_on_world|]. intros _.
    apply (preserves_bind (on_world Rw Re)); [apply (preserves_gets (on_world Rw Re))|]. intros w.
    apply IH.
Qed.

End OnWorld.

Ltac world_step :=
  lazymatch goal with
  | |- preserves (on_world ?Rw ?Re) (rd _) => apply (rd_on_world Rw Re)
  | |- preserves (on_world ?Rw ?Re) (the _) =>
      apply (preserves_gets (on_world Rw Re))
  | |- preserves (on_world ?Rw ?Re) (emit _) =>
      apply (emit_on_world Rw Re); intros ?
  | |- preserves (on_world ?Rw ?Re) (upd _) =>
      apply (upd_on_world Rw Re); intros ?
  | |- preserves (on_world ?Rw ?Re) (modify (set_cur _)) =>
      apply (set_cur_on_world Rw Re)
  | |- preserves (on_world ?Rw ?Re) (with_handle _ _) =>
      apply (with_handle_on_world Rw Re)
  | |- preserves (on_world ?Rw ?Re) (tile_get _) =>
      apply (tile_get_on_world Rw Re)
  | |- preserves (on_world ?Rw ?Re) (tile_put _ _) =>
      apply (tile_put_on_world Rw Re)
  | |- preserves (on_world ?Rw ?Re) (tile_setSeen _ _) =>
      apply (tile_setSeen_on_world Rw Re)
  | |- preserves (on_world ?Rw ?Re) (at_tile _ _) =>
      apply (at_tile_on_world Rw Re)
  | |- preserves (on_world ?Rw ?Re) (copy_run _ _ _) =>
      apply (copy_run_on_world Rw Re)
  | |- _ => preserves_step
  end.

Section Decoders.
Context (env : Env).
Context (Rw : World → World → Prop) (Re : list Event → list Event → Prop).
Context `{!PreOrder Rw, !PreOrder Re}.

Lemma loadTiles_column_on_world extra fuel :
  (∀ w ts, Rw w (set_tiles ts w)) →
  ∀ y offset, preserves (on_world Rw Re) (loadTiles_column fuel extra y offset).
Proof.
  intros Ht. induction fuel as [|fuel IH]; intros y offset; simpl;
    repeat world_step; try done; try apply IH.
Qed.

Lemma loadTiles_on_world extra :
  (∀ w ts, Rw w (set_tiles ts w)) → (∀ l msg, Re l (l ++ [status msg])) →
  preserves (on_world Rw Re) (loadTiles env extra).
Proof.
  intros Ht He. unfold loadTiles. repeat world_step; try done.
  by apply loadTiles_column_on_world.
Qed.

Lemma loadHeader_on_world version :
  (∀ w hd, Rw w (set_header hd w)) → (∀ w x, Rw w (set_tilesHigh x w)) →
  (∀ w x, Rw w (set_tilesWide x w)) → (∀ w ts, Rw w (set_tiles ts w)) →
  preserves (on_world Rw Re) (loadHeader env version).
Proof. intros. unfold loadHeader. repeat world_step; done. Qed.

Lemma loadChests_on_world :
  (∀ w cs, Rw w (set_chests cs w)) → (∀ l msg, Re l (l ++ [status msg])) →
  preserves (on_world Rw Re) (loadChests env).
Proof.
  intros. unfold loadChests, loadChests_turn. repeat world_step; done.
Qed.

Lemma loadSigns_on_world :
  (∀ w x, Rw w (set_signs x w)) → (∀ l msg, Re l (l ++ [status msg])) →
  preserves (on_world Rw Re) (loadSigns env).
Proof. intros. unfold loadSigns. repeat world_step; done. Qed.

Lemma loadNPCs_while_on_world fuel one :
  (∀ w x, Rw w (set_npcs x w)) →
  preserves (on_world Rw Re) (loadNPCs_while fuel one).
Proof.
  intros Hn. induction fuel as [|fuel IH]; simpl; repeat world_step; done.
Qed.

Lemma loadNPCs_on_world version :
  (∀ w x, Rw w (set_npcs x w)) → (∀ w x, Rw w (set_shimmered x w)) →
  (∀ l msg, Re l (l ++ [status msg])) →
  preserves (on_world Rw Re) (loadNPCs env version).
Proof.
  intros. unfold loadNPCs. repeat world_step; try done;
    by apply loadNPCs_while_on_world.
Qed.

Lemma loadDummies_on_world : preserves (on_world Rw Re) loadDummies.
Proof. unfold loadDummies. repeat world_step. Qed.

Lemma loadEntities_on_world :
  (∀ w x, Rw w (set_entities x w)) → preserves (on_world Rw Re) loadEntities.
Proof.
  intros. unfold loadEntities, loadEntities_turn. repeat world_step; done.
Qed.

Lemma loadPressurePlates_on_world : preserves (on_world Rw Re) loadPressurePlates.
Proof. unfold loadPressurePlates. repeat world_step. Qed.

Lemma loadTownManager_on_world : preserves (on_world Rw Re) loadTownManager.
Proof. unfold loadTownManager. repeat world_step. Qed.

Lemma loadBestiary_on_world :
  (∀ w x, Rw w (set_kills x w)) → (∀ w x, Rw w (set_seen x w)) →
  (∀ w x, Rw w (set_chats x w)) →
  preserves (on_world Rw Re) (loadBestiary env).
Proof. intros. unfold loadBestiary. repeat world_step; done. Qed.

Lemma seen_run1_on_world k :
  (∀ w ts, Rw w (set_tiles ts w)) →
  ∀ b y offset, preserves (on_world Rw Re) (seen_run1 k b y offset).
Proof.
  intros Ht. induction k as [|k IH]; intros b y offset; simpl;
    repeat world_step; try done; try apply IH.
Qed.

Lemma seen_run2_on_world k :
  (∀ w ts, Rw w (set_tiles ts w)) →
  ∀ b light x offset, preserves (on_world Rw Re) (seen_run2 k b light x offset).
Proof.
  intros Ht. induction k as [|k IH]; intros b light x offset; simpl;
    repeat world_step; try done; try apply IH.
Qed.

Lemma loadPlayer1_column_on_world fuel :
  (∀ w ts, Rw w (set_tiles ts w)) →
  ∀ version y offset,
    preserves (on_world Rw Re) (loadPlayer1_column fuel version y offset).
Proof.
  intros Ht. induction fuel as [|fuel IH]; intros version y offset; simpl;
    repeat world_step; try done; try (by apply seen_run1_on_world); try apply IH.
Qed.

Lemma loadPlayer2_row_on_world fuel :
  (∀ w ts, Rw w (set_tiles ts w)) →
  ∀ x offset, preserves (on_world Rw Re) (loadPlayer2_row fuel x offset).
Proof.
  intros Ht. induction fuel as [|fuel IH]; intros x offset; simpl;
    repeat world_step; try done; try (by apply seen_run2_on_world); try apply IH.
Qed.

Lemma loadPlayer_on_world :
  (∀ w ts, Rw w (set_tiles ts w)) → (∀ l msg, Re l (l ++ [loadError msg])) →
  preserves (on_world Rw Re) (loadPlayer env).
Proof.
  intros Ht He. unfold loadPlayer, mark_all_seen, loadPlayer1, loadPlayer2,
    loadPlayer2_body.
  repeat world_step; try done;
    first [by apply loadPlayer1_column_on_world
          |by apply loadPlayer2_row_on_world].
Qed.

End Decoders.

(** ** The loops of [run] never run out of their bound *)

Lemma copy_run_of_the_code k : ∀ offset dest,
  fails_with of_the_code (copy_run k offset dest).
Proof.
  induction k as [|k IH]; intros offset dest; simpl; code_fails; done.
Qed.

Lemma copy_run_cur k : ∀ offset dest s r s',
  copy_run k offset dest s = (r, s') → cur s' = cur s.
Proof.
  induction k as [|k IH]; intros offset dest s r s' H.
  - by injection H as <- <-.
  - cbn [copy_run] in H.
    apply bind_inv in H as [(a & s0 & H0 & H)|(e & H0 & _)].
    2:{ by apply tile_get_fail in H0 as (_ & -> & _). }
    apply tile_get_inv in H0 as (_ & _ & ->).
    apply bind_inv in H as [([] & s1 & H1 & H)|(e & H1 & _)].
    2:{ by apply tile_put_inv in H1 as [(_ & _ & _ & ->)|(_ & -> & _)]. }
    apply tile_put_inv in H1 as [(_ & _ & _ & ->)|([=] & _)].
    apply bind_inv in H as [(w & s2 & [= <- <-] & H)|(e & [=] & _)].
    by apply IH in H.
Qed.

Lemma loadTiles_column_fuel extra fuel : ∀ y offset s r s',
  remaining (cur s) < Z.of_nat fuel →
  loadTiles_column fuel extra y offset s = (r, s') →
  r ≠ Fail OutOfFuel.
Proof.
  induction fuel as [|fuel IH]; intros y offset s r s' Hf H.
  { pose proof (remaining_range (cur s)). lia. }
  cbn [loadTiles_column] in H.
  unfold mbind at 1, M_bind at 1, the at 1, gets at 1 in H.
  destruct (y <? tilesHigh (world s)); [|by injection H as <- <-].
  apply bind_inv in H as [(rle & s1 & H1 & H)|(e & H1 & ->)].
  2:{ apply at_tile_inv in H1 as [(a & h1 & a1 & _ & _ & Hl & _)|([= ->] & _)];
        [|done].
      apply Tile_load_fails in Hl as [->|[i ->]]; done. }
  apply at_tile_inv in H1 as [(a & h1 & a1 & _ & _ & Hl & ->)|([=] & _)].
  apply Tile_load_advances in Hl as (Hb & Hp0 & Hp1).
  apply bind_inv in H as [(w & s1' & [= <- <-] & H)|(e & [=] & _)].
  apply bind_inv in H as [(d & s2 & H2 & H)|(e & H2 & ->)].
  2:{ apply copy_run_of_the_code in H2. by intros [= ->]. }
  apply copy_run_cur in H2. cbn [cur] in H2.
  eapply IH; [|exact H]. rewrite H2. revert Hf.
  unfold remaining, Handle_length in *. rewrite Hb.
  repeat match goal with
         | |- context [Z.leb ?a ?b] => destruct (Z.leb_spec a b)
         end; simpl; lia.
Qed.

Lemma loadTiles_of_the_code env extra :
  fails_with of_the_code (loadTiles env extra).
Proof.
  unfold loadTiles, for_range.
  apply (fails_bind of_the_code); [code_fails|intros w].
  apply for_loop_fails. intros x.
  apply (fails_bind of_the_code); [code_fails|intros w'].
  apply (fails_bind of_the_code); [code_fails|intros _].
  intros s e s' H. intros ->. unfold mbind, M_bind, gets in H.
  apply loadTiles_column_fuel in H; [done|].
  pose proof (remaining_range (cur s)). unfold Handle_length in *. lia.
Qed.

Lemma loadChest_items_of_the_code inf k : ∀ acc,
  fails_with of_the_code (loadChest_items inf k acc).
Proof.
  induction k as [|k IH]; intros acc; simpl; code_fails; done.
Qed.

Lemma loadChests_of_the_code env : fails_with of_the_code (loadChests env).
Proof.
  unfold loadChests, loadChests_turn, loadChest, for_range.
  repeat first [ apply loadChest_items_of_the_code
               | apply for_loop_fails; intros ?
               | progress code_fails ]; done.
Qed.

Lemma loadSigns_of_the_code env : fails_with of_the_code (loadSigns env).
Proof.
  unfold loadSigns, for_range.
  repeat first [ apply for_loop_fails; intros ? | progress code_fails ]; done.
Qed.

Lemma rf_of_the_code : fails_with of_the_code rf.
Proof. unfold rf. code_fails; done. Qed.

Lemma loadNPC_homed_of_the_code env inf version :
  fails_with of_the_code (loadNPC_homed env inf version).
Proof.
  unfold loadNPC_homed.
  repeat first [ apply rf_of_the_code | progress code_fails ]; done.
Qed.

Lemma loadNPC_homeless_of_the_code env inf version :
  fails_with of_the_code (loadNPC_homeless env inf version).
Proof.
  unfold loadNPC_homeless.
  repeat first [ apply rf_of_the_code | progress code_fails ]; done.
Qed.

Lemma loadNPC_homed_advances env inf version :
  preserves advances (loadNPC_homed env inf version).
Proof.
  unfold loadNPC_homed. repeat first [apply rs_advances | progress handle_preserves].
Qed.

Lemma loadNPC_homeless_advances env inf version :
  preserves advances (loadNPC_homeless env inf version).
Proof.
  unfold loadNPC_homeless. repeat first [apply rs_advances | progress handle_preserves].
Qed.

Lemma loadNPCs_while_fuel one fuel :
  preserves advances one → fails_with of_the_code one →
  ∀ s r s', remaining (cur s) < Z.of_nat fuel →
            loadNPCs_while fuel one s = (r, s') → r ≠ Fail OutOfFuel.
Proof.
  intros Ha Hc. induction fuel as [|fuel IH]; intros s r s' Hf H.
  { pose proof (remaining_range (cur s)). lia. }
  cbn [loadNPCs_while] in H.
  apply bind_inv in H as [(more & s1 & H1 & H)|(e & H1 & ->)].
  2:{ apply rd_r8_of_the_code in H1. by intros [= ->]. }
  apply rd_r8_remaining in H1 as [Hp1 Hr1].
  destruct (truthy more); [|by injection H as <- <-].
  apply bind_inv in H as [(npc & s2 & H2 & H)|(e & H2 & ->)].
  2:{ apply rd_inv in H2 as (h' & H2 & _). apply Hc in H2. by intros [= ->]. }
  apply rd_inv in H2 as (h' & H2 & ->). apply Ha in H2.
  apply (remaining_advances _ _ H2) in Hp1.
  apply bind_inv in H as [([] & s3 & [= <-] & H)|(e & [=] & _)].
  eapply IH; [|exact H]. cbn [cur set_cur set_world]. lia.
Qed.

Lemma loadNPCs_of_the_code env version :
  fails_with of_the_code (loadNPCs env version).
Proof.
  unfold loadNPCs, for_range.
  apply (fails_bind of_the_code); [code_fails|intros _].
  apply (fails_bind of_the_code); [code_fails|intros _].
  apply (fails_bind of_the_code); [|intros _].
  { repeat first [ apply for_loop_fails; intros ? | progress code_fails ]; done. }
  apply (fails_bind of_the_code); [code_fails|intros inf].
  intros s e s' H. unfold mbind at 1, M_bind at 1, gets at 1 in H.
  assert (remaining (cur s) < Z.of_nat (S (length (bytes (cur s))))) as Hf.
  { pose proof (remaining_range (cur s)). unfold Handle_length in *. lia. }
  apply bind_inv in H as [([] & s1 & H1 & H)|(e' & H1 & [= <-])].
  - destruct (140 <=? version); [|done]. cbn [when] in H.
    unfold mbind at 1, M_bind at 1, gets at 1 in H. intros ->.
    eapply loadNPCs_while_fuel in H; [done| | |].
    + apply loadNPC_homeless_advances.
    + apply loadNPC_homeless_of_the_code.
    + pose proof (remaining_range (cur s1)). unfold Handle_length in *. lia.
  - intros ->. eapply loadNPCs_while_fuel in H1; [done| | |done].
    + apply loadNPC_homed_advances.
    + apply loadNPC_homed_of_the_code.
Qed.

Lemma loadEntity_of_the_code : fails_with of_the_code loadEntity.
Proof.
  unfold loadEntity. apply (fails_bind of_the_code); [code_fails; done|].
  intros [|[[]|[]|]|]; code_fails; done.
Qed.

Lemma loadEntities_of_the_code : fails_with of_the_code loadEntities.
Proof.
  unfold loadEntities, loadEntities_turn, for_range.
  repeat first [ apply loadEntity_of_the_code
               | apply for_loop_fails; intros ?
               | progress code_fails ]; done.
Qed.

Lemma loadDummies_of_the_code : fails_with of_the_code loadDummies.
Proof.
  unfold loadDummies, for_range.
  repeat first [ apply for_loop_fails; intros ? | progress code_fails ]; done.
Qed.

Lemma loadPressurePlates_of_the_code : fails_with of_the_code loadPressurePlates.
Proof.
  unfold loadPressurePlates, for_range.
  repeat first [ apply for_loop_fails; intros ? | progress code_fails ]; done.
Qed.

Lemma loadTownManager_of_the_code : fails_with of_the_code loadTownManager.
Proof.
  unfold loadTownManager, for_range.
  repeat first [ apply for_loop_fails; intros ? | progress code_fails ]; done.
Qed.

Lemma loadBestiary_of_the_code env : fails_with of_the_code (loadBestiary env).
Proof.
  unfold loadBestiary, for_range.
  repeat first [ apply for_loop_fails; intros ? | progress code_fails ]; done.
Qed.

Lemma loadHeader_of_the_code env version :
  fails_with of_the_code (header_load env version) →
  fails_with of_the_code (loadHeader env version).
Proof.
  intros Hh. unfold loadHeader.
  apply (fails_bind of_the_code); [by apply (fails_zoom of_the_code)|intros hd].
  code_fails; done.
Qed.

Lemma run_sections_of_the_code env version :
  fails_with of_the_code (header_load env version) →
  fails_with of_the_code (run_sections env version).
Proof.
  intros Hh. unfold run_sections, readBits, seek.
  repeat first
    [ apply loadHeader_of_the_code | apply loadTiles_of_the_code
    | apply loadChests_of_the_code | apply loadSigns_of_the_code
    | apply loadNPCs_of_the_code | apply loadDummies_of_the_code
    | apply loadEntities_of_the_code | apply loadPressurePlates_of_the_code
    | apply loadTownManager_of_the_code | apply loadBestiary_of_the_code
    | apply loadPlayer_of_the_code
    | apply readBits_loop_of_the_code
    | apply for_fold_fails; intros ? ?
    | lazymatch goal with
      | |- fails_with ?P (loadCreativePowers) => apply (fails_ret P)
      | |- fails_with ?P (_ ≫= _) => apply (fails_bind P); [|intros ?]
      | |- fails_with ?P (when _ _) => apply (fails_when P)
      | |- fails_with ?P (rd _) => apply (fails_zoom P)
      | |- fails_with ?P (the _) => apply (fails_gets P)
      | |- fails_with ?P (emit _) => apply (fails_modify P)
      | |- fails_with ?P (index _ _ _) => apply (fails_index P)
      | |- fails_with ?P (modify _) => apply (fails_modify P)
      | |- fails_with ?P r8 => unfold r8
      | |- fails_with ?P r16 => unfold r16
      | |- fails_with ?P r32 => unfold r32
      | |- fails_with ?P (mret _) => apply (fails_ret P)
      | |- fails_with ?P (readBytes _) =>
          apply (fails_weaken (λ e, e = UnexpectedEof) P);
          [intros ? ->|apply readBytes_fails]
      | |- fails_with _ (if ?c then _ else _) => destruct c
      end ]; done.
Qed.

(** X10: The loops of World::run whose number of turns the bytes of the file
    decide (the rows of a column of tiles, the two lists of NPCs, the runs of
    the player map) are given a bound by the model; provided the header
    loader, which is not among the sources, does not exhaust a bound of its
    own, run never ends by exhausting one: each of these loops ends as the
    code makes it end. *)
Theorem run_never_out_of_fuel env st r st' :
  (∀ version, fails_with of_the_code (header_load env version)) →
  run env st = (r, st') → r ≠ Fail OutOfFuel.
Proof.
  intros Hh H ->. revert H.
  assert (fails_with of_the_code (run env)) as Hr; [|by intros H%Hr].
  unfold run, read, skip.
  repeat first
    [ apply run_sections_of_the_code
    | lazymatch goal with
      | |- fails_with ?P (_ ≫= _) => apply (fails_bind P); [|intros ?]
      | |- fails_with ?P (rd _) => apply (fails_zoom P)
      | |- fails_with ?P (the _) => apply (fails_gets P)
      | |- fails_with ?P (emit _) => apply (fails_modify P)
      | |- fails_with ?P (modify _) => apply (fails_modify P)
      | |- fails_with ?P r8 => unfold r8
      | |- fails_with ?P r32 => unfold r32
      | |- fails_with ?P (mret _) => apply (fails_ret P)
      | |- fails_with ?P (readBytes _) =>
          apply (fails_weaken (λ e, e = UnexpectedEof) P);
          [intros ? ->|apply readBytes_fails]
      | |- fails_with _ (if ?c then _ else _) => destruct c
      end ]; done.
Qed.

Lemma example_header_of_the_code version :
  fails_with of_the_code (example_header_load version).
Proof. unfold example_header_load. code_fails; done. Qed.

Lemma run_never_out_of_fuel_witness :
  ∃ r st',
    run example_env2 (example_state "tiny.wld" 0 0 [] []) = (r, st') ∧
    r ≠ Fail OutOfFuel.
Proof.
  destruct (run example_env2 (example_state "tiny.wld" 0 0 [] []))
    as [r st'] eqn:E.
  exists r, st'. split; [reflexivity|].
  exact (run_never_out_of_fuel example_env2 _ r st'
           example_header_of_the_code E).
Defined.

(** ** The signals of [run] *)

Lemma ends_loaded_bind {A} (m : M St A) (k : A → M St unit) :
  preserves (on_world any (appended not_loaded)) m →
  (∀ a, ends_loaded (k a)) → ends_loaded (m ≫= k).
Proof.
  intros Hm Hk s r s' [(a & s1 & H1 & H2)|(e & H1 & ->)]%bind_inv.
  - apply Hm in H1 as [_ (e1 & E1 & F1)].
    apply Hk in H2 as [(e & -> & (e2 & E2 & F2))|(-> & e2 & E2 & F2)].
    + left. exists e. split; [done|]. exists (e1 ++ e2).
      rewrite E2, E1, app_assoc. split; [done|]. by apply Forall_app.
    + right. split; [done|]. exists (e1 ++ e2).
      rewrite E2, E1, !app_assoc. split; [done|]. by apply Forall_app.
  - apply Hm in H1 as [_ H1]. left. eauto.
Qed.

Lemma ends_loaded_emit : ends_loaded (emit (loaded true)).
Proof.
  intros s r s' [= <- <-]. right. split; [done|]. exists []. by split.
Qed.

Ltac signals_side :=
  first [ done | apply _ | intros; exact I
        | intros; apply appended_one; intros ? [=] ].

Ltac signals_step :=
  first
    [ apply loadHeader_on_world; signals_side
    | apply loadTiles_on_world; signals_side
    | apply loadChests_on_world; signals_side
    | apply loadSigns_on_world; signals_side
    | apply loadNPCs_on_world; signals_side
    | apply loadDummies_on_world; signals_side
    | apply loadEntities_on_world; signals_side
    | apply loadPressurePlates_on_world; signals_side
    | apply loadTownManager_on_world; signals_side
    | apply loadBestiary_on_world; signals_side
    | apply loadPlayer_on_world; signals_side
    | lazymatch goal with
      | |- preserves ?R loadCreativePowers => apply (preserves_ret R)
      end
    | world_step ].

Lemma run_sections_ends_loaded env version :
  ends_loaded (run_sections env version).
Proof.
  unfold run_sections.
  repeat (apply ends_loaded_bind; [repeat signals_step|intros ?]).
  apply ends_loaded_emit.
Qed.

(** X11: Every call of World::run ends in one of three ways: it returns having
    emitted loaded(true) as its last signal and no other loaded signal; or it
    returns having emitted a single loadError and nothing else, the world
    unchanged; or it fails, having emitted no loaded signal at all. *)
Theorem run_signals env st r st' :
  run env st = (r, st') →
  (r = Ok tt ∧
   ∃ evs, emitted st' = emitted st ++ evs ++ [loaded true] ∧
          Forall not_loaded evs) ∨
  (r = Ok tt ∧ world st' = world st ∧
   ∃ msg, emitted st' = emitted st ++ [loadError msg]) ∨
  (∃ e, r = Fail e ∧ appended not_loaded (emitted st) (emitted st')).
Proof.
  assert (∀ A (m : M Handle A) s e s',
            rd m s = (Fail e, s') → appended not_loaded (emitted s) (emitted s'))
    as Hrd.
  { intros A m s e s' (h' & _ & ->)%rd_inv. reflexivity. }
  assert (∀ version s r s',
            world s = world st → emitted s = emitted st →
            run_sections env version s = (r, s') →
            (r = Ok tt ∧
             ∃ evs, emitted s' = emitted st ++ evs ++ [loaded true] ∧
                    Forall not_loaded evs) ∨
            (r = Ok tt ∧ world s' = world st ∧
             ∃ msg, emitted s' = emitted st ++ [loadError msg]) ∨
            (∃ e, r = Fail e ∧ appended not_loaded (emitted st) (emitted s')))
    as Hsec.
  { intros version s r0 s' _ Ee H. rewrite <- Ee.
    apply run_sections_ends_loaded in H as [H|H]; auto. }
  unfold run. intros H.
  apply bind_inv in H as [(fn & s0 & [= <- <-] & H)|(e & [=] & _)].
  apply bind_inv in H as [([] & s1 & [= <-] & H)|(e & [=] & _)].
  apply bind_inv in H as [(version & s2 & H2 & H)|(e & H2 & ->)].
  2:{ right. right. exists e. split; [done|]. exact (Hrd _ _ _ _ _ H2). }
  apply rd_inv in H2 as (h2 & _ & ->).
  destruct (HighestVersion env <? version).
  { injection H as <- <-. right. left. eauto. }
  destruct (version <? MinimumVersion env).
  { injection H as <- <-. right. left. eauto. }
  destruct (135 <=? version); [|refine (Hsec _ _ _ _ _ _ H); reflexivity].
  apply bind_inv in H as [(magic & s3 & H3 & H)|(e & H3 & ->)].
  2:{ right. right. exists e. split; [done|]. exact (Hrd _ _ _ _ _ H3). }
  apply rd_inv in H3 as (h3 & _ & ->).
  destruct (negb (String.eqb magic "relogic")).
  { injection H as <- <-. right. left. eauto. }
  apply bind_inv in H as [(type & s4 & H4 & H)|(e & H4 & ->)].
  2:{ right. right. exists e. split; [done|]. exact (Hrd _ _ _ _ _ H4). }
  apply rd_inv in H4 as (h4 & _ & ->).
  destruct (negb (type =? 2)).
  { injection H as <- <-. right. left. eauto. }
  apply bind_inv in H as [([] & s5 & H5 & H)|(e & H5 & ->)].
  2:{ right. right. exists e. split; [done|]. exact (Hrd _ _ _ _ _ H5). }
  apply rd_inv in H5 as (h5 & _ & ->).
  refine (Hsec _ _ _ _ _ _ H); reflexivity.
Qed.

Lemma run_signals_witness :
  let st := example_state "tiny.wld" 0 0 [] [] in
  ∃ st',
    run example_env2 st = (Ok tt, st') ∧
    emitted st'
    = [status "Reading tiles: 0%"; status "Loading Chests...";
       status "Loading Signs..."; status "Loading NPCs...";
       loadError "Not a relogic map file"; loaded true] ∧
    ((∃ evs, emitted st' = emitted st ++ evs ++ [loaded true] ∧
             Forall not_loaded evs) ∨
     (∃ msg, emitted st' = emitted st ++ [loadError msg])).
Proof.
  intros st.
  destruct (run example_env2 st) as [r st'] eqn:E.
  assert (r = Ok tt ∧
          emitted st'
          = [status "Reading tiles: 0%"; status "Loading Chests...";
             status "Loading Signs..."; status "Loading NPCs...";
             loadError "Not a relogic map file"; loaded true]) as (-> & Ee).
  { vm_compute in E. injection E as <- <-. split; reflexivity. }
  exists st'. split; [reflexivity|]. split; [exact Ee|].
  destruct (run_signals example_env2 st _ st' E)
    as [(_ & H)|[(_ & _ & H)|(e & He & _)]].
  - left. exact H.
  - right. exact H.
  - discriminate He.
Defined.

(** ** The magic and the file type *)

(** X12: For a file whose version lies between MinimumVersion and
    HighestVersion and is at least 135: when the seven bytes after the version
    are not relogic, run emits loadError(Not a relogic map file) and returns,
    the world unchanged and the cursor after those bytes; when they are
    relogic and the byte after them is not 2, it emits loadError(Not a map
    file) and returns, the world unchanged and the cursor after that byte. *)
Theorem run_not_a_map env st version magic h1 h2 :
  let h0 := mkHandle (file_bytes env (filename (world st))) 0 in
  r32 h0 = (Ok version, h1) → read 7 h1 = (Ok magic, h2) →
  MinimumVersion env ≤ version ≤ HighestVersion env → 135 ≤ version →
  (magic ≠ "relogic" →
   run env st
   = (Ok tt, mkSt h2 (world st)
               (emitted st ++ [loadError "Not a relogic map file"]))) ∧
  (magic = "relogic" → ∀ type h3,
   r8 h2 = (Ok type, h3) → type ≠ 2 →
   run env st
   = (Ok tt, mkSt h3 (world st) (emitted st ++ [loadError "Not a map file"]))).
Proof.
  intros h0 Hv Hm [Hlo Hhi] H135.
  unfold run, mbind, M_bind, the, gets, modify, rd, zoom, set_cur. simpl.
  fold h0. rewrite Hv.
  rewrite (proj2 (Z.ltb_ge _ _) Hhi), (proj2 (Z.ltb_ge _ _) Hlo),
    (proj2 (Z.leb_le _ _) H135).
  cbn [cur]. rewrite Hm. split.
  - intros Hne. apply String.eqb_neq in Hne. rewrite Hne. done.
  - intros -> type h3 Ht Hne. rewrite String.eqb_refl. cbn [negb cur]. rewrite Ht.
    apply Z.eqb_neq in Hne. rewrite Hne. done.
Qed.

Lemma run_not_a_map_witness :
  run example_env2 (example_state "magic.wld" 0 0 [] [])
  = (Ok tt, mkSt (mkHandle (example_files2 "magic.wld") 11)
              (example_world "magic.wld" 0 0 [])
              [loadError "Not a relogic map file"]).
Proof.
  refine (proj1 (run_not_a_map example_env2
                   (example_state "magic.wld" 0 0 [] []) 200 "relogix"
                   (mkHandle (example_files2 "magic.wld") 4)
                   (mkHandle (example_files2 "magic.wld") 11)
                   eq_refl eq_refl _ _) _).
  - vm_compute. split; discriminate.
  - vm_compute. discriminate.
  - discriminate.
Defined.

(** ** The section table *)
Lemma sections_length k : ∀ i acc h l h',
  for_fold k i acc (λ _ sections, o ← r32; mret (sections ++ [o])) h
  = (Ok l, h') →
  length l = (length acc + k)%nat.
Proof.
  induction k as [|k IH]; intros i acc h l h' H.
  - injection H as <- <-. lia.
  - cbn [for_fold] in H. apply bind_ok_inv in H as (acc' & h1 & H1 & H).
    apply bind_ok_inv in H1 as (o & h2 & _ & [= <- <-]).
    apply IH in H. rewrite length_app in H. simpl in H. lia.
Qed.

Lemma seek_section_inv (sections : list Z) i s s' :
  (o ← index Csections sections i; rd (seek o)) s = (Ok tt, s') →
  i < Z.of_nat (length sections).
Proof.
  intros (o & s1 & H1 & _)%bind_ok_inv.
  apply index_inv in H1 as (Hi & Ho & _). apply lookup_lt_Some in Ho. lia.
Qed.

(** X13: When the sections of a world file load well, the section table, whose
    number of entries is the 16-bit integer at the cursor, has an entry for
    every section that run seeks: at least 6 entries, 7 from version 170 on, 8
    from 189, 9 from 210 and 10 from 220. *)
Theorem run_sections_table env version st st' n h1 :
  r16 (cur st) = (Ok n, h1) →
  run_sections env version st = (Ok tt, st') →
  sections_needed version ≤ n.
Proof.
  intros Hn H. unfold run_sections in H. cbv zeta in H.
  apply bind_ok_inv in H as (n' & s1 & H1 & H).
  apply rd_inv in H1 as (h' & H1 & ->). rewrite Hn in H1. injection H1 as <- <-.
  apply bind_ok_inv in H as (sections & s2 & H2 & H).
  apply rd_inv in H2 as (h2 & H2 & ->). apply sections_length in H2. simpl in H2.
  do 2 apply bind_ok_inv in H as (? & ? & _ & H).
  do 10 apply bind_ok_inv in H as (? & ? & _ & H).
  apply bind_ok_inv in H as ([] & ? & H5 & H). apply seek_section_inv in H5.
  apply bind_ok_inv in H as ([] & ? & _ & H).
  apply bind_ok_inv in H as ([] & ? & H6 & H).
  apply bind_ok_inv in H as ([] & ? & H7 & H).
  apply bind_ok_inv in H as ([] & ? & H8 & H).
  apply bind_ok_inv in H as ([] & ? & H9 & _).
  unfold sections_needed.
  destruct (220 <=? version).
  { apply bind_ok_inv in H9 as ([] & ? & H9 & _). apply seek_section_inv in H9. lia. }
  destruct (210 <=? version).
  { apply bind_ok_inv in H8 as ([] & ? & H8 & _). apply seek_section_inv in H8. lia. }
  destruct (189 <=? version).
  { apply bind_ok_inv in H7 as ([] & ? & H7 & _). apply seek_section_inv in H7. lia. }
  destruct (170 <=? version).
  { apply bind_ok_inv in H6 as ([] & ? & H6 & _). apply seek_section_inv in H6. lia. }
  lia.
Qed.

Lemma run_sections_table_witness :
  let st := mkSt (mkHandle tiny_world 4) (example_world "tiny.wld" 0 0 []) [] in
  ∃ st',
    r16 (cur st) = (Ok 6, mkHandle tiny_world 6) ∧
    run_sections example_env2 100 st = (Ok tt, st') ∧
    sections_needed 100 ≤ 6.
Proof.
  intros st.
  destruct (run_sections example_env2 100 st) as [r st'] eqn:E.
  assert (r = Ok tt) as ->.
  { vm_compute in E. by injection E as <- <-. }
  exists st'. split; [reflexivity|]. split; [reflexivity|].
  exact (run_sections_table example_env2 100 st st' 6 _ eq_refl E).
Defined.

(** X14: When the map of the player exists and its version is at least 135: a
    magic other than relogic makes loadPlayer emit loadError(Not a relogic map
    file), and, the magic being relogic, a type byte other than 1 makes it
    emit loadError(Not a player map file); in both cases it returns with the
    world, the cursor of the world file and the earlier signals unchanged. *)
Theorem loadPlayer_not_a_player_map env st version magic h1 h2 :
  let path := map_path env (world st) in
  dir_exists env path = true →
  r32 (mkHandle (file_bytes env path) 0) = (Ok version, h1) →
  135 ≤ version → read 7 h1 = (Ok magic, h2) →
  (magic ≠ "relogic" →
   loadPlayer env st
   = (Ok tt, mkSt (cur st) (world st)
               (emitted st ++ [loadError "Not a relogic map file"]))) ∧
  (magic = "relogic" → ∀ type h3,
   r8 h2 = (Ok type, h3) → type ≠ 1 →
   loadPlayer env st
   = (Ok tt, mkSt (cur st) (world st)
               (emitted st ++ [loadError "Not a player map file"]))).
Proof.
  intros path Hd Hv H135 Hm.
  assert (91 < version) as H91 by lia.
  assert (loadPlayer env st
          = let '(r, s') :=
              (if negb (String.eqb magic "relogic")
               then emit (loadError "Not a relogic map file")
               else
                 type ← rd r8;
                 if negb (type =? 1) then emit (loadError "Not a player map file")
                 else rd (skip (4 + 8));; loadPlayer2_body env version)
                (set_cur h2 st) in
            (r, set_cur (cur st) s')) as ->.
  { unfold loadPlayer, mbind at 1, M_bind at 1, gets at 1. fold path.
    rewrite Hd. cbn [negb]. unfold with_handle.
    unfold mbind at 1, M_bind at 1, rd at 1, zoom at 1. cbn [cur set_cur].
    rewrite Hv. rewrite (proj2 (Z.leb_gt _ _) H91).
    unfold loadPlayer2. rewrite (proj2 (Z.leb_le _ _) H135).
    unfold mbind at 1, M_bind at 1, rd at 1, zoom at 1. cbn [cur set_cur].
    rewrite Hm. done. }
  split.
  - intros Hne. apply String.eqb_neq in Hne. rewrite Hne. done.
  - intros -> type h3 Ht Hne. rewrite String.eqb_refl. cbn [negb].
    unfold mbind at 1, M_bind at 1, rd at 1, zoom at 1. cbn [cur set_cur].
    rewrite Ht. apply Z.eqb_neq in Hne. rewrite Hne. done.
Qed.

Lemma loadPlayer_not_a_player_map_witness :
  let st := example_state "w" 1 1 [blank_tile] [] in
  loadPlayer example_env2 st
  = (Ok tt, mkSt (cur st) (world st) [loadError "Not a relogic map file"]).
Proof.
  intros st.
  refine (proj1 (loadPlayer_not_a_player_map example_env2 st 200 "relogix"
                   (mkHandle (example_files2 "player/42.map") 4)
                   (mkHandle (example_files2 "player/42.map") 11)
                   eq_refl eq_refl _ eq_refl) _).
  - vm_compute. discriminate.
  - discriminate.
Defined.



(** ** The sections that are read and dropped *)

Lemma skipped_skipped n m s : skipped m (skipped n s) = skipped (n + m) s.
Proof. unfold skipped, set_cur. simpl. by rewrite Z.add_assoc. Qed.

Lemma skipped_0 s : skipped 0 s = s.
Proof. unfold skipped. rewrite Z.add_0_r. by destruct s as [[] ? ?]. Qed.

Lemma rd_r16_skipped s v s' : rd r16 s = (Ok v, s') → s' = skipped 2 s.
Proof. intros (h' & H & ->)%rd_inv. by apply r16_bytes in H as (_ & -> & _). Qed.

Lemma rd_r32_skipped s v s' : rd r32 s = (Ok v, s') → s' = skipped 4 s.
Proof. intros (h' & H & ->)%rd_inv. by apply r32_bytes in H as (_ & -> & _). Qed.

Lemma rd_r8_skipped s v s' : rd r8 s = (Ok v, s') → s' = skipped 1 s.
Proof. intros (h' & H & ->)%rd_inv. by apply r8_bytes in H as (_ & -> & _). Qed.

(** A loop of [k] turns that each move the cursor on by [c] bytes and do
    nothing else. *)
Lemma for_loop_skipped c (body : Z → M St unit) k : ∀ i s s',
  (∀ j s s', body j s = (Ok tt, s') → s' = skipped c s) →
  for_loop k i body s = (Ok tt, s') → s' = skipped (c * Z.of_nat k) s.
Proof.
  induction k as [|k IH]; intros i s s' Hb H.
  - injection H as <-. by rewrite Z.mul_0_r, skipped_0.
  - cbn [for_loop] in H. apply bind_ok_inv in H as ([] & s1 & H1 & H).
    apply Hb in H1 as ->. apply IH in H as ->; [|done].
    rewrite skipped_skipped. f_equal. lia.
Qed.

(** X15: loadDummies, loadPressurePlates and loadTownManager keep nothing of
    what they read: when they end well, the state is the state before with the
    cursor moved on by 4 + 4 * n, 4 + 8 * n and 4 + 12 * n bytes, n being the
    count read first (0 when it is negative). *)
Theorem discarded_sections st n h1 :
  r32 (cur st) = (Ok n, h1) →
  (∀ st', loadDummies st = (Ok tt, st') →
          st' = skipped (4 + 4 * Z.of_nat (Z.to_nat n)) st) ∧
  (∀ st', loadPressurePlates st = (Ok tt, st') →
          st' = skipped (4 + 8 * Z.of_nat (Z.to_nat n)) st) ∧
  (∀ st', loadTownManager st = (Ok tt, st') →
          st' = skipped (4 + 12 * Z.of_nat (Z.to_nat n)) st).
Proof.
  intros Hn.
  assert (∀ st' c (body : Z → M St unit),
            (∀ j s s', body j s = (Ok tt, s') → s' = skipped c s) →
            (num ← rd r32; for_range num body) st = (Ok tt, st') →
            st' = skipped (4 + c * Z.of_nat (Z.to_nat n)) st) as Hloop.
  { intros st' c body Hb (n' & s1 & H1 & H)%bind_ok_inv.
    pose proof (rd_r32_skipped _ _ _ H1) as ->.
    apply rd_inv in H1 as (h' & H1 & _). rewrite Hn in H1. injection H1 as <- <-.
    apply (for_loop_skipped c) in H as ->; [|done]. by rewrite skipped_skipped. }
  split; [|split]; intros st' H.
  - apply (Hloop st' 4) in H; [done|]. intros j s s' Hb.
    apply bind_ok_inv in Hb as (? & s1 & H1 & Hb). apply rd_r16_skipped in H1 as ->.
    apply bind_ok_inv in Hb as (? & s2 & H2 & [= <-]). apply rd_r16_skipped in H2 as ->.
    by rewrite skipped_skipped.
  - apply (Hloop st' 8) in H; [done|]. intros j s s' Hb.
    apply bind_ok_inv in Hb as (? & s1 & H1 & Hb). apply rd_r32_skipped in H1 as ->.
    apply bind_ok_inv in Hb as (? & s2 & H2 & [= <-]). apply rd_r32_skipped in H2 as ->.
    by rewrite skipped_skipped.
  - apply (Hloop st' 12) in H; [done|]. intros j s s' Hb.
    apply bind_ok_inv in Hb as (? & s1 & H1 & Hb). apply rd_r32_skipped in H1 as ->.
    apply bind_ok_inv in Hb as (? & s2 & H2 & Hb). apply rd_r32_skipped in H2 as ->.
    apply bind_ok_inv in Hb as (? & s3 & H3 & [= <-]). apply rd_r32_skipped in H3 as ->.
    by rewrite !skipped_skipped.
Qed.

Lemma discarded_sections_witness :
  let st := example_state "" 0 0 [] example_discarded in
  loadDummies st = (Ok tt, skipped 12 st) ∧
  loadPressurePlates st = (Ok tt, skipped 20 st).
Proof.
  intros st.
  assert (r32 (cur st) = (Ok 2, mkHandle example_discarded 4)) as En
    by reflexivity.
  destruct (discarded_sections st 2 _ En) as (H1 & H2 & _).
  split.
  - destruct (loadDummies st) as [r st'] eqn:E.
    assert (r = Ok tt) as -> by (vm_compute in E; congruence).
    by rewrite (H1 st' eq_refl).
  - destruct (loadPressurePlates st) as [r st'] eqn:E.
    assert (r = Ok tt) as -> by (vm_compute in E; congruence).
    by rewrite (H2 st' eq_refl).
Defined.

(** ** Entity records *)

Lemma r8_is_byte h v h' : r8 h = (Ok v, h') → v = byte_at (bytes h) (pos h).
Proof. by intros (_ & _ & -> & _)%r8_inv. Qed.

(** X16: An entity that loadEntities appends was read from the bytes of its
    record and from nothing else: the bytes between the cursor before and the
    cursor after are the kind (0 training dummy, 1 item frame, 2 logic
    sensor), the id on four bytes, x and y on two bytes each and the fields of
    the kind, little-endian, in the order the code reads them; every field is
    in the range of the integer it is read as, so the bytes decide it; and a
    logic sensor is on when the last byte of its record is not 0, off when
    it is 0. *)
Theorem loadEntity_record h e h' :
  loadEntity h = (Ok (Some e), h') →
  let on := byte_at (bytes h) (pos h' - 1) in
  bytes h' = bytes h ∧ 0 ≤ pos h ∧
  segment (bytes h) (pos h) (pos h') = entity_bytes e on ∧
  pos h' = pos h + Z.of_nat (length (entity_bytes e on)) ∧
  entity_ok e ∧
  match e with
  | LogicSensor _ _ _ _ b => b = truthy on
  | _ => True
  end.
Proof.
  unfold loadEntity. intros (kind & h1 & Hk & H)%bind_ok_inv.
  apply r8_bytes in Hk as (Hp & -> & Ek & Hkr).
  destruct kind as [|[[]|[]|]|]; try discriminate H.
  - (* training dummy *)
    apply bind_ok_inv in H as (id & h2 & H2 & H).
    apply r32_bytes in H2 as (_ & -> & E2 & R2).
    apply bind_ok_inv in H as (x & h3 & H3 & H).
    apply r16_bytes in H3 as (_ & -> & E3 & R3).
    apply bind_ok_inv in H as (y & h4 & H4 & H).
    apply r16_bytes in H4 as (_ & -> & E4 & R4).
    apply bind_ok_inv in H as (npc & h5 & H5 & H).
    apply r16_bytes in H5 as (_ & -> & E5 & R5).
    injection H as <- <-. cbn [pos bytes] in *.
    split; [done|]. split; [done|].
    split; [|split; [simpl; lia|split; [done|done]]].
    cbn [entity_bytes]. rewrite <- Ek, <- E2, <- E3, <- E4, <- E5.
    rewrite !segment_app by lia. f_equal; lia.
  - (* logic sensor *)
    apply bind_ok_inv in H as (id & h2 & H2 & H).
    apply r32_bytes in H2 as (_ & -> & E2 & R2).
    apply bind_ok_inv in H as (x & h3 & H3 & H).
    apply r16_bytes in H3 as (_ & -> & E3 & R3).
    apply bind_ok_inv in H as (y & h4 & H4 & H).
    apply r16_bytes in H4 as (_ & -> & E4 & R4).
    apply bind_ok_inv in H as (type & h5 & H5 & H).
    apply r8_bytes in H5 as (_ & -> & E5 & R5).
    apply bind_ok_inv in H as (on & h6 & H6 & H).
    pose proof (r8_is_byte _ _ _ H6) as Hon.
    apply r8_bytes in H6 as (_ & -> & E6 & _).
    injection H as <- <-. cbn [pos bytes] in *.
    replace (pos h + 1 + 4 + 2 + 2 + 1 + 1 - 1)
      with (pos h + 1 + 4 + 2 + 2 + 1) by lia.
    rewrite <- Hon.
    split; [done|]. split; [done|].
    split; [|split; [simpl; lia|split; [done|done]]].
    cbn [entity_bytes]. rewrite <- Ek, <- E2, <- E3, <- E4, <- E5, <- E6.
    rewrite !segment_app by lia. f_equal; lia.
  - (* item frame *)
    apply bind_ok_inv in H as (id & h2 & H2 & H).
    apply r32_bytes in H2 as (_ & -> & E2 & R2).
    apply bind_ok_inv in H as (x & h3 & H3 & H).
    apply r16_bytes in H3 as (_ & -> & E3 & R3).
    apply bind_ok_inv in H as (y & h4 & H4 & H).
    apply r16_bytes in H4 as (_ & -> & E4 & R4).
    apply bind_ok_inv in H as (itemid & h5 & H5 & H).
    apply r16_bytes in H5 as (_ & -> & E5 & R5).
    apply bind_ok_inv in H as (prefix & h6 & H6 & H).
    apply r8_bytes in H6 as (_ & -> & E6 & R6).
    apply bind_ok_inv in H as (stack & h7 & H7 & H).
    apply r16_bytes in H7 as (_ & -> & E7 & R7).
    injection H as <- <-. cbn [pos bytes] in *.
    split; [done|]. split; [done|].
    split; [|split; [simpl; lia|split; [done|done]]].
    cbn [entity_bytes]. rewrite <- Ek, <- E2, <- E3, <- E4, <- E5, <- E6, <- E7.
    rewrite !segment_app by lia. f_equal; lia.
Qed.

Lemma loadEntity_record_witness :
  loadEntity (mkHandle example_sensor 0)
  = (Ok (Some (LogicSensor 7 3 4 1 true)), mkHandle example_sensor 11) ∧
  byte_at example_sensor 10 = 5 ∧
  segment example_sensor 0 11 = entity_bytes (LogicSensor 7 3 4 1 true) 5 ∧
  true = truthy 5.
Proof.
  assert (loadEntity (mkHandle example_sensor 0)
          = (Ok (Some (LogicSensor 7 3 4 1 true)), mkHandle example_sensor 11))
    as E by (vm_compute; reflexivity).
  split; [exact E|]. split; [reflexivity|].
  destruct (loadEntity_record _ _ _ E) as (_ & _ & Hs & _ & _ & Ht).
  split; [exact Hs|exact Ht].
Defined.

(** ** Signs, entities, NPCs and the bestiary *)

Lemma loadSigns_turn env s s' :
  (text ← rd (rs env); x ← rd r32; y ← rd r32;
   upd (λ w, set_signs (signs w ++ [mkSign x y text]) w)) s = (Ok tt, s') →
  emitted s' = emitted s ∧
  ∃ sg, world s' = set_signs (signs (world s) ++ [sg]) (world s).
Proof.
  intros (text & s1 & H1 & H)%bind_ok_inv. apply rd_inv in H1 as (h1 & _ & ->).
  apply bind_ok_inv in H as (x & s2 & H2 & H). apply rd_inv in H2 as (h2 & _ & ->).
  apply bind_ok_inv in H as (y & s3 & H3 & H). apply rd_inv in H3 as (h3 & _ & ->).
  injection H as <-. simpl. eauto.
Qed.

Lemma loadEntities_turn_inv s s' :
  loadEntities_turn s = (Ok tt, s') →
  emitted s' = emitted s ∧
  ∃ l, (length l ≤ 1)%nat ∧ world s' = set_entities (entities (world s) ++ l) (world s).
Proof.
  unfold loadEntities_turn. intros (e & s1 & H1 & H)%bind_ok_inv.
  apply rd_inv in H1 as (h1 & _ & ->). destruct e as [e|]; injection H as <-.
  - split; [done|]. exists [e]. split; [simpl; lia|done].
  - split; [done|]. exists []. rewrite app_nil_r. split; [simpl; lia|].
    simpl. by destruct (world s).
Qed.

(** X17: When loadSigns ends well, the world holds exactly as many signs as
    the count read first (a signed 16-bit integer, 0 when negative), its other
    members are unchanged and the one signal emitted is status(Loading
    Signs...). When loadEntities ends well, the world holds at most as many
    entities as the count read first, its other members are unchanged and no
    signal is emitted. *)
Theorem section_counts env st :
  (∀ n h1 st',
     r16 (cur st) = (Ok n, h1) → loadSigns env st = (Ok tt, st') →
     length (signs (world st')) = Z.to_nat n ∧
     world st' = set_signs (signs (world st')) (world st) ∧
     emitted st' = emitted st ++ [status "Loading Signs..."]) ∧
  (∀ n h1 st',
     r32 (cur st) = (Ok n, h1) → loadEntities st = (Ok tt, st') →
     (length (entities (world st')) ≤ Z.to_nat n)%nat ∧
     world st' = set_entities (entities (world st')) (world st) ∧
     emitted st' = emitted st).
Proof.
  split.
  - intros n h1 st' Hn H. unfold loadSigns in H.
    apply bind_ok_inv in H as ([] & s1 & [= <-] & H).
    apply bind_ok_inv in H as ([] & s2 & [= <-] & H).
    apply bind_ok_inv in H as (n' & s3 & H3 & H).
    apply rd_inv in H3 as (h3 & H3 & ->). simpl in H3. rewrite Hn in H3.
    injection H3 as <- <-. unfold for_range in H.
    apply (for_loop_invariant
             (λ k s, length (signs (world s)) = k ∧
                     world s = set_signs (signs (world s)) (world st) ∧
                     emitted s = emitted st ++ [status "Loading Signs..."])
             _ _ 0%nat) in H; [done| |done].
    intros k j s s' (Hl & Hw & He) Ht.
    apply loadSigns_turn in Ht as (He' & sg & Hw').
    rewrite He', He, Hw'. cbn [signs set_signs]. rewrite length_app, Hl.
    split; [simpl; lia|]. split; [|done]. by rewrite Hw.
  - intros n h1 st' Hn H. unfold loadEntities in H.
    apply bind_ok_inv in H as ([] & s1 & [= <-] & H).
    apply bind_ok_inv in H as (n' & s3 & H3 & H).
    apply rd_inv in H3 as (h3 & H3 & ->). simpl in H3. rewrite Hn in H3.
    injection H3 as <- <-. unfold for_range in H.
    apply (for_loop_invariant
             (λ k s, (length (entities (world s)) ≤ k)%nat ∧
                     world s = set_entities (entities (world s)) (world st) ∧
                     emitted s = emitted st)
             _ _ 0%nat) in H; [done| |done].
    intros k j s s' (Hl & Hw & He) Ht.
    apply loadEntities_turn_inv in Ht as (He' & l & Hll & Hw').
    rewrite He', He, Hw'. cbn [entities set_entities]. rewrite length_app.
    split; [lia|]. split; [|done]. by rewrite Hw.
Qed.

Lemma section_counts_witness :
  let st := example_state "" 0 0 [] example_signs in
  ∃ st',
    loadSigns example_env st = (Ok tt, st') ∧
    signs (world st') = [mkSign 10 20 "hi"] ∧
    length (signs (world st')) = Z.to_nat 1.
Proof.
  intros st.
  destruct (loadSigns example_env st) as [r st'] eqn:E.
  assert (r = Ok tt ∧ signs (world st') = [mkSign 10 20 "hi"]) as (-> & Es).
  { vm_compute in E. injection E as <- <-. split; reflexivity. }
  exists st'. split; [reflexivity|]. split; [exact Es|].
  exact (proj1 (proj1 (section_counts example_env st) 1 _ st' eq_refl E)).
Defined.

#[global] Instance accumulated_preorder : PreOrder accumulated.
Proof.
  split; [by split|]. intros a b c (H1 & H2 & H3) (H4 & H5 & H6).
  split; [by etrans|]. split; [by etrans|]. auto.
Qed.

Lemma loadBestiary_accumulated env :
  preserves (on_world accumulated any) (loadBestiary env).
Proof.
  unfold loadBestiary. repeat world_step; try done; unfold accumulated;
    cbn [seen chats kills set_kills set_seen set_chats].
  - split; [done|]. split; [done|]. intros name Hn.
    by apply lookup_insert_is_Some'; right.
  - split; [by apply prefix_app_r|]. done.
  - split; [done|]. split; [by apply prefix_app_r|]. done.
Qed.

(** X18: loadBestiary clears nothing: however it ends, the sightings and the
    chats the world held before are a prefix of those it holds after, every
    name that had a kill count still has one, no other member of the world
    changes and no signal is emitted. *)
Theorem loadBestiary_accumulates env st r st' :
  loadBestiary env st = (r, st') →
  seen (world st) `prefix_of` seen (world st') ∧
  chats (world st) `prefix_of` chats (world st') ∧
  (∀ name, is_Some (kills (world st) !! name) →
           is_Some (kills (world st') !! name)) ∧
  set_kills ∅ (set_seen [] (set_chats [] (world st')))
  = set_kills ∅ (set_seen [] (set_chats [] (world st))) ∧
  emitted st' = emitted st.
Proof.
  intros H. pose proof (loadBestiary_accumulated env _ _ _ H) as [(H1 & H2 & H3) _].
  split; [done|]. split; [done|]. split; [done|].
  assert (preserves (on_world (unchanged_but (λ w, set_kills ∅ (set_seen [] (set_chats [] w)))) eq)
            (loadBestiary env)) as Hp.
  { apply loadBestiary_on_world; try apply _; done. }
  by apply Hp in H as [? ?].
Qed.

Lemma loadBestiary_accumulates_witness :
  let st := mkSt (mkHandle example_bestiary 0)
              (set_seen ["z"] (example_world "" 0 0 [])) [] in
  ∃ st',
    loadBestiary example_env st = (Ok tt, st') ∧
    seen (world st') = ["z"; "b"] ∧
    seen (world st) `prefix_of` seen (world st') ∧
    emitted st' = emitted st.
Proof.
  intros st.
  destruct (loadBestiary example_env st) as [r st'] eqn:E.
  assert (r = Ok tt ∧ seen (world st') = ["z"; "b"]) as (-> & Es).
  { vm_compute in E. injection E as <- <-. split; reflexivity. }
  exists st'. split; [reflexivity|]. split; [exact Es|].
  destruct (loadBestiary_accumulates example_env st _ st' E) as (H1 & _ & _ & _ & H5).
  split; [exact H1|exact H5].
Defined.

(** ** NPCs *)

Lemma loadNPCs_while_terminated one fuel :
  preserves advances one →
  ∀ s s', loadNPCs_while fuel one s = (Ok tt, s') →
    ∃ l, world s' = set_npcs (npcs (world s) ++ l) (world s) ∧
         emitted s' = emitted s ∧
         bytes (cur s') = bytes (cur s) ∧ 0 ≤ pos (cur s) ∧
         pos (cur s) + Z.of_nat (length l) + 1 ≤ pos (cur s')
         ∧ pos (cur s') ≤ Handle_length (cur s) ∧
         byte_at (bytes (cur s)) (pos (cur s') - 1) = 0.
Proof.
  intros Ha. induction fuel as [|fuel IH]; intros s s' H; [done|].
  cbn [loadNPCs_while] in H.
  apply bind_ok_inv in H as (more & s1 & H1 & H).
  apply rd_inv in H1 as (h1 & H1 & ->).
  apply r8_inv in H1 as (Hp & Hl & Hm & ->).
  destruct (truthy more) eqn:Et.
  - apply bind_ok_inv in H as (npc & s2 & H2 & H).
    apply rd_inv in H2 as (h2 & H2 & ->). apply Ha in H2 as (Hb & Hp2 & Hl2).
    apply bind_ok_inv in H as ([] & s3 & [= <-] & H).
    apply IH in H as (l & Hw & He & Hb' & _ & Hp' & Hl' & Hz).
    cbn [world emitted cur set_world set_cur bytes pos npcs set_npcs] in *.
    unfold Handle_length in *. cbn [bytes pos] in *.
    exists (npc :: l). rewrite Hw. cbn [npcs set_npcs length].
    rewrite <- app_assoc. split; [done|]. split; [done|].
    rewrite Hb' in *. rewrite Hb in *.
    split; [done|]. split; [done|]. split; [lia|]. split; [lia|done].
  - injection H as <-. exists [].
    cbn [world emitted cur set_cur bytes pos length]. rewrite app_nil_r.
    split; [by destruct (world s)|]. split; [done|]. split; [done|].
    split; [done|]. split; [lia|]. split; [lia|].
    replace (pos (cur s) + 1 - 1) with (pos (cur s)) by lia.
    rewrite <- Hm. unfold truthy in Et. apply negb_false_iff in Et. lia.
Qed.

(** X19: When loadNPCs ends well the byte before the cursor is the 0 that
    ended its last loop; the cursor has moved on by at least one byte for
    every NPC the world now holds and one for each terminator (two from
    version 140 on, one before) and is still within the file, whose bytes are
    unchanged; only the NPCs and the shimmered set of the world change, and
    the one signal emitted is status(Loading NPCs...). *)
Theorem loadNPCs_ends_at_terminator env version st st' :
  loadNPCs env version st = (Ok tt, st') →
  bytes (cur st') = bytes (cur st) ∧
  pos (cur st) + Z.of_nat (length (npcs (world st')))
  + (if 140 <=? version then 2 else 1) ≤ pos (cur st') ∧
  pos (cur st') ≤ Handle_length (cur st) ∧
  byte_at (bytes (cur st)) (pos (cur st') - 1) = 0 ∧
  set_shimmered ∅ (set_npcs [] (world st'))
  = set_shimmered ∅ (set_npcs [] (world st)) ∧
  emitted st' = emitted st ++ [status "Loading NPCs..."].
Proof.
  intros H.
  assert (preserves (on_world (unchanged_but (λ w, set_shimmered ∅ (set_npcs [] w)))
                       any) (loadNPCs env version)) as Hframe.
  { apply loadNPCs_on_world; try apply _; done. }
  apply Hframe in H as Hfr. destruct Hfr as [Hfr _]. clear Hframe.
  unfold loadNPCs in H.
  apply bind_ok_inv in H as ([] & s1 & [= <-] & H).
  apply bind_ok_inv in H as ([] & s2 & [= <-] & H).
  apply bind_ok_inv in H as ([] & s3 & H3 & H).
  pose proof H3 as H3'.
  assert (preserves (on_world (unchanged_but (set_shimmered ∅)) eq)
            (when (268 <=? version)
               (num ← rd r32;
                for_range num (λ _,
                  id ← rd r32;
                  upd (λ w, set_shimmered (<[id := true]> (shimmered w)) w)))))
    as Hp by (repeat world_step; done).
  apply Hp in H3 as [Hw3 He3]. cbn [world emitted set_world] in Hw3, He3.
  clear Hp.
  assert (preserves cur_advances
            (when (268 <=? version)
               (num ← rd r32;
                for_range num (λ _,
                  id ← rd r32;
                  upd (λ w, set_shimmered (<[id := true]> (shimmered w)) w)))))
    as Hp.
  { destruct (268 <=? version); cbn [when]; cur_preserves.
    apply (preserves_modify cur_advances). intros ?.
    unfold cur_advances. simpl. reflexivity. }
  apply Hp in H3' as (Hb3 & Hp3 & Hl3). clear Hp.
  cbn [cur set_world] in Hb3, Hp3, Hl3.
  assert (npcs (world s3) = []) as Hn3.
  { apply (f_equal npcs) in Hw3. exact Hw3. }
  apply bind_ok_inv in H as (inf & s4 & [= <- <-] & H).
  apply bind_ok_inv in H as (fuel & s5 & [= <- <-] & H).
  apply bind_ok_inv in H as ([] & s6 & H6 & H).
  apply loadNPCs_while_terminated in H6
    as (homed & Hw6 & He6 & Hb6 & Hp0 & Hp6 & Hl6 & Hz6);
    [|apply loadNPC_homed_advances].
  rewrite Hn3 in Hw6. cbn [app] in Hw6.
  unfold Handle_length in *. rewrite Hb3 in *.
  destruct (Z.leb_spec 140 version) as [Hv|Hv]; cbn [when] in H.
  - apply bind_ok_inv in H as (fuel' & s7 & [= <- <-] & H).
    apply loadNPCs_while_terminated in H
      as (homeless & Hw & He & Hb & Hp0' & Hp' & Hl' & Hz);
      [|apply loadNPC_homeless_advances].
    unfold Handle_length in *. rewrite Hb6 in *.
    assert (length (npcs (world st')) = (length homed + length homeless)%nat)
      as ->.
    { rewrite Hw, Hw6. cbn [npcs set_npcs]. by rewrite length_app. }
    split; [congruence|]. split; [lia|]. split; [lia|].
    split; [done|]. split; [exact Hfr|]. by rewrite He, He6, <- He3.
  - injection H as <-.
    assert (length (npcs (world s6)) = length homed) as ->.
    { by rewrite Hw6. }
    split; [done|]. split; [lia|]. split; [lia|].
    split; [done|]. split; [exact Hfr|]. by rewrite He6, <- He3.
Qed.

Lemma loadNPCs_ends_at_terminator_witness :
  let st := example_state "" 0 0 [] example_npcs in
  ∃ st',
    loadNPCs example_env 200 st = (Ok tt, st') ∧
    pos (cur st') = 15 ∧ length (npcs (world st')) = 1%nat ∧
    byte_at (bytes (cur st)) (pos (cur st') - 1) = 0 ∧
    emitted st' = emitted st ++ [status "Loading NPCs..."].
Proof.
  intros st.
  destruct (loadNPCs example_env 200 st) as [r st'] eqn:E.
  assert (r = Ok tt ∧ pos (cur st') = 15 ∧
          length (npcs (world st')) = 1%nat) as (-> & Ep & El).
  { vm_compute in E. injection E as <- <-. repeat split; reflexivity. }
  exists st'. split; [reflexivity|]. split; [exact Ep|]. split; [exact El|].
  destruct (loadNPCs_ends_at_terminator example_env 200 st st' E)
    as (_ & _ & _ & Hz & _ & He).
  split; [exact Hz|exact He].
Defined.

(** ** Every section writes its own members *)

Ltac frame_side :=
  first [ done | apply _ | intros; reflexivity
        | intros; apply appended_one; unfold is_status; eauto ].

(** X20: What each section decoder can change, however it ends: loadHeader
    only the header, the sizes of the grid and the tiles, with no signal;
    loadTiles, loadChests and loadSigns only the tiles, the chests and the
    signs, with status signals only; loadNPCs only the NPCs and the shimmered
    set, with status signals only; loadEntities only the entities, with no
    signal; loadDummies, loadPressurePlates, loadTownManager and
    loadCreativePowers nothing of the world and no signal. *)
Theorem sections_write_their_members env :
  (∀ version, writes_only without_grid (λ _, False) (loadHeader env version)) ∧
  (∀ extra, writes_only (set_tiles []) is_status (loadTiles env extra)) ∧
  writes_only (set_chests []) is_status (loadChests env) ∧
  writes_only (set_signs []) is_status (loadSigns env) ∧
  (∀ version, writes_only (λ w, set_shimmered ∅ (set_npcs [] w)) is_status
                (loadNPCs env version)) ∧
  writes_only (set_entities []) (λ _, False) loadEntities ∧
  writes_only id (λ _, False) loadDummies ∧
  writes_only id (λ _, False) loadPressurePlates ∧
  writes_only id (λ _, False) loadTownManager ∧
  writes_only id (λ _, False) loadCreativePowers.
Proof.
  unfold writes_only.
  split; [intros version; apply loadHeader_on_world; frame_side|].
  split; [intros extra; apply loadTiles_on_world; frame_side|].
  split; [apply loadChests_on_world; frame_side|].
  split; [apply loadSigns_on_world; frame_side|].
  split; [intros version; apply loadNPCs_on_world; frame_side|].
  split; [apply loadEntities_on_world; frame_side|].
  split; [apply loadDummies_on_world; frame_side|].
  split; [apply loadPressurePlates_on_world; frame_side|].
  split; [apply loadTownManager_on_world; frame_side|].
  apply (preserves_ret (on_world _ _)).
Qed.

Lemma sections_write_their_members_witness :
  let st := example_state "" 0 0 [] example_chests in
  ∃ st',
    loadChests example_env st = (Ok tt, st') ∧
    set_chests [] (world st') = set_chests [] (world st) ∧
    appended is_status (emitted st) (emitted st').
Proof.
  intros st.
  destruct (loadChests example_env st) as [r st'] eqn:E.
  assert (r = Ok tt) as ->.
  { vm_compute in E. by injection E as <- <-. }
  exists st'. split; [reflexivity|].
  exact (proj1 (proj2 (proj2 (sections_write_their_members example_env)))
           st _ st' E).
Defined.

(** ** The grid of a loaded world *)

Lemma int_mul_range a b : - 2 ^ 31 ≤ int_mul a b < 2 ^ 31.
Proof.
  unfold int_mul, to_signed.
  pose proof (Z.mod_pos_bound (a * b) (2 ^ 32) ltac:(lia)).
  case_match eqn:E; [apply Z.ltb_lt in E|apply Z.ltb_ge in E]; lia.
Qed.

Lemma int_mul_small a b : 0 ≤ a * b < 2 ^ 31 → int_mul a b = a * b.
Proof.
  intros H. unfold int_mul, to_signed. rewrite Z.mod_small by lia.
  by rewrite (proj2 (Z.ltb_lt _ _)) by lia.
Qed.

(** X21: When loadHeader ends well, the sizes of the grid are those of the
    header it has loaded and the tiles are n new tiles, n being the product
    of the two sizes as an int holds it (on 32 bits), which is then not
    negative; so, for sizes that are not negative, the grid is well formed
    (tilesWide * tilesHigh tiles) exactly when the product is below 2^31,
    and is not when the product overflows; every other member of the world
    is unchanged and no signal is emitted. *)
Theorem loadHeader_grid env version st st' :
  loadHeader env version st = (Ok tt, st') →
  let w := world st' in
  let n := int_mul (tilesWide w) (tilesHigh w) in
  tilesWide w = hdr_tilesWide (header w) ∧
  tilesHigh w = hdr_tilesHigh (header w) ∧
  0 ≤ n < 2 ^ 31 ∧
  tiles w = replicate (Z.to_nat n) (Tile_new env) ∧
  (0 ≤ tilesWide w → 0 ≤ tilesHigh w →
   (grid_wf w ↔ tilesWide w * tilesHigh w < 2 ^ 31)) ∧
  without_grid w = without_grid (world st) ∧
  emitted st' = emitted st.
Proof.
  unfold loadHeader. intros (hd & s1 & H1 & H)%bind_ok_inv.
  apply rd_inv in H1 as (h1 & _ & ->).
  apply bind_ok_inv in H as ([] & s2 & [= <-] & H).
  apply bind_ok_inv in H as ([] & s3 & [= <-] & H).
  apply bind_ok_inv in H as ([] & s4 & [= <-] & H).
  apply bind_ok_inv in H as (w & s5 & [= <- <-] & H).
  apply bind_ok_inv in H as (h & s6 & [= <- <-] & H).
  cbn [world set_world set_cur tilesWide tilesHigh set_tilesWide set_tilesHigh
       set_header] in H.
  cbv zeta in H.
  pose proof (int_mul_range (hdr_tilesWide hd) (hdr_tilesHigh hd)) as Hr.
  destruct (Z.ltb_spec (int_mul (hdr_tilesWide hd) (hdr_tilesHigh hd)) 0)
    as [Hn|Hn]; [done|].
  injection H as <-. simpl.
  split; [done|]. split; [done|]. split; [lia|]. split; [done|].
  split; [|done]. intros Hw Hh. unfold grid_wf. simpl.
  rewrite length_replicate. split.
  - intros (_ & _ & Hl). nia.
  - intros Hp. rewrite int_mul_small by nia. done.
Qed.

Lemma loadHeader_grid_witness :
  let d := [Byte.x00; Byte.x00; Byte.x01; Byte.x00;
            Byte.x00; Byte.x00; Byte.x01; Byte.x00] in
  ∃ st',
    loadHeader example_env 100 (example_state "" 0 0 [] d) = (Ok tt, st') ∧
    tilesWide (world st') = 65536 ∧ tilesHigh (world st') = 65536 ∧
    tiles (world st') = [] ∧ ¬ grid_wf (world st').
Proof.
  intros d.
  destruct (loadHeader example_env 100 (example_state "" 0 0 [] d))
    as [r st'] eqn:E.
  assert (r = Ok tt ∧ tilesWide (world st') = 65536 ∧
          tilesHigh (world st') = 65536) as (-> & Ew & Eh).
  { vm_compute in E. injection E as <- <-. repeat split. }
  exists st'. split; [reflexivity|]. split; [exact Ew|]. split; [exact Eh|].
  destruct (loadHeader_grid example_env 100 _ st' E) as (_ & _ & _ & Ht & Hg & _).
  rewrite Ew, Eh in Ht, Hg. split; [exact Ht|].
  intros Hwf. apply Hg in Hwf; lia.
Defined.

(** ** The signals of the tiles section *)

Lemma for_loop_emits (I : St → Prop) (msg : Z → Event) (body : Z → M St unit) k :
  ∀ i s r s',
    (∀ j s r s', I s → body j s = (r, s') →
                 I s' ∧ emitted s' = emitted s ++ [msg j]) →
    I s → for_loop k i body s = (r, s') →
    ∃ n, (n ≤ k)%nat ∧
         emitted s' = emitted s ++ (msg <$> seqZ i (Z.of_nat n)) ∧
         (r = Ok tt → n = k).
Proof.
  induction k as [|k IH]; intros i s r s' Hb Hi H.
  - injection H as <- <-. exists 0%nat. by rewrite app_nil_r.
  - cbn [for_loop] in H.
    apply bind_inv in H as [([] & s1 & H1 & H)|(e & H1 & ->)].
    + apply Hb in H1 as [Hi1 He1]; [|done].
      apply (IH (i + 1)) in H as (n & Hn & He & Hr); [|done..].
      exists (S n). split; [lia|]. split; [|intros E; f_equal; auto].
      rewrite He, He1, <- app_assoc. f_equal.
      rewrite (seqZ_cons i) by lia. cbn [fmap list_fmap app]. do 3 f_equal; lia.
    + apply Hb in H1 as [_ He1]; [|done]. exists 1%nat. split; [lia|].
      split; [|done]. by rewrite He1.
Qed.

(** X22: However loadTiles ends, the signals it has emitted are the status
    signals Reading tiles: p% of the columns 0, 1, ..., n - 1 in this order,
    one for each column entered, with n at most tilesWide; when it ends well
    there is one for every column. *)
Theorem loadTiles_status env extra st r st' :
  loadTiles env extra st = (r, st') →
  ∃ n, (n ≤ Z.to_nat (tilesWide (world st)))%nat ∧
       emitted st' = emitted st ++
         (tiles_status env (tilesWide (world st)) <$> seqZ 0 (Z.of_nat n)) ∧
       (r = Ok tt → n = Z.to_nat (tilesWide (world st))).
Proof.
  unfold loadTiles. intros H.
  unfold mbind at 1, M_bind at 1, the at 1, gets at 1, for_range in H.
  apply (for_loop_emits (λ s, tilesWide (world s) = tilesWide (world st))
           (tiles_status env (tilesWide (world st)))) in H; [done| |done].
  intros j s r0 s0 Hw Hb.
  unfold mbind at 1, M_bind at 1, the at 1, gets at 1 in Hb.
  unfold mbind at 1, M_bind at 1, emit at 1, modify at 1 in Hb.
  unfold mbind at 1, M_bind at 1, gets at 1 in Hb.
  apply (loadTiles_column_on_world (unchanged_but (set_tiles [])) eq) in Hb
    as [Hu He]; [|done].
  cbn [world emitted] in Hu, He. rewrite <- He, Hw. split; [|done].
  apply (f_equal tilesWide) in Hu. cbn [tilesWide set_tiles] in Hu. congruence.
Qed.

Lemma loadTiles_status_witness :
  let st := example_state "" 2 2 [blank_tile; blank_tile; blank_tile; blank_tile]
              [Byte.x40; Byte.x01; Byte.x40; Byte.x01] in
  ∃ st',
    loadTiles example_env [] st = (Ok tt, st') ∧
    emitted st' = [status "Reading tiles: 0%"; status "Reading tiles: 50%"] ∧
    ∃ n, emitted st' = emitted st ++ (tiles_status example_env 2 <$> seqZ 0 (Z.of_nat n)).
Proof.
  intros st.
  destruct (loadTiles example_env [] st) as [r st'] eqn:E.
  assert (r = Ok tt ∧
          emitted st' = [status "Reading tiles: 0%"; status "Reading tiles: 50%"])
    as (-> & Ee).
  { vm_compute in E. injection E as <- <-. split; reflexivity. }
  exists st'. split; [reflexivity|]. split; [exact Ee|].
  destruct (loadTiles_status example_env [] st _ st' E) as (n & _ & Hn & _).
  exists n. exact Hn.
Defined.

(** ** The directory of the player maps *)

Lemma lastIndexOf_none c s : ∀ i found,
  no_char c s = true → lastIndexOf_from c s i found = found.
Proof.
  induction s as [|a s IH]; intros i found H; [done|].
  cbn [no_char] in H. apply andb_true_iff in H as [Ha Hs].
  cbn [lastIndexOf_from]. apply negb_true_iff in Ha. rewrite Ha. by apply IH.
Qed.

Lemma append_cons a (s1 s2 : string) : String a s1 +:+ s2 = String a (s1 +:+ s2).
Proof. reflexivity. Qed.

Lemma append_nil (s : string) : EmptyString +:+ s = s.
Proof. reflexivity. Qed.

Lemma lastIndexOf_last c s1 s2 : ∀ i found,
  no_char c s2 = true →
  lastIndexOf_from c (s1 +:+ String c s2) i found
  = i + Z.of_nat (String.length s1).
Proof.
  induction s1 as [|a s1 IH]; intros i found H.
  - rewrite append_nil. cbn [lastIndexOf_from String.length].
    rewrite Ascii.eqb_refl, lastIndexOf_none by done. lia.
  - rewrite append_cons. cbn [lastIndexOf_from String.length].
    rewrite IH by done. lia.
Qed.

Lemma string_length_app (s1 s2 : string) :
  String.length (s1 +:+ s2) = (String.length s1 + String.length s2)%nat.
Proof.
  induction s1 as [|a s1 IH]; [done|].
  rewrite append_cons. cbn [String.length]. by rewrite IH.
Qed.

Lemma substring_prefix (s1 s2 : string) :
  String.substring 0 (String.length s1) (s1 +:+ s2) = s1.
Proof.
  induction s1 as [|a s1 IH].
  - rewrite append_nil. by destruct s2.
  - rewrite append_cons. cbn [String.length String.substring]. by rewrite IH.
Qed.

(** X23: The directory in which loadPlayer looks for the maps of a player is
    the name of the player file up to its last dot: base for a name base.ext
    whose ext has no dot, and the whole name when the name has no dot. *)
Theorem player_dir_strips_extension w :
  (∀ base ext,
     player w = base +:+ String "."%char ext → no_char "."%char ext = true →
     player_dir w = base) ∧
  (no_char "."%char (player w) = true → player_dir w = player w).
Proof.
  unfold player_dir, lastIndexOf, left. split.
  - intros base ext -> Hext. rewrite lastIndexOf_last by done.
    rewrite string_length_app. cbn [String.length].
    destruct (Z.ltb_spec (0 + Z.of_nat (String.length base)) 0); [lia|].
    destruct (Z.leb_spec (Z.of_nat (String.length base + S (String.length ext)))
                (0 + Z.of_nat (String.length base))); [lia|].
    cbn [orb]. rewrite Z.add_0_l, Nat2Z.id. apply substring_prefix.
  - intros H. by rewrite lastIndexOf_none.
Qed.

Lemma player_dir_strips_extension_witness :
  player_dir (example_world "" 0 0 []) = "player".
Proof.
  exact (proj1 (player_dir_strips_extension (example_world "" 0 0 []))
           "player" "plr" eq_refl eq_refl).
Defined.

(** ** [setPlayer] *)

(** X24: However setPlayer ends, it never exhausts a loop bound of the model,
    the player of the world is the name given, the world is otherwise
    unchanged but for the tiles, which are as many as before and of which
    every one is as it was in every field and in every flag but seen; when no
    world file is set, setPlayer only stores the name. *)
Theorem setPlayer_writes env name st r st' :
  setPlayer env name st = (r, st') →
  r ≠ Fail OutOfFuel ∧
  world st' = set_tiles (tiles (world st')) (set_player name (world st)) ∧
  length (tiles (world st')) = length (tiles (world st)) ∧
  (∀ i a a',
     tiles (world st) !! i = Some a → tiles (world st') !! i = Some a' →
     alike_but_seen a a') ∧
  (filename (world st) = EmptyString →
   r = Ok tt ∧ st' = set_world (set_player name (world st)) st).
Proof.
  unfold setPlayer. intros H.
  apply bind_inv in H as [([] & s1 & [= <-] & H)|(e & [=] & _)].
  apply bind_inv in H as [(fn & s2 & [= <- <-] & H)|(e & [=] & _)].
  cbn [world set_world filename set_player] in H.
  destruct (String.eqb_spec (filename (world st)) "") as [E|E]; cbn [negb when] in H.
  - injection H as <- <-. split; [done|]. split; [by destruct st as [? [] ?]|].
    split; [done|]. split; [|done]. intros i a a' Ha Ha'.
    cbn [world set_world tiles set_player] in Ha'. rewrite Ha in Ha'.
    injection Ha' as <-. apply unseen_alike. done.
  - split.
    { intros ->. by apply loadPlayer_of_the_code in H. }
    apply loadPlayer_seen_only in H as [Hw Ht].
    cbn [world set_world tiles set_player] in Hw, Ht.
    split; [done|]. split.
    { apply (f_equal length) in Ht. by rewrite !length_fmap in Ht. }
    split; [|done]. intros i a a' Ha Ha'. apply unseen_alike.
    apply (f_equal (λ l, l !! i)) in Ht.
    rewrite !list_lookup_fmap, Ha, Ha' in Ht. by apply (inj Some) in Ht.
Qed.

Lemma setPlayer_writes_witness :
  let ts := [blank_tile; Tile.set_flags 0x201 (Tile.set_type 7 blank_tile)] in
  let st := example_state "w" 2 1 ts [] in
  ∃ st',
    setPlayer example_env "other.plr" st = (Ok tt, st') ∧
    player (world st') = "other.plr" ∧
    tiles (world st') = Tile.setSeen true <$> ts ∧
    world st' = set_tiles (tiles (world st')) (set_player "other.plr" (world st)).
Proof.
  intros ts st.
  destruct (setPlayer example_env "other.plr" st) as [r st'] eqn:E.
  assert (r = Ok tt ∧ player (world st') = "other.plr" ∧
          tiles (world st') = Tile.setSeen true <$> ts) as (-> & Ep & Et).
  { vm_compute in E. injection E as <- <-. repeat split. }
  exists st'. split; [reflexivity|]. split; [exact Ep|]. split; [exact Et|].
  exact (proj1 (proj2 (setPlayer_writes example_env "other.plr" st _ st' E))).
Defined.

(** ** The file name made of the GUID *)

Lemma hex_value_digit d : 0 ≤ d < 16 → hex_value (hex_digit d) = d.
Proof.
  intros H.
  assert (d = 0 ∨ d = 1 ∨ d = 2 ∨ d = 3 ∨ d = 4 ∨ d = 5 ∨ d = 6 ∨ d = 7 ∨
          d = 8 ∨ d = 9 ∨ d = 10 ∨ d = 11 ∨ d = 12 ∨ d = 13 ∨ d = 14 ∨
          d = 15) as Hd by lia.
  repeat (destruct Hd as [->|Hd]; [reflexivity|]). by subst d.
Qed.

Lemma unhex_from_app s1 : ∀ s2 acc,
  unhex_from (s1 +:+ s2) acc = unhex_from s2 (unhex_from s1 acc).
Proof.
  induction s1 as [|c s1 IH]; intros s2 acc; [done|].
  rewrite append_cons. cbn [unhex_from]. apply IH.
Qed.

Lemma unhex_hex width : ∀ v,
  0 ≤ v < 16 ^ Z.of_nat width → unhex_from (hex width v) 0 = v.
Proof.
  induction width as [|width IH]; intros v Hv.
  - cbn in *. lia.
  - cbn [hex]. rewrite unhex_from_app, IH.
    + cbn [unhex_from]. rewrite hex_value_digit by (apply Z.mod_pos_bound; lia).
      pose proof (Z.div_mod v 16). lia.
    + rewrite Nat2Z.inj_succ, Z.pow_succ_r in Hv by lia.
      split; [apply Z.div_pos; lia|apply Z.div_lt_upper_bound; lia].
Qed.

Lemma hex_length width : ∀ v, String.length (hex width v) = width.
Proof.
  induction width as [|width IH]; intros v; [done|].
  cbn [hex]. rewrite string_length_app, IH. cbn. lia.
Qed.

Lemma append_split (s1 : string) : ∀ s2 t1 t2,
  String.length s1 = String.length s2 →
  s1 +:+ t1 = s2 +:+ t2 → s1 = s2 ∧ t1 = t2.
Proof.
  induction s1 as [|c s1 IH]; intros [|c' s2] t1 t2 Hl H; try done.
  rewrite !append_cons in H. injection H as -> H.
  cbn in Hl. destruct (IH s2 t1 t2) as [-> ->]; [lia|done|done].
Qed.

Lemma hex_field width v v' t t' :
  0 ≤ v < 16 ^ Z.of_nat width → 0 ≤ v' < 16 ^ Z.of_nat width →
  hex width v +:+ t = hex width v' +:+ t' → v = v' ∧ t = t'.
Proof.
  intros Hv Hv' H. apply append_split in H as [H ->].
  - split; [|done]. by rewrite <- (unhex_hex width v), <- (unhex_hex width v'), H.
  - by rewrite !hex_length.
Qed.

Lemma lor_shiftl_add a b n :
  0 ≤ n → 0 ≤ a < 2 ^ n → Z.lor a (Z.shiftl b n) = a + b * 2 ^ n.
Proof.
  intros Hn Ha. rewrite Z.shiftl_mul_pow2 by done.
  symmetry. apply Z.add_nocarry_lor. apply Z.bits_inj'. intros i Hi.
  rewrite Z.land_spec, Z.bits_0. destruct (Z.lt_ge_cases i n).
  - rewrite Z.mul_pow2_bits_low by done. apply andb_false_r.
  - rewrite (below_bits n a) by lia. done.
Qed.

Lemma guid_at_range g i : 0 ≤ guid_at g i < 256.
Proof.
  unfold guid_at. destruct (g !! i) as [b|]; cbn; [|lia].
  unfold b2z. pose proof (Byte.to_N_bounded b). lia.
Qed.

Lemma lor_disjoint x y n k :
  0 ≤ n → 0 ≤ x < 2 ^ n → y = k * 2 ^ n → Z.lor x y = x + y.
Proof.
  intros Hn Hx ->. rewrite <- Z.shiftl_mul_pow2 by done.
  rewrite lor_shiftl_add by done. by rewrite Z.shiftl_mul_pow2.
Qed.

Lemma le16_value a b :
  0 ≤ a < 256 → 0 ≤ b < 256 →
  Z.lor a (Z.shiftl b 8) mod 2 ^ 16 = a + 256 * b.
Proof.
  intros Ha Hb. rewrite Z.shiftl_mul_pow2 by lia.
  rewrite (lor_disjoint a _ 8 b) by lia. rewrite Z.mod_small; lia.
Qed.

Lemma be16_value a b :
  0 ≤ a < 256 → 0 ≤ b < 256 →
  Z.lor (Z.shiftl a 8) b mod 2 ^ 16 = b + 256 * a.
Proof. intros Ha Hb. rewrite Z.lor_comm. by apply le16_value. Qed.

Lemma le32_value a b c d :
  0 ≤ a < 256 → 0 ≤ b < 256 → 0 ≤ c < 256 → 0 ≤ d < 256 →
  Z.lor (Z.lor (Z.lor a (Z.shiftl b 8)) (Z.shiftl c 16)) (Z.shiftl d 24)
    mod 2 ^ 32 = a + 256 * b + 65536 * c + 16777216 * d.
Proof.
  intros Ha Hb Hc Hd. rewrite !Z.shiftl_mul_pow2 by lia.
  rewrite (lor_disjoint a _ 8 b) by lia.
  rewrite (lor_disjoint _ (c * _) 16 c) by lia.
  rewrite (lor_disjoint _ (d * _) 24 d) by lia.
  rewrite Z.mod_small; lia.
Qed.

Lemma be32_value a b c d :
  0 ≤ a < 256 → 0 ≤ b < 256 → 0 ≤ c < 256 → 0 ≤ d < 256 →
  Z.lor (Z.lor (Z.lor (Z.shiftl a 24) (Z.shiftl b 16)) (Z.shiftl c 8)) d
    mod 2 ^ 32 = d + 256 * c + 65536 * b + 16777216 * a.
Proof.
  intros Ha Hb Hc Hd. rewrite !Z.shiftl_mul_pow2 by lia.
  rewrite (Z.lor_comm (a * _)), (lor_disjoint (b * _) _ 24 a) by lia.
  rewrite (Z.lor_comm _ (c * _)), (lor_disjoint (c * _) _ 16 (b + 256 * a)) by lia.
  rewrite (Z.lor_comm _ d), (lor_disjoint d _ 8 (c + 256 * b + 65536 * a)) by lia.
  rewrite Z.mod_small; lia.
Qed.

Lemma guid_at_inj g g' :
  length g = 16%nat → length g' = 16%nat →
  (∀ i, (i < 16)%nat → guid_at g i = guid_at g' i) → g = g'.
Proof.
  intros Hl Hl' H. apply list_eq. intros i.
  destruct (decide (i < 16)%nat) as [Hi|Hi].
  - specialize (H i Hi). unfold guid_at in H.
    destruct (lookup_lt_is_Some_2 g i) as [b Hb]; [lia|].
    destruct (lookup_lt_is_Some_2 g' i) as [b' Hb']; [lia|].
    rewrite Hb, Hb' in *. cbn in H. f_equal.
    unfold b2z in H. apply N2Z.inj in H.
    pose proof (Byte.of_to_N b) as E. rewrite H, Byte.of_to_N in E. congruence.
  - rewrite !lookup_ge_None_2 by lia. done.
Qed.

Lemma char_field c t t' :
  String c EmptyString +:+ t = String c EmptyString +:+ t' → t = t'.
Proof. intros H. by injection H. Qed.

Ltac guid_field H E :=
  apply hex_field in H as [E H];
  [|match goal with
    | R : ∀ i, 0 ≤ guid_at ?g i < 256 |- 0 ≤ ?v < _ =>
        repeat match v with
               | context [guid_at g ?i] =>
                   lazymatch goal with
                   | _ : 0 ≤ guid_at g i < 256 |- _ => fail
                   | _ => pose proof (R i)
                   end
               end; cbn; lia
    end..].

(** X25: The file name loadPlayer makes of the GUID of a world tells the GUIDs
    apart: two distinct GUIDs of 16 bytes never give the same name; the name
    has 41 characters (a slash, 32 hexadecimal digits in groups of 8, 4, 4, 4
    and 12, four dashes, and .map). *)
Theorem guid_map_name_injective g g' :
  length g = 16%nat → length g' = 16%nat → g ≠ g' →
  guid_map_name g ≠ guid_map_name g' ∧
  String.length (guid_map_name g) = 41%nat.
Proof.
  intros Hl Hl' Hne. split; cycle 1.
  { unfold guid_map_name. cbv zeta.
    rewrite !string_length_app, !hex_length. reflexivity. }
  intros H. apply Hne. clear Hne.
  unfold guid_map_name in H. cbv zeta in H.
  pose proof (guid_at_range g) as R. pose proof (guid_at_range g') as R'.
  rewrite !le32_value, !le16_value, !be16_value, !be32_value in H by done.
  apply char_field in H. guid_field H H1.
  apply char_field in H. guid_field H H2.
  apply char_field in H. guid_field H H3.
  apply char_field in H. guid_field H H4.
  apply char_field in H. guid_field H H5. guid_field H H6. clear H.
  apply guid_at_inj; [done..|]. intros i Hi.
  repeat match goal with
         | K : _ + _ = _ + _ |- _ =>
             match type of K with
             | context [guid_at g ?j] =>
                 lazymatch goal with
                 | _ : 0 ≤ guid_at g j < 256 |- _ => fail
                 | _ => pose proof (R j); pose proof (R' j)
                 end
             end
         end.
  do 16 (destruct i as [|i]; [lia|]). lia.
Qed.

Lemma guid_map_name_injective_witness :
  guid_map_name example_guid ≠ guid_map_name example_guid2 ∧
  String.length (guid_map_name example_guid) = 41%nat.
Proof.
  apply guid_map_name_injective; [reflexivity|reflexivity|discriminate].
Defined.

